(** * staking-api-service: sharded stats ledger, stats locks and the
      delegation query service

    A shallow embedding of
    - the [db] package's stats code (stats lock registry, sharded overall and
      finality-provider counters),
    - [internal/v1/service/delegation.go] and
      [internal/v1/api/handlers/delegation.go],
    together with the properties the design document states about them.

    Conventions.  A Go [int64] is a [Z] with the wrap-around written out
    ([wrap_int64]); a [uint64] is a [Z] in [0, 2^64).  A MongoDB collection is
    a [gmap] from the [_id] string to the stored fields.  A Go function that
    returns [error] returns an [outcome]; a function that writes to the
    database takes the database and returns the new one.  The two things the
    code gets from its environment, the value drawn by [rand.Intn] and the
    failures of the MongoDB driver, are explicit arguments. *)

From stdpp Require Import gmap strings list fin_maps pretty.
From Stdlib Require Import ZArith Lia Ascii.

Local Open Scope Z_scope.

(** ** Go primitives *)

Module Go.

Definition int64_min : Z := - 2 ^ 63.
Definition int64_max : Z := 2 ^ 63 - 1.
Definition uint64_max : Z := 2 ^ 64 - 1.

(** Two's-complement reduction of an integer to [int64]. *)
Definition wrap_int64 (z : Z) : Z := (z + 2 ^ 63) mod 2 ^ 64 - 2 ^ 63.

Definition in_int64 (z : Z) : Prop := int64_min ≤ z ≤ int64_max.
Definition in_uint64 (z : Z) : Prop := 0 ≤ z ≤ uint64_max.

#[global] Instance in_int64_dec z : Decision (in_int64 z).
Proof. unfold in_int64. apply _. Defined.

(** [int64(u)] for [u : uint64], and [int(u)] on a 64-bit platform. *)
Definition int64_of_uint64 (u : Z) : Z := wrap_int64 u.
Definition int_of_uint64 (u : Z) : Z := wrap_int64 u.

(** [-x] and [x + y] on [int64]. *)
Definition int64_neg (x : Z) : Z := wrap_int64 (- x).
Definition int64_add (x y : Z) : Z := wrap_int64 (x + y).

(** [fmt.Sprint(i)] and the verb [%d] for an integer: its decimal numeral. *)
Definition Sprint (i : Z) : string := pretty i.

(** [strings.Split(s, sep)] for a one-character separator: the substrings
    between the separators; an empty [s] yields one empty substring. *)
Fixpoint Split (s : string) (sep : ascii) : list string :=
  match s with
  | EmptyString => [EmptyString]
  | String c s' =>
      if decide (c = sep) then EmptyString :: Split s' sep
      else match Split s' sep with
           | [] => [String c EmptyString]
           | p :: ps => String c p :: ps
           end
  end.

(** [strings.Contains(s, string(c))]. *)
Fixpoint Contains (s : string) (c : ascii) : bool :=
  match s with
  | EmptyString => false
  | String c' s' => if decide (c' = c) then true else Contains s' c
  end.

(** [rand.Intn(n)]: panics ([None]) for [n <= 0]; otherwise the value drawn,
    which lies in [0, n).  [rnd] is the randomness the generator supplies. *)
Definition Intn (rnd n : Z) : option Z :=
  if decide (n ≤ 0) then None else Some (rnd mod n).

(** The number of occurrences of [sep] in [s]. *)
Fixpoint count_sep (s : string) (sep : ascii) : nat :=
  match s with
  | EmptyString => 0
  | String c s' => (if decide (c = sep) then 1 else 0) + count_sep s' sep
  end%nat.

End Go.

Import Go.

(** ** Package [db]: stats locks and sharded stats *)

Module db.

(** The errors of the storage layer.  [NotFoundError] is the struct the code
    under study builds; the other tags are the classes its callers test
    for. *)
Inductive error :=
  | NotFoundError (Key Message : string)
  | DuplicateKeyError (Key Message : string)
  | InvalidPaginationTokenError (Message : string)
  | InvalidIdFormatError (id : string)
  | DriverError (Message : string).

(** What a call does: return, return an error, panic, or (for the model of a
    loop that need not end) exhaust its fuel. *)
Inductive outcome (A : Type) :=
  | Done (a : A)
  | Fail (e : error)
  | Panic
  | OutOfFuel.
Arguments Done {A} a.
Arguments Fail {A} e.
Arguments Panic {A}.
Arguments OutOfFuel {A}.

(** [db.cfg]: both fields are [uint64]. *)
Record Config := {
  LogicalShardCount : Z;
  DbBatchSizeLimit : Z;
}.

(** The four counters as MongoDB stores them (64-bit integers); a field a
    document lacks reads as 0. *)
Record Stats := {
  active_tvl : Z;
  total_tvl : Z;
  active_delegations : Z;
  total_delegations : Z;
}.

(** [model.OverallStatsDocument] and [model.FinalityProviderStatsDocument]
    declare the same five fields: the [_id] and four [int64] counters. *)
Record StatsDocument := {
  Id : string;
  ActiveTvl : Z;
  TotalTvl : Z;
  ActiveDelegations : Z;
  TotalDelegations : Z;
}.
Abbreviation OverallStatsDocument := StatsDocument (only parsing).
Abbreviation FinalityProviderStatsDocument := StatsDocument (only parsing).

(** [model.StatsLockDocument]: the [_id] and one boolean per stats family. *)
Record StatsLockDocument := {
  LockId : string;
  OverallStats : bool;
  StakerStats : bool;
  FinalityProviderStats : bool;
}.

Definition NewStatsLockDocument (id : string) (overall staker fp : bool)
  : StatsLockDocument :=
  {| LockId := id; OverallStats := overall; StakerStats := staker;
     FinalityProviderStats := fp |}.

Record Database := {
  cfg : Config;
  StatsLockCollection : gmap string StatsLockDocument;
  OverallStatsCollection : gmap string Stats;
  FinalityProviderStatsCollection : gmap string Stats;
}.

Definition with_StatsLock (db : Database) (c : gmap string StatsLockDocument)
  : Database :=
  {| cfg := cfg db; StatsLockCollection := c;
     OverallStatsCollection := OverallStatsCollection db;
     FinalityProviderStatsCollection := FinalityProviderStatsCollection db |}.

Definition with_OverallStats (db : Database) (c : gmap string Stats)
  : Database :=
  {| cfg := cfg db; StatsLockCollection := StatsLockCollection db;
     OverallStatsCollection := c;
     FinalityProviderStatsCollection := FinalityProviderStatsCollection db |}.

Definition with_FinalityProviderStats (db : Database) (c : gmap string Stats)
  : Database :=
  {| cfg := cfg db; StatsLockCollection := StatsLockCollection db;
     OverallStatsCollection := OverallStatsCollection db;
     FinalityProviderStatsCollection := c |}.

(** *** The environment of a call *)

(** Failures of the driver in [GetOrCreateStatsLock]: the command itself may
    fail (nothing is written), or the reply may fail to decode (the upsert
    has happened). *)
Inductive FindOneFault :=
  | NoFault
  | CommandFails (e : error)
  | DecodeFails (e : error).

(** What a stats update gets from outside: the failures of the four driver
    calls, in the order the code makes them, and the randomness of
    [rand.Intn]. *)
Record TxEnv := {
  startSessionErr : option error;
  lockUpdateErr : option error;
  statsUpdateErr : option error;
  commitErr : option error;
  rnd : Z;
}.

(** The failures of [Find] and of [cursor.All] of one query. *)
Record ReadEnv := {
  findErr : option error;
  allErr : option error;
}.

(** *** MongoDB operations the code uses *)

Definition zeroStats : Stats :=
  {| active_tvl := 0; total_tvl := 0; active_delegations := 0;
     total_delegations := 0 |}.

Definition stats_in_range (s : Stats) : Prop :=
  in_int64 (active_tvl s) ∧ in_int64 (total_tvl s) ∧
  in_int64 (active_delegations s) ∧ in_int64 (total_delegations s).

#[global] Instance stats_in_range_dec s : Decision (stats_in_range s).
Proof. unfold stats_in_range. apply _. Defined.

(** [$inc]: adds to each field; the server rejects an update that would
    overflow a 64-bit integer. *)
Definition applyInc (upd old : Stats) : option Stats :=
  let new := {| active_tvl := active_tvl old + active_tvl upd;
                total_tvl := total_tvl old + total_tvl upd;
                active_delegations :=
                  active_delegations old + active_delegations upd;
                total_delegations :=
                  total_delegations old + total_delegations upd |} in
  if decide (stats_in_range new) then Some new else None.

(** [UpdateOne(ctx, {_id: id}, {$inc: upd}, options.Update().SetUpsert(true))]:
    the document [id] is created from zeros when absent. *)
Definition UpdateOne_inc_upsert (ioErr : option error) (id : string)
    (upd : Stats) (coll : gmap string Stats)
  : outcome unit * gmap string Stats :=
  match ioErr with
  | Some e => (Fail e, coll)
  | None =>
      match applyInc upd (default zeroStats (coll !! id)) with
      | Some new => (Done (), <[id := new]> coll)
      | None =>
          (Fail (DriverError "Failed to apply $inc operations to current value"),
           coll)
      end
  end.

Definition decodeStats (id : string) (s : Stats) : StatsDocument :=
  {| Id := id; ActiveTvl := active_tvl s; TotalTvl := total_tvl s;
     ActiveDelegations := active_delegations s;
     TotalDelegations := total_delegations s |}.

(** [Find(ctx, {_id: {$in: ids}})] followed by [cursor.All]: every stored
    document whose [_id] is listed, once.  A nil slice is sent as null, which
    the server refuses for [$in]. *)
Definition Find_in (env : ReadEnv) (ids : list string)
    (coll : gmap string Stats) : outcome (list StatsDocument) :=
  match findErr env with
  | Some e => Fail e
  | None =>
      match ids with
      | [] => Fail (DriverError "$in needs an array")
      | _ =>
          match allErr env with
          | Some e => Fail e
          | None =>
              Done (omap (λ id, decodeStats id <$> coll !! id)
                      (remove_dups ids))
          end
      end
  end.

(** [session.WithTransaction(ctx, work)]: the writes of [work] are kept when
    [work] returns nil and the commit succeeds, and dropped otherwise. *)
Definition WithTransaction (commitErr : option error)
    (work : Database → outcome unit * Database) (db : Database)
  : outcome unit * Database :=
  match work db with
  | (Done _, sess) =>
      match commitErr with
      | Some e => (Fail e, db)
      | None => (Done (), sess)
      end
  | (r, _) => (r, db)
  end.

(** *** The code *)

Definition constructStatsLockId (stakingTxHashHex state : string) : string :=
  stakingTxHashHex +:+ ":" +:+ state.

(** The boolean [fieldName] of a lock document; [None] for a name the
    document has no field for. *)
Definition lock_field (fieldName : string) (d : StatsLockDocument)
  : option bool :=
  if decide (fieldName = "overall_stats") then Some (OverallStats d)
  else if decide (fieldName = "staker_stats") then Some (StakerStats d)
  else if decide (fieldName = "finality_provider_stats")
       then Some (FinalityProviderStats d)
  else None.

(** [{$set: {fieldName: true}}]. *)
Definition set_lock_field (fieldName : string) (d : StatsLockDocument)
  : StatsLockDocument :=
  if decide (fieldName = "overall_stats") then
    NewStatsLockDocument (LockId d) true (StakerStats d)
      (FinalityProviderStats d)
  else if decide (fieldName = "staker_stats") then
    NewStatsLockDocument (LockId d) (OverallStats d) true
      (FinalityProviderStats d)
  else if decide (fieldName = "finality_provider_stats") then
    NewStatsLockDocument (LockId d) (OverallStats d) (StakerStats d) true
  else d.

Definition GetOrCreateStatsLock (fault : FindOneFault)
    (stakingTxHashHex txType : string) (db : Database)
  : outcome StatsLockDocument * Database :=
  let id := constructStatsLockId stakingTxHashHex txType in
  match fault with
  | CommandFails e => (Fail e, db)
  | _ =>
      let '(result, db') :=
        match StatsLockCollection db !! id with
        | Some d => (d, db)
        | None =>
            let d := NewStatsLockDocument id false false false in
            (d, with_StatsLock db (<[id := d]> (StatsLockCollection db)))
        end in
      match fault with
      | DecodeFails e => (Fail e, db')
      | _ => (Done result, db')
      end
  end.

Definition updateStatsLockByFieldName (ioErr : option error)
    (stakingTxHashHex state fieldName : string) (db : Database)
  : outcome unit * Database :=
  let id := constructStatsLockId stakingTxHashHex state in
  match ioErr with
  | Some e => (Fail e, db)
  | None =>
      match StatsLockCollection db !! id with
      | Some d =>
          match lock_field fieldName d with
          | Some false =>
              (Done (),
               with_StatsLock db
                 (<[id := set_lock_field fieldName d]> (StatsLockCollection db)))
          | _ =>
              (Fail (NotFoundError stakingTxHashHex
                       "document already processed or does not exist"), db)
          end
      | None =>
          (Fail (NotFoundError stakingTxHashHex
                   "document already processed or does not exist"), db)
      end
  end.

Definition generateOverallStatsId (rnd : Z) (db : Database) : option string :=
  Sprint <$> Intn rnd (int_of_uint64 (LogicalShardCount (cfg db))).

Definition updateOverallStats (env : TxEnv) (state stakingTxHashHex : string)
    (upsertUpdate : Stats) (db : Database) : outcome unit * Database :=
  match startSessionErr env with
  | Some e => (Fail e, db)
  | None =>
      let transactionWork (sess : Database) : outcome unit * Database :=
        match updateStatsLockByFieldName (lockUpdateErr env) stakingTxHashHex
                state "overall_stats" sess with
        | (Done _, sess) =>
            match generateOverallStatsId (rnd env) sess with
            | None => (Panic, sess)
            | Some id =>
                let '(r, c) :=
                  UpdateOne_inc_upsert (statsUpdateErr env) id upsertUpdate
                    (OverallStatsCollection sess) in
                (r, with_OverallStats sess c)
            end
        | r => r
        end in
      WithTransaction (commitErr env) transactionWork db
  end.

(** Modelled from the spec: the [types] package is not under src; this is
    the label of the lifecycle state [types.Active], as the lock key
    [stakingTxHash:label] uses it.  No property below depends on its text. *)
Definition Active_ToString : string := "active".

(** Modelled from the spec: the label of the lifecycle state
    [types.Unbonded], which marks the transition from active to unbonded. *)
Definition Unbonded_ToString : string := "unbonded".

Definition IncrementOverallStats (env : TxEnv) (stakingTxHashHex : string)
    (amount : Z) (db : Database) : outcome unit * Database :=
  let upsertUpdate :=
    {| active_tvl := int64_of_uint64 amount;
       total_tvl := int64_of_uint64 amount;
       active_delegations := 1;
       total_delegations := 1 |} in
  updateOverallStats env Active_ToString stakingTxHashHex upsertUpdate db.

Definition SubtractOverallStats (env : TxEnv) (stakingTxHashHex : string)
    (amount : Z) (db : Database) : outcome unit * Database :=
  let upsertUpdate :=
    {| active_tvl := int64_neg (int64_of_uint64 amount);
       total_tvl := 0;
       active_delegations := -1;
       total_delegations := 0 |} in
  updateOverallStats env Unbonded_ToString stakingTxHashHex upsertUpdate db.

Definition zeroDocument : StatsDocument :=
  {| Id := ""; ActiveTvl := 0; TotalTvl := 0; ActiveDelegations := 0;
     TotalDelegations := 0 |}.

(** [result.X += stats.X] for the four counters. *)
Definition addCounters (result stats : StatsDocument) : StatsDocument :=
  {| Id := Id result;
     ActiveTvl := int64_add (ActiveTvl result) (ActiveTvl stats);
     TotalTvl := int64_add (TotalTvl result) (TotalTvl stats);
     ActiveDelegations :=
       int64_add (ActiveDelegations result) (ActiveDelegations stats);
     TotalDelegations :=
       int64_add (TotalDelegations result) (TotalDelegations stats) |}.

Definition overallShardsId (db : Database) : list string :=
  Sprint <$> seqZ 0 (int_of_uint64 (LogicalShardCount (cfg db))).

Definition GetOverallStats (env : ReadEnv) (db : Database)
  : outcome OverallStatsDocument :=
  let shardsId := overallShardsId db in
  match Find_in env shardsId (OverallStatsCollection db) with
  | Done overallStats => Done (foldl addCounters zeroDocument overallStats)
  | Fail e => Fail e
  | Panic => Panic
  | OutOfFuel => OutOfFuel
  end.

(** [rand.Intn] returns an [int]; [uint64(...)] of it changes nothing, as it
    is not negative. *)
Definition generateFinalityProviderStatsId (rnd : Z)
    (finalityProviderPkHex : string) (db : Database) : option string :=
  (λ randomShardNum, finalityProviderPkHex +:+ ":" +:+ Sprint randomShardNum)
    <$> Intn rnd (int_of_uint64 (LogicalShardCount (cfg db))).

Definition updateFinalityProviderStats (env : TxEnv)
    (state stakingTxHashHex fpPkHex : string) (upsertUpdate : Stats)
    (db : Database) : outcome unit * Database :=
  match startSessionErr env with
  | Some e => (Fail e, db)
  | None =>
      let transactionWork (sess : Database) : outcome unit * Database :=
        match updateStatsLockByFieldName (lockUpdateErr env) stakingTxHashHex
                state "finality_provider_stats" sess with
        | (Done _, sess) =>
            match generateFinalityProviderStatsId (rnd env) fpPkHex sess with
            | None => (Panic, sess)
            | Some id =>
                let '(r, c) :=
                  UpdateOne_inc_upsert (statsUpdateErr env) id upsertUpdate
                    (FinalityProviderStatsCollection sess) in
                (r, with_FinalityProviderStats sess c)
            end
        | r => r
        end in
      WithTransaction (commitErr env) transactionWork db
  end.

Definition IncrementFinalityProviderStats (env : TxEnv)
    (stakingTxHashHex fpPkHex : string) (amount : Z) (db : Database)
  : outcome unit * Database :=
  let upsertUpdate :=
    {| active_tvl := int64_of_uint64 amount;
       total_tvl := int64_of_uint64 amount;
       active_delegations := 1;
       total_delegations := 1 |} in
  updateFinalityProviderStats env Active_ToString stakingTxHashHex fpPkHex
    upsertUpdate db.

Definition SubtractFinalityProviderStats (env : TxEnv)
    (stakingTxHashHex fpPkHex : string) (amount : Z) (db : Database)
  : outcome unit * Database :=
  let upsertUpdate :=
    {| active_tvl := int64_neg (int64_of_uint64 amount);
       total_tvl := 0;
       active_delegations := -1;
       total_delegations := 0 |} in
  updateFinalityProviderStats env Unbonded_ToString stakingTxHashHex fpPkHex
    upsertUpdate db.

Definition extractFinalityProviderPkHexFromStatsId (id : string)
  : outcome string :=
  let parts := Split id ":" in
  if decide (length parts ≠ 2%nat) then Fail (InvalidIdFormatError id)
  else Done (default "" (head parts)).

Definition getAllShardedFinalityProviderId (finalityProviderPkHex : list string)
    (db : Database) : list string :=
  finalityProviderPkHex ≫= λ fpPkHex,
    (λ i, fpPkHex +:+ ":" +:+ Sprint i)
      <$> seqZ 0 (int_of_uint64 (LogicalShardCount (cfg db))).

(** The inner loop of [FindFinalityProviderStatsByPkHex]: adds each fetched
    shard to the entry of its provider. *)
Fixpoint sumShards (shardedFinalityProvidersStats : list StatsDocument)
    (finalityProvidersMap : gmap string StatsDocument)
  : outcome (gmap string StatsDocument) :=
  match shardedFinalityProvidersStats with
  | [] => Done finalityProvidersMap
  | fp :: rest =>
      match extractFinalityProviderPkHexFromStatsId (Id fp) with
      | Done fpPkHex =>
          match finalityProvidersMap !! fpPkHex with
          | Some existingFp =>
              sumShards rest
                (<[fpPkHex := addCounters existingFp fp]> finalityProvidersMap)
          | None =>
              sumShards rest
                (<[fpPkHex :=
                     {| Id := ""; ActiveTvl := ActiveTvl fp;
                        TotalTvl := TotalTvl fp;
                        ActiveDelegations := ActiveDelegations fp;
                        TotalDelegations := TotalDelegations fp |}]>
                   finalityProvidersMap)
          end
      | Fail e => Fail e
      | Panic => Panic
      | OutOfFuel => OutOfFuel
      end
  end.

(** The batch loop, from index [i] on.  [env i] is the environment of the
    query of the batch that starts at [i].  The slice [pkHex[i:end]] panics
    when [end < i].  The indices are Go [int]s; no addition here can leave
    the 64-bit range, since [i] is below the length of a slice and, once
    positive, at least [batchSize].  The loop need not end (a batch size of
    0), so the model has fuel. *)
Fixpoint batchLoop (fuel : nat) (env : Z → ReadEnv) (batchSize : Z)
    (pkHex : list string) (db : Database) (i : Z)
    (finalityProvidersMap : gmap string StatsDocument)
  : outcome (gmap string StatsDocument) :=
  match fuel with
  | O => OutOfFuel
  | S fuel =>
      if decide (i < Z.of_nat (length pkHex)) then
        let end_ := i + batchSize in
        let end_ :=
          if decide (end_ > Z.of_nat (length pkHex))
          then Z.of_nat (length pkHex) else end_ in
        if decide (end_ < i) then Panic
        else
          let batch := take (Z.to_nat (end_ - i)) (drop (Z.to_nat i) pkHex) in
          match Find_in (env i) (getAllShardedFinalityProviderId batch db)
                  (FinalityProviderStatsCollection db) with
          | Done shardedFinalityProvidersStats =>
              match sumShards shardedFinalityProvidersStats
                      finalityProvidersMap with
              | Done finalityProvidersMap =>
                  batchLoop fuel env batchSize pkHex db (i + batchSize)
                    finalityProvidersMap
              | r => r
              end
          | Fail e => Fail e
          | Panic => Panic
          | OutOfFuel => OutOfFuel
          end
      else Done finalityProvidersMap
  end.

(** With a batch size of at least 1 the loop makes at most [len(pkHex)]
    queries, so this fuel is never exhausted (lemma [batchLoop_fuel]). *)
Definition FindFinalityProviderStatsByPkHex (env : Z → ReadEnv)
    (pkHex : list string) (db : Database)
  : outcome (gmap string FinalityProviderStatsDocument) :=
  let batchSize := int_of_uint64 (DbBatchSizeLimit (cfg db)) in
  batchLoop (S (length pkHex)) env batchSize pkHex db 0 ∅.

(** *** Sequences of calls *)

Inductive call :=
  | CallGetOrCreateStatsLock (fault : FindOneFault)
      (stakingTxHashHex txType : string)
  | CallIncrementOverallStats (env : TxEnv) (stakingTxHashHex : string)
      (amount : Z)
  | CallSubtractOverallStats (env : TxEnv) (stakingTxHashHex : string)
      (amount : Z)
  | CallIncrementFinalityProviderStats (env : TxEnv)
      (stakingTxHashHex fpPkHex : string) (amount : Z)
  | CallSubtractFinalityProviderStats (env : TxEnv)
      (stakingTxHashHex fpPkHex : string) (amount : Z).

Definition returned {A} (r : outcome A) : bool :=
  match r with Done _ => true | _ => false end.

(** One call: whether it returned nil, and the database it leaves. *)
Definition exec (c : call) (db : Database) : bool * Database :=
  match c with
  | CallGetOrCreateStatsLock fault h t =>
      let '(r, db') := GetOrCreateStatsLock fault h t db in (returned r, db')
  | CallIncrementOverallStats env h a =>
      let '(r, db') := IncrementOverallStats env h a db in (returned r, db')
  | CallSubtractOverallStats env h a =>
      let '(r, db') := SubtractOverallStats env h a db in (returned r, db')
  | CallIncrementFinalityProviderStats env h pk a =>
      let '(r, db') := IncrementFinalityProviderStats env h pk a db in
      (returned r, db')
  | CallSubtractFinalityProviderStats env h pk a =>
      let '(r, db') := SubtractFinalityProviderStats env h pk a db in
      (returned r, db')
  end.

(** The calls in order: whether all of them returned nil, and the final
    database. *)
Fixpoint execAll (cs : list call) (db : Database) : bool * Database :=
  match cs with
  | [] => (true, db)
  | c :: cs =>
      let '(ok, db1) := exec c db in
      let '(oks, db2) := execAll cs db1 in
      (ok && oks, db2)
  end.

(** The logical value of a counter of the overall stats: the sum over the
    shard keys [0 .. LogicalShardCount-1]. *)
Definition sumZ (l : list Z) : Z := foldr Z.add 0 l.

Definition shardStats (coll : gmap string Stats) (id : string) : Stats :=
  default zeroStats (coll !! id).

Definition overallTotal (f : Stats → Z) (db : Database) : Z :=
  sumZ ((λ id, f (shardStats (OverallStatsCollection db) id))
          <$> overallShardsId db).

(** The shard keys of one finality provider, and the logical value of one of
    its counters. *)
Definition providerShardsId (pk : string) (db : Database) : list string :=
  (λ i, pk +:+ ":" +:+ Sprint i)
    <$> seqZ 0 (int_of_uint64 (LogicalShardCount (cfg db))).

Definition providerTotal (f : Stats → Z) (pk : string) (db : Database) : Z :=
  sumZ ((λ id, f (shardStats (FinalityProviderStatsCollection db) id))
          <$> providerShardsId pk db).

Definition providerHasShard (pk : string) (db : Database) : bool :=
  bool_decide (Exists (λ id, is_Some (FinalityProviderStatsCollection db !! id))
                 (providerShardsId pk db)).

(** What the per-provider read is to return for [pk]: nothing when no shard
    of [pk] is stored, else the four sums as [int64]s. *)
Definition providerSummed (pk : string) (db : Database)
  : option FinalityProviderStatsDocument :=
  if providerHasShard pk db then
    Some {| Id := "";
            ActiveTvl := wrap_int64 (providerTotal active_tvl pk db);
            TotalTvl := wrap_int64 (providerTotal total_tvl pk db);
            ActiveDelegations :=
              wrap_int64 (providerTotal active_delegations pk db);
            TotalDelegations :=
              wrap_int64 (providerTotal total_delegations pk db) |}
  else None.

(** Every stored counter is a 64-bit integer. *)
Definition collection_in_range (coll : gmap string Stats) : Prop :=
  map_Forall (λ _ s, stats_in_range s) coll.

(** What a stats update leaves when it returns nil: the lock flipped and the
    increments added to one shard. *)
Definition applied (fieldName lockId shardId : string) (upd : Stats)
    (locks locks' : gmap string StatsLockDocument)
    (coll coll' : gmap string Stats) : Prop :=
  ∃ d new,
    locks !! lockId = Some d ∧
    lock_field fieldName d = Some false ∧
    locks' = <[lockId := set_lock_field fieldName d]> locks ∧
    applyInc upd (shardStats coll shardId) = Some new ∧
    coll' = <[shardId := new]> coll.

(** The boolean of a stats family on the lock record of a transaction and a
    lifecycle state; [None] when there is no such record or field. *)
Definition lock_state (fieldName stakingTxHashHex state : string)
    (db : Database) : option bool :=
  StatsLockCollection db !! constructStatsLockId stakingTxHashHex state
    ≫= lock_field fieldName.


(** A lock record compared with a later one: the same id, and every boolean
    that was true still true. *)
Definition lock_le (d d' : StatsLockDocument) : Prop :=
  LockId d' = LockId d ∧
  (OverallStats d = true → OverallStats d' = true) ∧
  (StakerStats d = true → StakerStats d' = true) ∧
  (FinalityProviderStats d = true → FinalityProviderStats d' = true).

(** Every lock record of [locks] is still in [locks'], with no boolean
    reverted. *)
Definition locks_le (locks locks' : gmap string StatsLockDocument) : Prop :=
  ∀ id d, locks !! id = Some d → ∃ d', locks' !! id = Some d' ∧ lock_le d d'.

(** [N] calls of [IncrementOverallStats] and [M] calls of
    [SubtractOverallStats], each with amount [v]; every call has its own
    environment and staking transaction. *)
Definition incrementCalls (v : Z) (incs : list (TxEnv * string)) : list call :=
  (λ eh, CallIncrementOverallStats eh.1 eh.2 v) <$> incs.

Definition subtractCalls (v : Z) (decs : list (TxEnv * string)) : list call :=
  (λ eh, CallSubtractOverallStats eh.1 eh.2 v) <$> decs.

(** The stored shard documents of one finality provider, in shard order. *)
Definition shardDocs (pk : string) (db : Database) : list StatsDocument :=
  omap (λ id, decodeStats id <$> FinalityProviderStatsCollection db !! id)
    (providerShardsId pk db).

(** The provider a fetched document belongs to. *)
Definition keyOf (fp : StatsDocument) : string :=
  match extractFinalityProviderPkHexFromStatsId (Id fp) with
  | Done fpPkHex => fpPkHex
  | _ => ""
  end.

(** The entry of one provider while the documents [fps] of that provider are
    added to it: the first one starts the entry, the others are added. *)
Definition accumulate (entry : option StatsDocument) (fps : list StatsDocument)
  : option StatsDocument :=
  foldl (λ entry fp,
           Some match entry with
                | Some existingFp => addCounters existingFp fp
                | None =>
                    {| Id := ""; ActiveTvl := ActiveTvl fp;
                       TotalTvl := TotalTvl fp;
                       ActiveDelegations := ActiveDelegations fp;
                       TotalDelegations := TotalDelegations fp |}
                end)
    entry fps.

(** The requested providers have no colon in their key. *)
Definition colon_free (pkHex : list string) : Prop :=
  Forall (λ pk, Contains pk ":" = false) pkHex.

(** No read of the batches fails in the driver. *)
Definition no_read_faults (env : Z → ReadEnv) : Prop :=
  ∀ i, findErr (env i) = None ∧ allErr (env i) = None.

(** The same database under another batch size limit. *)
Definition with_DbBatchSizeLimit (db : Database) (limit : Z) : Database :=
  {| cfg := {| LogicalShardCount := LogicalShardCount (cfg db);
               DbBatchSizeLimit := limit |};
     StatsLockCollection := StatsLockCollection db;
     OverallStatsCollection := OverallStatsCollection db;
     FinalityProviderStatsCollection := FinalityProviderStatsCollection db |}.

(** The same database under another number of logical shards. *)
Definition with_LogicalShardCount (db : Database) (count : Z) : Database :=
  {| cfg := {| LogicalShardCount := count;
               DbBatchSizeLimit := DbBatchSizeLimit (cfg db) |};
     StatsLockCollection := StatsLockCollection db;
     OverallStatsCollection := OverallStatsCollection db;
     FinalityProviderStatsCollection := FinalityProviderStatsCollection db |}.

(** What a call adds to the counters of the finality provider [pk] when it
    returns nil: the increments of [IncrementFinalityProviderStats] and of
    [SubtractFinalityProviderStats] for that provider, nothing otherwise. *)
Definition providerDelta (pk : string) (c : call) : Stats :=
  match c with
  | CallIncrementFinalityProviderStats _ _ fpPkHex amount =>
      if decide (fpPkHex = pk) then
        {| active_tvl := int64_of_uint64 amount;
           total_tvl := int64_of_uint64 amount;
           active_delegations := 1;
           total_delegations := 1 |}
      else zeroStats
  | CallSubtractFinalityProviderStats _ _ fpPkHex amount =>
      if decide (fpPkHex = pk) then
        {| active_tvl := int64_neg (int64_of_uint64 amount);
           total_tvl := 0;
           active_delegations := -1;
           total_delegations := 0 |}
      else zeroStats
  | _ => zeroStats
  end.

(** Whether a call is a stats update of the finality provider [pk]. *)
Definition updatesProvider (pk : string) (c : call) : bool :=
  match c with
  | CallIncrementFinalityProviderStats _ _ fpPkHex _
  | CallSubtractFinalityProviderStats _ _ fpPkHex _ =>
      bool_decide (fpPkHex = pk)
  | _ => false
  end.

(** The net amount the calls add to one counter of the provider [pk]. *)
Definition providerNet (f : Stats → Z) (pk : string) (cs : list call) : Z :=
  sumZ ((λ c, f (providerDelta pk c)) <$> cs).

(** The counters [$inc] adds to. *)
Definition additive (f : Stats → Z) : Prop :=
  f zeroStats = 0 ∧
  ∀ upd old new, applyInc upd old = Some new → f new = f old + f upd.

End db.

(** ** Package [types]: errors the service returns *)

Module types.

(** Modelled from the spec: the [types] package is not under src.  An
    [Error] carries the HTTP status, the error code and the cause; the cause
    is a wrapped storage error or a message. *)
Inductive ErrorCode :=
  | BadRequest
  | NotFound
  | Forbidden
  | InternalServiceError.

Inductive cause (E : Type) :=
  | Wrapped (err : E)
  | Message (msg : string).
Arguments Wrapped {E} err.
Arguments Message {E} msg.

Record Error (E : Type) := {
  StatusCode : Z;
  Code : ErrorCode;
  Err : cause E;
}.
Arguments StatusCode {E} _.
Arguments Code {E} _.
Arguments Err {E} _.

(** The constants of [net/http] the service uses. *)
Definition StatusBadRequest : Z := 400.
Definition StatusNotFound : Z := 404.
Definition StatusInternalServerError : Z := 500.

(** Modelled from the spec: [types.NewError] is not under src; it builds the
    error from its three arguments. *)
Definition NewError {E} (statusCode : Z) (errorCode : ErrorCode) (err : E)
  : Error E :=
  {| StatusCode := statusCode; Code := errorCode; Err := Wrapped err |}.

(** Modelled from the spec: [types.NewErrorWithMsg] is not under src; the
    cause is the message. *)
Definition NewErrorWithMsg {E} (statusCode : Z) (errorCode : ErrorCode)
    (msg : string) : Error E :=
  {| StatusCode := statusCode; Code := errorCode; Err := Message msg |}.

(** Modelled from the spec: [types.NewInternalServiceError] is not under src;
    it is the error of the internal-service class, which is not a client
    error. *)
Definition NewInternalServiceError {E} (err : E) : Error E :=
  NewError StatusInternalServerError InternalServiceError err.

(** [types.DelegationState] is a string type; [ToString] is the conversion. *)
Definition DelegationState := string.
Definition ToString (s : DelegationState) : string := s.

End types.

(** ** Package [v1model] and the storage client the service calls *)

Module v1model.

(** The model package is not under src; the fields are those the service
    reads.  The staking transaction always exists, the unbonding one is there
    once an unbonding path is taken. *)
Record TimelockTransaction := {
  TxHex : string;
  OutputIndex : Z;
  StartTimestamp : Z;
  StartHeight : Z;
  TimeLock : Z;
}.

Record DelegationDocument := {
  StakingTxHashHex : string;
  StakerPkHex : string;
  FinalityProviderPkHex : string;
  StakingValue : Z;
  State : types.DelegationState;
  StakingTx : TimelockTransaction;
  UnbondingTx : option TimelockTransaction;
  IsOverflow : bool;
}.

End v1model.

Module v1dbclient.

Import v1model.

Record DelegationFilter := {
  AfterTimestamp : Z;
  States : list types.DelegationState;
}.

(** [&DelegationFilter{}]. *)
Definition emptyFilter : DelegationFilter :=
  {| AfterTimestamp := 0; States := [] |}.

(** [db.DbResultMap[DelegationDocument]]. *)
Record DbResultMap := {
  Data : list DelegationDocument;
  PaginationToken : string;
}.

(** The arguments of [SaveActiveStakingDelegation], in the order of the
    client's method. *)
Record ActiveStakingArgs := {
  arg_txHashHex : string;
  arg_stakerPkHex : string;
  arg_finalityProviderPkHex : string;
  arg_stakingTxHex : string;
  arg_value : Z;
  arg_startHeight : Z;
  arg_timeLock : Z;
  arg_stakingOutputIndex : Z;
  arg_stakingTimestamp : Z;
  arg_isOverflow : bool;
}.

(** The interface [V1DBClient], as far as the service under study calls it,
    over a store [S] and its errors [E].  A Go result pair (value, err) is a
    sum; a method that writes returns the store it leaves. *)
Class V1DBClient (S E : Type) := {
  FindDelegationsByStakerPk :
    S → string → DelegationFilter → string → DbResultMap + E;
  SaveActiveStakingDelegation : S → ActiveStakingArgs → option E * S;
  FindDelegationByTxHashHex : S → string → DelegationDocument + E;
}.

(** The classifiers of package [db] ([db.IsNotFoundError] and the like),
    which are not under src. *)
Class ErrorClass (E : Type) := {
  IsNotFoundError : E → bool;
  IsDuplicateKeyError : E → bool;
  IsInvalidPaginationTokenError : E → bool;
}.

End v1dbclient.

(** ** Package [v1service]: [internal/v1/service/delegation.go] *)

Module v1service.

Import v1model v1dbclient types.

Record TransactionPublic := {
  pub_TxHex : string;
  pub_OutputIndex : Z;
  pub_StartTimestamp : string;
  pub_StartHeight : Z;
  pub_TimeLock : Z;
}.

Record DelegationPublic := {
  pub_StakingTxHashHex : string;
  pub_StakerPkHex : string;
  pub_FinalityProviderPkHex : string;
  pub_State : string;
  pub_StakingValue : Z;
  pub_StakingTx : TransactionPublic;
  pub_UnbondingTx : option TransactionPublic;
  pub_IsOverflow : bool;
}.

Section service.

Context {S E : Type} `{!V1DBClient S E} `{!ErrorClass E}.

(** [utils.ParseTimestampToIsoFormat], which is not under src. *)
Variable ParseTimestampToIsoFormat : Z → string.

Definition FromTransaction (t : TimelockTransaction) : TransactionPublic :=
  {| pub_TxHex := TxHex t;
     pub_OutputIndex := OutputIndex t;
     pub_StartTimestamp := ParseTimestampToIsoFormat (StartTimestamp t);
     pub_StartHeight := StartHeight t;
     pub_TimeLock := TimeLock t |}.

Definition FromDelegationDocument (d : DelegationDocument) : DelegationPublic :=
  {| pub_StakingTxHashHex := StakingTxHashHex d;
     pub_StakerPkHex := StakerPkHex d;
     pub_FinalityProviderPkHex := FinalityProviderPkHex d;
     pub_StakingValue := StakingValue d;
     pub_State := ToString (State d);
     pub_StakingTx := FromTransaction (StakingTx d);
     pub_UnbondingTx :=
       match UnbondingTx d with
       | Some u =>
           if decide (TxHex u ≠ "") then Some (FromTransaction u) else None
       | None => None
       end;
     pub_IsOverflow := IsOverflow d |}.

(** The three results of the Go function: the slice ([None] is the nil
    slice), the continuation token and the error ([None] is nil). *)
Definition DelegationsByStakerPk (s : S) (stakerPk : string)
    (state : DelegationState) (pageToken : string)
  : option (list DelegationPublic) * string * option (Error E) :=
  let filter :=
    if decide (state ≠ "")
    then {| AfterTimestamp := 0; States := [state] |}
    else emptyFilter in
  match FindDelegationsByStakerPk s stakerPk filter pageToken with
  | inr err =>
      if IsInvalidPaginationTokenError err
      then (None, "", Some (NewError StatusBadRequest BadRequest err))
      else (None, "", Some (NewInternalServiceError err))
  | inl resultMap =>
      (Some (FromDelegationDocument <$> Data resultMap),
       PaginationToken resultMap, None)
  end.

Definition SaveActiveStakingDelegation (s : S) (txHashHex stakerPkHex
    finalityProviderPkHex : string) (value startHeight stakingTimestamp
    timeLock stakingOutputIndex : Z) (stakingTxHex : string)
    (isOverflow : bool) : option (Error E) * S :=
  let '(err, s') :=
    v1dbclient.SaveActiveStakingDelegation s
      {| arg_txHashHex := txHashHex; arg_stakerPkHex := stakerPkHex;
         arg_finalityProviderPkHex := finalityProviderPkHex;
         arg_stakingTxHex := stakingTxHex; arg_value := value;
         arg_startHeight := startHeight; arg_timeLock := timeLock;
         arg_stakingOutputIndex := stakingOutputIndex;
         arg_stakingTimestamp := stakingTimestamp;
         arg_isOverflow := isOverflow |} in
  match err with
  | Some err =>
      if IsDuplicateKeyError err then (None, s')
      else (Some (NewInternalServiceError err), s')
  | None => (None, s')
  end.

Definition GetDelegation (s : S) (txHashHex : string)
  : DelegationDocument + Error E :=
  match FindDelegationByTxHashHex s txHashHex with
  | inr err =>
      if IsNotFoundError err
      then inr (NewErrorWithMsg StatusNotFound NotFound
                  "staking delegation not found, please retry")
      else inr (NewInternalServiceError err)
  | inl delegation => inl delegation
  end.

(** [findDelegation] is the client's [FindDelegationByTxHashHex] as Go
    types it, a pointer to a document and an error: with a nil error the
    pointer may still be nil, which is [inl None].  The function tests the
    pointer for nil, so it is modelled over this result. *)
Definition IsDelegationPresent
    (findDelegation : S → string → option DelegationDocument + E)
    (s : S) (txHashHex : string) : bool * option (Error E) :=
  match findDelegation s txHashHex with
  | inr err =>
      if IsNotFoundError err then (false, None)
      else (false, Some (NewInternalServiceError err))
  | inl (Some delegation) => (true, None)
  | inl None => (false, None)
  end.

End service.

End v1service.

(** ** Package [v1handlers]: [internal/v1/api/handlers/delegation.go] *)

Module v1handlers.

Import v1model v1dbclient types.

Section handlers.

Context {S E : Type} `{!V1DBClient S E} `{!ErrorClass E}.

(** From packages that are not under src: the request, the result the
    handler wraps the answer in, and the parser of the query parameter. *)
Context {Request Result : Type}.
Variable ParseTimestampToIsoFormat : Z → string.
Variable ParseTxHashQuery : Request → string → string + Error E.
Variable NewResult : v1service.DelegationPublic → Result.

Definition GetDelegationByTxHash (s : S) (request : Request)
  : Result + Error E :=
  match ParseTxHashQuery request "staking_tx_hash_hex" with
  | inr err => inr err
  | inl stakingTxHash =>
      match v1service.GetDelegation s stakingTxHash with
      | inr err => inr err
      | inl delegation =>
          inl (NewResult
                 (v1service.FromDelegationDocument ParseTimestampToIsoFormat
                    delegation))
      end
  end.

End handlers.

End v1handlers.

(** ** An in-memory Delegation Store *)

Module memstore.

Import v1model v1dbclient.

(** Modelled from the spec: the classifiers [db.IsNotFoundError],
    [db.IsDuplicateKeyError] and [db.IsInvalidPaginationTokenError] are not
    under src.  The storage layer returns a closed set of tagged outcomes
    (section 9), and a classifier tests the tag. *)
#[global] Instance db_error_class : ErrorClass db.error := {|
  IsNotFoundError e :=
    match e with db.NotFoundError _ _ => true | _ => false end;
  IsDuplicateKeyError e :=
    match e with db.DuplicateKeyError _ _ => true | _ => false end;
  IsInvalidPaginationTokenError e :=
    match e with db.InvalidPaginationTokenError _ => true | _ => false end;
|}.

Definition newDelegation (a : ActiveStakingArgs) : DelegationDocument :=
  {| StakingTxHashHex := arg_txHashHex a;
     StakerPkHex := arg_stakerPkHex a;
     FinalityProviderPkHex := arg_finalityProviderPkHex a;
     StakingValue := arg_value a;
     State := db.Active_ToString;
     StakingTx :=
       {| TxHex := arg_stakingTxHex a;
          OutputIndex := arg_stakingOutputIndex a;
          StartTimestamp := arg_stakingTimestamp a;
          StartHeight := arg_startHeight a;
          TimeLock := arg_timeLock a |};
     UnbondingTx := None;
     IsOverflow := arg_isOverflow a |}.

(** Modelled from the spec: the storage client of the delegations is not
    under src.  [createActive] inserts a document if its hash is absent and
    signals a duplicate otherwise, leaving the store as it is (section
    4.1). *)
Definition createActive (s : gmap string DelegationDocument)
    (a : ActiveStakingArgs) : option db.error * gmap string DelegationDocument :=
  match s !! arg_txHashHex a with
  | Some _ =>
      (Some (db.DuplicateKeyError (arg_txHashHex a) "delegation already exists"),
       s)
  | None => (None, <[arg_txHashHex a := newDelegation a]> s)
  end.

(** Modelled from the spec: [findByHash] is a point lookup that signals
    not-found if the document is absent (section 4.1). *)
Definition findByHash (s : gmap string DelegationDocument) (hash : string)
  : DelegationDocument + db.error :=
  match s !! hash with
  | Some d => inl d
  | None => inr (db.NotFoundError hash "delegation not found")
  end.

Definition matchesFilter (staker : string) (f : DelegationFilter)
    (d : DelegationDocument) : bool :=
  bool_decide (StakerPkHex d = staker) &&
  (bool_decide (States f = []) || bool_decide (State d ∈ States f)).

(** Modelled from the spec: [findByStakerPk] returns a page and a
    continuation cursor, and signals invalid-cursor for a cursor that does
    not validate (section 4.1).  This store serves every listing in one page,
    so the empty cursor is the only valid one and no cursor is handed out. *)
Definition findByStakerPk (s : gmap string DelegationDocument)
    (staker : string) (f : DelegationFilter) (cursor : string)
  : DbResultMap + db.error :=
  if decide (cursor = "") then
    inl {| Data := filter (λ d, matchesFilter staker f d = true)
                     (snd <$> map_to_list s);
           PaginationToken := "" |}
  else inr (db.InvalidPaginationTokenError "invalid pagination token").

#[global] Instance client
  : V1DBClient (gmap string DelegationDocument) db.error := {|
  FindDelegationsByStakerPk := findByStakerPk;
  SaveActiveStakingDelegation := createActive;
  FindDelegationByTxHashHex := findByHash;
|}.

End memstore.

(** ** The event processor for expiry and withdrawal *)

Module processor.

(** Modelled from the spec: the queue handlers are not under src (only their
    tests are).  The states and the rows of the transition table of section
    4.2 for the Timelock-expired and Withdraw events; a transition attempted
    from a state the table does not list is an invariant violation (section
    7): fatal, nothing is changed. *)
Inductive LifecycleState :=
  | Active
  | UnbondingRequested
  | Unbonded
  | Withdrawn.

#[global] Instance LifecycleState_eq_dec : EqDecision LifecycleState.
Proof. solve_decision. Defined.

Inductive TxType :=
  | ActiveTxType
  | UnbondingTxType.

Inductive Event :=
  | TimelockExpired (txType : TxType)
  | Withdraw.

(** What the processor tells the transport. *)
Inductive Signal :=
  | Ack
  | Redeliver
  | Fatal.

#[global] Instance Signal_eq_dec : EqDecision Signal.
Proof. solve_decision. Defined.

Record Document := {
  StakingTxHashHex : string;
  StakingValue : Z;
  HasUnbondingTx : bool;
  State : LifecycleState;
}.

#[global] Instance Document_eq_dec : EqDecision Document.
Proof. solve_decision. Defined.

Definition setState (d : Document) (newState : LifecycleState) : Document :=
  {| StakingTxHashHex := StakingTxHashHex d;
     StakingValue := StakingValue d;
     HasUnbondingTx := HasUnbondingTx d;
     State := newState |}.

(** Modelled from the spec: one event processed against the document, by the
    transition table of section 4.2. *)
Definition processEvent (e : Event) (d : Document) : Document * Signal :=
  match e with
  | TimelockExpired ActiveTxType =>
      match State d with
      | Active => (setState d Unbonded, Ack)
      | Unbonded | Withdrawn => (d, Ack)
      | UnbondingRequested => (d, Fatal)
      end
  | TimelockExpired UnbondingTxType =>
      match State d with
      | UnbondingRequested => (setState d Unbonded, Ack)
      | Active =>
          if HasUnbondingTx d then (setState d Unbonded, Ack) else (d, Fatal)
      | Unbonded | Withdrawn => (d, Ack)
      end
  | Withdraw =>
      match State d with
      | Unbonded => (setState d Withdrawn, Ack)
      | Active | UnbondingRequested => (d, Redeliver)
      | Withdrawn => (d, Ack)
      end
  end.

(** The events in order: the final document, the signals, and the number of
    events that changed the document. *)
Fixpoint processAll (es : list Event) (d : Document)
  : Document * list Signal * nat :=
  match es with
  | [] => (d, [], 0%nat)
  | e :: es =>
      let '(d1, sig) := processEvent e d in
      let '(d2, sigs, n) := processAll es d1 in
      (d2, sig :: sigs, if decide (d1 = d) then n else S n)
  end.

End processor.


(** ** Package [testutils]: [tests/testutils/datagen.go] *)

Module testutils.

Definition letters : string :=
  "abcdefghijklmnopqrstuvwxyzABCDEFGHIJKLMNOPQRSTUVWXYZ0123456789".

(** What a helper does: return, panic, or end the process through
    [log.Fatalf]. *)
Inductive run (A : Type) :=
  | Returned (a : A)
  | Panicked
  | Exited.
Arguments Returned {A} a.
Arguments Panicked {A}.
Arguments Exited {A}.

(** [r.Int()] and [rand.Int()]: a non-negative 63-bit integer; [raw] is the
    randomness the generator supplies. *)
Definition Int (raw : Z) : Z := raw mod 2 ^ 63.

(** [x - y] on [int64], and [uint64(x)] for an [int] or [int64]. *)
Definition int64_sub (x y : Z) : Z := wrap_int64 (x - y).
Definition uint64_of_int (x : Z) : Z := x mod 2 ^ 64.

(** [s[i]] for a Go string, [None] being the panic of an index out of
    range. *)
Definition index (s : string) (i : Z) : option ascii :=
  if decide (i < 0) then None else String.get (Z.to_nat i) s.

(** [None] is the panic of [r.Intn] for a [max] that is not positive. *)
Definition RandomPositiveInt (raw max : Z) : option Z :=
  (λ n, int64_add n 1) <$> Intn raw max.

(** The loop of [RandomString] from position [i] on, [count] bytes to go;
    [ints i] is the randomness of the [i]-th call of [r.Int()]. *)
Fixpoint fillString (ints : nat → Z) (i count : nat) : option string :=
  match count with
  | O => Some EmptyString
  | S count =>
      let letterLen := Z.of_nat (String.length letters) in
      let num := Z.rem (Int (ints i)) letterLen in
      match index letters num with
      | None => None
      | Some c =>
          match fillString ints (S i) count with
          | None => None
          | Some rest => Some (String c rest)
          end
      end
  end.

(** [make([]byte, n)] panics for a negative [n]. *)
Definition RandomString (ints : nat → Z) (n : Z) : option string :=
  if decide (n < 0) then None else fillString ints 0 (Z.to_nat n).

(** [rand.Int63n(n)] panics for [n <= 0], as [rand.Intn] does; [None] is
    the panic. *)
Definition GenerateRandomTimestamp (timeNow raw : Z)
    (afterTimestamp beforeTimestamp : Z) : option Z :=
  if decide (beforeTimestamp = 0 ∧ afterTimestamp = 0) then Some timeNow
  else if decide (beforeTimestamp = 0) then
    (λ n, int64_add afterTimestamp n)
      <$> Intn raw (int64_sub timeNow afterTimestamp)
  else if decide (afterTimestamp = 0) then
    let sixMonthsInSeconds := 6 * 30 * 24 * 60 * 60 in
    (λ n, int64_sub beforeTimestamp n) <$> Intn raw sixMonthsInSeconds
  else
    (λ n, int64_add afterTimestamp n)
      <$> Intn raw (int64_sub beforeTimestamp afterTimestamp).

(** The loop of [GeneratePks] from the [i]-th key on; [randomPk i] is what
    the [i]-th call of [RandomPk] returns, [None] for an error. *)
Fixpoint GeneratePks_from (randomPk : nat → option string) (i count : nat)
  : run (list string) :=
  match count with
  | O => Returned []
  | S count =>
      match randomPk i with
      | None => Exited
      | Some k =>
          match GeneratePks_from randomPk (S i) count with
          | Returned pks => Returned (k :: pks)
          | Panicked => Panicked
          | Exited => Exited
          end
      end
  end.

Definition GeneratePks (randomPk : nat → option string) (numOfKeys : Z)
  : run (list string) :=
  GeneratePks_from randomPk 0 (Z.to_nat numOfKeys).

Record TestActiveEventGeneratorOpts := {
  NumOfEvents : Z;
  FinalityProviders : list string;
  Stakers : list string;
  EnforceNotOverflow : bool;
  BeforeTimestamp : Z;
  AfterTimestamp : Z;
}.

(** The event types of the queue client. *)
Inductive EventType :=
  | ActiveStakingEventType
  | UnbondingStakingEventType
  | WithdrawStakingEventType
  | ExpiredStakingEventType.

(** [client.ActiveStakingEvent]. *)
Record ActiveStakingEvent := {
  Event : EventType;
  StakingTxHashHex : string;
  StakerPkHex : string;
  FinalityProviderPkHex : string;
  StakingValue : Z;
  StakingStartHeight : Z;
  StakingStartTimestamp : Z;
  StakingTimeLock : Z;
  StakingOutputIndex : Z;
  StakingTxHex : string;
  IsOverflow : bool;
}.

(** What [GenerateRandomActiveStakingEvents] gets from outside.  The keys
    of the two calls of [GeneratePks]; and for the [i]-th event, the
    randomness of each draw, the transaction [GenerateRandomTx] returns (its
    hash and its hex, [None] for an error), the amount [RandomAmount]
    returns and the clock. *)
Record EventEnv := {
  fpKeys : nat → option string;
  stakerKeys : nat → option string;
  fpDraw : nat → Z;
  stakerDraw : nat → Z;
  txDraw : nat → option (string * string);
  overflowDraw : nat → Z;
  amountDraw : nat → Z;
  heightDraw : nat → Z;
  clock : nat → Z;
  timestampDraw : nat → Z;
  timeLockDraw : nat → Z;
  outputIndexDraw : nat → Z;
}.

(** [pks[rand.Intn(len(pks))]]. *)
Definition pick (raw : Z) (pks : list string) : option string :=
  match Intn raw (Z.of_nat (length pks)) with
  | None => None
  | Some i => pks !! Z.to_nat i
  end.

(** The body of the loop for the [i]-th event.  [opts] is the pointer the
    caller passed, [None] when it is nil; [fpPks] and [stakerPks] are the
    lists of [genOpts]. *)
Definition generateEvent (env : EventEnv)
    (opts : option TestActiveEventGeneratorOpts)
    (fpPks stakerPks : list string) (i : nat) : run ActiveStakingEvent :=
  match pick (fpDraw env i) fpPks with
  | None => Panicked
  | Some randomFpPk =>
      match pick (stakerDraw env i) stakerPks with
      | None => Panicked
      | Some randomStakerPk =>
          match txDraw env i with
          | None => Exited
          | Some (txHash, hex) =>
              match opts with
              | None => Panicked
              | Some opts =>
                  let isOverflow :=
                    if EnforceNotOverflow opts then false
                    else bool_decide (Z.rem (Int (overflowDraw env i)) 2 = 0) in
                  match RandomPositiveInt (heightDraw env i) 100000,
                        GenerateRandomTimestamp (clock env i)
                          (timestampDraw env i) (AfterTimestamp opts)
                          (BeforeTimestamp opts),
                        Intn (timeLockDraw env i) 100,
                        Intn (outputIndexDraw env i) 100 with
                  | Some height, Some timestamp, Some timeLock,
                    Some outputIndex =>
                      Returned
                        {| Event := ActiveStakingEventType;
                           StakingTxHashHex := txHash;
                           StakerPkHex := randomStakerPk;
                           FinalityProviderPkHex := randomFpPk;
                           StakingValue := uint64_of_int (amountDraw env i);
                           StakingStartHeight := uint64_of_int height;
                           StakingStartTimestamp := timestamp;
                           StakingTimeLock := uint64_of_int timeLock;
                           StakingOutputIndex := uint64_of_int outputIndex;
                           StakingTxHex := hex;
                           IsOverflow := isOverflow |}
                  | _, _, _, _ => Panicked
                  end
              end
          end
      end
  end.

(** The loop, from the [i]-th event on, [count] events to go. *)
Fixpoint generateEvents (env : EventEnv)
    (opts : option TestActiveEventGeneratorOpts)
    (fpPks stakerPks : list string) (i count : nat)
  : run (list ActiveStakingEvent) :=
  match count with
  | O => Returned []
  | S count =>
      match generateEvent env opts fpPks stakerPks i with
      | Returned activeStakingEvent =>
          match generateEvents env opts fpPks stakerPks (S i) count with
          | Returned activeStakingEvents =>
              Returned (activeStakingEvent :: activeStakingEvents)
          | Panicked => Panicked
          | Exited => Exited
          end
      | Panicked => Panicked
      | Exited => Exited
      end
  end.

(** The number of events and the two lists of keys [genOpts] ends up with:
    those of [opts] where it gives them, else the defaults. *)
Definition effectiveNumOfEvents (opts : option TestActiveEventGeneratorOpts)
  : Z :=
  match opts with
  | Some opts => if decide (NumOfEvents opts > 0) then NumOfEvents opts else 11
  | None => 11
  end.

Definition effectiveKeys (given : option (list string))
    (generated : list string) : list string :=
  match given with
  | Some (k :: ks) => k :: ks
  | _ => generated
  end.

Definition GenerateRandomActiveStakingEvents (env : EventEnv)
    (opts : option TestActiveEventGeneratorOpts)
  : run (list ActiveStakingEvent) :=
  match GeneratePks (fpKeys env) 11 with
  | Returned generatedFps =>
      match GeneratePks (stakerKeys env) 11 with
      | Returned generatedStakers =>
          let fpPks :=
            effectiveKeys (FinalityProviders <$> opts) generatedFps in
          let stakerPks :=
            effectiveKeys (Stakers <$> opts) generatedStakers in
          generateEvents env opts fpPks stakerPks 0
            (Z.to_nat (effectiveNumOfEvents opts))
      | Panicked => Panicked
      | Exited => Exited
      end
  | Panicked => Panicked
  | Exited => Exited
  end.

End testutils.

(** ** Concrete databases and environments, for examples *)

Module examples.

Import db.

Definition noFaults (rnd : Z) : TxEnv :=
  {| startSessionErr := None; lockUpdateErr := None; statsUpdateErr := None;
     commitErr := None; rnd := rnd |}.

Definition noReadFaults : ReadEnv := {| findErr := None; allErr := None |}.

Definition emptyDb (shards batch : Z) : Database :=
  {| cfg := {| LogicalShardCount := shards; DbBatchSizeLimit := batch |};
     StatsLockCollection := ∅;
     OverallStatsCollection := ∅;
     FinalityProviderStatsCollection := ∅ |}.

(** Two shards; the lock records of the transactions [tx1] and [tx2] for the
    states active and unbonded have been created. *)
Definition lockedDb : Database :=
  (execAll
     [CallGetOrCreateStatsLock NoFault "tx1" Active_ToString;
      CallGetOrCreateStatsLock NoFault "tx2" Active_ToString;
      CallGetOrCreateStatsLock NoFault "tx1" Unbonded_ToString;
      CallGetOrCreateStatsLock NoFault "tx2" Unbonded_ToString]
     (emptyDb 2 1)).2.

Definition noBatchFaults : Z → ReadEnv := λ _, noReadFaults.

(** The increments of an active delegation of value 10000. *)
Definition activeUpdate : Stats :=
  {| active_tvl := 10000; total_tvl := 10000; active_delegations := 1;
     total_delegations := 1 |}.

(** One shard; the provider [a] has one stored shard document. *)
Definition providerDb (batch : Z) : Database :=
  {| cfg := {| LogicalShardCount := 1; DbBatchSizeLimit := batch |};
     StatsLockCollection := ∅;
     OverallStatsCollection := ∅;
     FinalityProviderStatsCollection :=
       {[ "a:0" := {| active_tvl := 5; total_tvl := 5;
                      active_delegations := 1; total_delegations := 1 |} ]} |}.

(** The same, with the shard of a provider whose key holds a colon. *)
Definition colonDb : Database :=
  {| cfg := {| LogicalShardCount := 1; DbBatchSizeLimit := 1 |};
     StatsLockCollection := ∅;
     OverallStatsCollection := ∅;
     FinalityProviderStatsCollection :=
       {[ "a:b:0" := {| active_tvl := 5; total_tvl := 5;
                        active_delegations := 1; total_delegations := 1 |} ]} |}.

Definition activeArgs (hash : string) : v1dbclient.ActiveStakingArgs :=
  {| v1dbclient.arg_txHashHex := hash;
     v1dbclient.arg_stakerPkHex := "staker";
     v1dbclient.arg_finalityProviderPkHex := "a";
     v1dbclient.arg_stakingTxHex := "00";
     v1dbclient.arg_value := 10000;
     v1dbclient.arg_startHeight := 100;
     v1dbclient.arg_timeLock := 200;
     v1dbclient.arg_stakingOutputIndex := 1;
     v1dbclient.arg_stakingTimestamp := 1700000000;
     v1dbclient.arg_isOverflow := false |}.

(** A delegation store that holds the delegation [tx1]. *)
Definition oneDelegation : gmap string v1model.DelegationDocument :=
  (memstore.createActive ∅ (activeArgs "tx1")).2.

Definition activeDocument : processor.Document :=
  {| processor.StakingTxHashHex := "tx1";
     processor.StakingValue := 10000;
     processor.HasUnbondingTx := false;
     processor.State := processor.Active |}.

(** The locks of [tx1] and [tx2] created on an empty database of two
    shards, then stats updates of the providers [a] and [b] and of the
    overall stats. *)
Definition providerCalls : list call :=
  [CallGetOrCreateStatsLock NoFault "tx1" Active_ToString;
   CallGetOrCreateStatsLock NoFault "tx2" Active_ToString;
   CallGetOrCreateStatsLock NoFault "tx1" Unbonded_ToString;
   CallIncrementFinalityProviderStats (noFaults 0) "tx1" "a" 10000;
   CallIncrementFinalityProviderStats (noFaults 1) "tx2" "b" 500;
   CallIncrementOverallStats (noFaults 1) "tx1" 10000;
   CallSubtractFinalityProviderStats (noFaults 1) "tx1" "a" 10000].

(** An environment in which every key and every transaction can be
    generated, and options for three events of one finality provider. *)
Definition eventEnv : testutils.EventEnv :=
  {| testutils.fpKeys := λ i, Some ("fp" +:+ pretty i);
     testutils.stakerKeys := λ i, Some ("staker" +:+ pretty i);
     testutils.fpDraw := λ i, Z.of_nat i;
     testutils.stakerDraw := λ i, 7 * Z.of_nat i + 3;
     testutils.txDraw := λ i, Some ("hash" +:+ pretty i, "hex" +:+ pretty i);
     testutils.overflowDraw := λ i, Z.of_nat i;
     testutils.amountDraw := λ _, 10000;
     testutils.heightDraw := λ i, 99999 + Z.of_nat i;
     testutils.clock := λ _, 1700000000;
     testutils.timestampDraw := λ i, 1000 * Z.of_nat i;
     testutils.timeLockDraw := λ i, 150 + Z.of_nat i;
     testutils.outputIndexDraw := λ i, Z.of_nat i |}.

Definition eventOpts : testutils.TestActiveEventGeneratorOpts :=
  {| testutils.NumOfEvents := 3;
     testutils.FinalityProviders := ["a"];
     testutils.Stakers := [];
     testutils.EnforceNotOverflow := true;
     testutils.BeforeTimestamp := 1700000000;
     testutils.AfterTimestamp := 0 |}.

End examples.

(** * Properties *)

(** ** Facts about the Go primitives *)

Section go_facts.

Lemma wrap_int64_id z : in_int64 z → wrap_int64 z = z.
Proof.
  unfold in_int64, int64_min, int64_max, wrap_int64. intros Hz.
  rewrite Z.mod_small by lia. lia.
Qed.

Lemma wrap_int64_small z : 0 ≤ z ≤ int64_max → wrap_int64 z = z.
Proof.
  intros Hz. apply wrap_int64_id.
  unfold in_int64, int64_min, int64_max in *. lia.
Qed.

Lemma wrap_int64_range z : in_int64 (wrap_int64 z).
Proof.
  unfold in_int64, int64_min, int64_max, wrap_int64.
  pose proof (Z.mod_pos_bound (z + 2 ^ 63) (2 ^ 64)). lia.
Qed.

Lemma wrap_int64_add_l x y : wrap_int64 (wrap_int64 x + y) = wrap_int64 (x + y).
Proof.
  unfold wrap_int64.
  replace ((x + 2 ^ 63) mod 2 ^ 64 - 2 ^ 63 + y + 2 ^ 63)
    with ((x + 2 ^ 63) mod 2 ^ 64 + y) by lia.
  rewrite Zplus_mod_idemp_l. do 2 f_equal. lia.
Qed.

Lemma wrap_int64_add_r x y : wrap_int64 (x + wrap_int64 y) = wrap_int64 (x + y).
Proof. rewrite (Z.add_comm x), wrap_int64_add_l. f_equal. lia. Qed.

Lemma Intn_range rnd n r : Intn rnd n = Some r → 0 ≤ r < n.
Proof.
  unfold Intn. case_decide; [done|]. intros [= <-].
  apply Z.mod_pos_bound. lia.
Qed.

Lemma Sprint_inj i j : Sprint i = Sprint j → i = j.
Proof. unfold Sprint. apply (inj pretty). Qed.

(** Decimal numerals contain no colon. *)
Lemma pretty_N_char_not_colon x : pretty_N_char x ≠ ":"%char.
Proof. unfold pretty_N_char. by repeat case_match. Qed.

Lemma pretty_N_go_no_colon x s :
  Contains s ":" = false → Contains (pretty_N_go x s) ":" = false.
Proof.
  revert s. induction (N.lt_wf_0 x) as [x _ IH]. intros s Hs.
  destruct (decide (x = 0%N)) as [->|Hx].
  - by rewrite pretty_N_go_0.
  - rewrite pretty_N_go_step by lia. apply IH.
    + apply N.div_lt; lia.
    + simpl. case_decide as Hc; [|done].
      by destruct (pretty_N_char_not_colon (x `mod` 10)%N).
Qed.

Lemma pretty_N_no_colon (x : N) : Contains (pretty x) ":" = false.
Proof.
  unfold pretty, pretty_N. case_decide; [done|].
  by apply pretty_N_go_no_colon.
Qed.

Lemma Sprint_no_colon i : Contains (Sprint i) ":" = false.
Proof.
  unfold Sprint, pretty, pretty_Z. destruct i as [|p|p].
  - done.
  - apply (pretty_N_no_colon (Npos p)).
  - simpl. apply (pretty_N_no_colon (Npos p)).
Qed.

Lemma Split_nonempty s sep : Split s sep ≠ [].
Proof.
  induction s as [|c s IH]; simpl; [done|].
  case_decide; [done|]. by destruct (Split s sep).
Qed.

(** Without a separator in it, a string is its own single part. *)
Lemma Split_no_sep s sep : Contains s sep = false → Split s sep = [s].
Proof.
  induction s as [|c s IH]; simpl; [done|].
  case_decide; [done|]. intros Hs. by rewrite IH.
Qed.

Lemma Split_app_sep a b sep :
  Contains a sep = false →
  Split (a +:+ String sep b) sep = a :: Split b sep.
Proof.
  induction a as [|c a IH]; simpl.
  - intros _. by rewrite decide_True.
  - case_decide; [done|]. intros Ha. by rewrite IH.
Qed.

(** The number of parts is one more than the number of separators. *)
Lemma Split_length s sep : length (Split s sep) = S (count_sep s sep).
Proof.
  induction s as [|c s IH]; simpl; [done|].
  case_decide; simpl; [by rewrite IH|].
  destruct (Split s sep) eqn:E; simpl in *; [done|]. done.
Qed.

Lemma count_sep_app a b sep :
  count_sep (a +:+ b) sep = (count_sep a sep + count_sep b sep)%nat.
Proof. induction a as [|c a IH]; simpl; [done|]. rewrite IH. lia. Qed.

Lemma Contains_count_sep s sep :
  Contains s sep = true → (1 ≤ count_sep s sep)%nat.
Proof.
  induction s as [|c s IH]; simpl; [done|].
  case_decide; [lia|]. intros. by apply IH.
Qed.

End go_facts.

(** ** Shard identifiers *)

Section shard_ids.

Import db.

Lemma extract_generated pk i :
  Contains pk ":" = false →
  extractFinalityProviderPkHexFromStatsId (pk +:+ ":" +:+ Sprint i) = Done pk.
Proof.
  intros Hpk. unfold extractFinalityProviderPkHexFromStatsId.
  change (pk +:+ ":" +:+ Sprint i) with (pk +:+ String ":" (Sprint i)).
  rewrite Split_app_sep by done.
  rewrite Split_no_sep by apply Sprint_no_colon. done.
Qed.

Lemma extract_colon_in_pk pk i :
  Contains pk ":" = true →
  extractFinalityProviderPkHexFromStatsId (pk +:+ ":" +:+ Sprint i)
  = Fail (InvalidIdFormatError (pk +:+ ":" +:+ Sprint i)).
Proof.
  intros Hpk. unfold extractFinalityProviderPkHexFromStatsId.
  rewrite decide_True; [done|].
  rewrite Split_length, count_sep_app. simpl.
  apply Contains_count_sep in Hpk. lia.
Qed.

Lemma shard_id_inj pk i j :
  pk +:+ ":" +:+ Sprint i = pk +:+ ":" +:+ Sprint j → i = j.
Proof.
  intros H. apply Sprint_inj.
  induction pk as [|c pk IH]; simpl in H; [by injection H|].
  injection H as H. by apply IH.
Qed.

End shard_ids.

(** ** The transactional stats updates *)

Section stats_updates.

Import db.

Ltac unfold_update :=
  unfold updateOverallStats, updateFinalityProviderStats, WithTransaction,
    updateStatsLockByFieldName, generateOverallStatsId,
    generateFinalityProviderStatsId, UpdateOne_inc_upsert, shardStats.

Lemma updateOverallStats_cases env state hash upd db r db' :
  updateOverallStats env state hash upd db = (r, db') →
  (r ≠ Done () ∧ db' = db) ∨
  (r = Done () ∧
   startSessionErr env = None ∧ lockUpdateErr env = None ∧
   statsUpdateErr env = None ∧ commitErr env = None ∧
   ∃ n, Intn (rnd env) (int_of_uint64 (LogicalShardCount (cfg db))) = Some n ∧
        cfg db' = cfg db ∧
        FinalityProviderStatsCollection db' = FinalityProviderStatsCollection db ∧
        applied "overall_stats" (constructStatsLockId hash state) (Sprint n) upd
          (StatsLockCollection db) (StatsLockCollection db')
          (OverallStatsCollection db) (OverallStatsCollection db')).
Proof.
  unfold_update. intros H.
  repeat (case_match; simplify_eq/=); try (left; split; [done|done]).
  right. match goal with H : _ <$> _ = Some _ |- _ =>
    apply fmap_Some in H as (n & Hn & ->) end.
  repeat split; try done. exists n. repeat split; try done.
  eexists _, _. repeat split; try done.
  unfold lock_field; simpl; congruence.
Qed.

Lemma updateFinalityProviderStats_cases env state hash pk upd db r db' :
  updateFinalityProviderStats env state hash pk upd db = (r, db') →
  (r ≠ Done () ∧ db' = db) ∨
  (r = Done () ∧
   startSessionErr env = None ∧ lockUpdateErr env = None ∧
   statsUpdateErr env = None ∧ commitErr env = None ∧
   ∃ n, Intn (rnd env) (int_of_uint64 (LogicalShardCount (cfg db))) = Some n ∧
        cfg db' = cfg db ∧
        OverallStatsCollection db' = OverallStatsCollection db ∧
        applied "finality_provider_stats" (constructStatsLockId hash state)
          (pk +:+ ":" +:+ Sprint n) upd
          (StatsLockCollection db) (StatsLockCollection db')
          (FinalityProviderStatsCollection db)
          (FinalityProviderStatsCollection db')).
Proof.
  unfold_update. intros H.
  repeat (case_match; simplify_eq/=); try (left; split; [done|done]).
  right. match goal with H : _ <$> _ = Some _ |- _ =>
    apply fmap_Some in H as (n & Hn & ->) end.
  repeat split; try done. exists n. repeat split; try done.
  eexists _, _. repeat split; try done.
  unfold lock_field; simpl; congruence.
Qed.

End stats_updates.

(** ** The lock and the increments commit together *)

Section atomicity.

Import db.

Lemma lock_field_set fieldName d b :
  lock_field fieldName d = Some b →
  lock_field fieldName (set_lock_field fieldName d) = Some true.
Proof.
  unfold lock_field, set_lock_field.
  repeat case_decide; simplify_eq/=; done.
Qed.








End atomicity.

(** ** The stats lock only ever goes from false to true *)

Section lock_registry.

Import db.

Lemma lock_le_refl d : lock_le d d.
Proof. by repeat split. Qed.

Lemma lock_le_trans d1 d2 d3 : lock_le d1 d2 → lock_le d2 d3 → lock_le d1 d3.
Proof. unfold lock_le. intros (?&?&?&?) (?&?&?&?). repeat split; eauto; congruence. Qed.

Lemma lock_le_set_field fieldName d : lock_le d (set_lock_field fieldName d).
Proof.
  unfold lock_le, set_lock_field.
  repeat case_decide; simpl; repeat split; auto.
Qed.

Lemma locks_le_refl locks : locks_le locks locks.
Proof. intros id d Hd. exists d. split; [done|apply lock_le_refl]. Qed.

Lemma locks_le_trans l1 l2 l3 : locks_le l1 l2 → locks_le l2 l3 → locks_le l1 l3.
Proof.
  intros H12 H23 id d Hd.
  destruct (H12 _ _ Hd) as (d2 & Hd2 & Hle2).
  destruct (H23 _ _ Hd2) as (d3 & Hd3 & Hle3).
  exists d3. split; [done|]. by eapply lock_le_trans.
Qed.

Lemma locks_le_flip fieldName id d locks :
  locks !! id = Some d →
  locks_le locks (<[id := set_lock_field fieldName d]> locks).
Proof.
  intros Hd id' d' Hd'. destruct (decide (id' = id)) as [->|Hne].
  - rewrite lookup_insert_eq. simplify_eq. eexists. split; [done|].
    apply lock_le_set_field.
  - rewrite lookup_insert_ne by done. exists d'. split; [done|].
    apply lock_le_refl.
Qed.

Lemma locks_le_fresh id d locks :
  locks !! id = None → locks_le locks (<[id := d]> locks).
Proof.
  intros Hd id' d' Hd'. destruct (decide (id' = id)) as [->|Hne]; [congruence|].
  rewrite lookup_insert_ne by done. exists d'. split; [done|].
  apply lock_le_refl.
Qed.

Lemma updateStatsLockByFieldName_le ioErr hash state fieldName db :
  locks_le (StatsLockCollection db)
    (StatsLockCollection
       (updateStatsLockByFieldName ioErr hash state fieldName db).2).
Proof.
  unfold updateStatsLockByFieldName.
  repeat case_match; simpl; try apply locks_le_refl.
  by apply locks_le_flip.
Qed.

Lemma GetOrCreateStatsLock_le fault hash txType db :
  locks_le (StatsLockCollection db)
    (StatsLockCollection (GetOrCreateStatsLock fault hash txType db).2).
Proof.
  unfold GetOrCreateStatsLock.
  repeat case_match; simplify_eq/=; try apply locks_le_refl;
    by apply locks_le_fresh.
Qed.

Lemma applied_locks_le fieldName lockId shardId upd locks locks' coll coll' :
  applied fieldName lockId shardId upd locks locks' coll coll' →
  locks_le locks locks'.
Proof. intros (d & new & Hd & _ & -> & _). by apply locks_le_flip. Qed.

Lemma updateOverallStats_le env state hash upd db :
  locks_le (StatsLockCollection db)
    (StatsLockCollection (updateOverallStats env state hash upd db).2).
Proof.
  destruct (updateOverallStats env state hash upd db) as [r db'] eqn:E.
  destruct (updateOverallStats_cases _ _ _ _ _ _ _ E)
    as [[_ ->]|(_ & _ & _ & _ & _ & n & _ & _ & _ & Happ)]; simpl.
  - apply locks_le_refl.
  - by eapply applied_locks_le.
Qed.

Lemma updateFinalityProviderStats_le env state hash pk upd db :
  locks_le (StatsLockCollection db)
    (StatsLockCollection (updateFinalityProviderStats env state hash pk upd db).2).
Proof.
  destruct (updateFinalityProviderStats env state hash pk upd db)
    as [r db'] eqn:E.
  destruct (updateFinalityProviderStats_cases _ _ _ _ _ _ _ _ E)
    as [[_ ->]|(_ & _ & _ & _ & _ & n & _ & _ & _ & Happ)]; simpl.
  - apply locks_le_refl.
  - by eapply applied_locks_le.
Qed.

Lemma exec_locks_le c db :
  locks_le (StatsLockCollection db) (StatsLockCollection (exec c db).2).
Proof.
  destruct c; simpl.
  - pose proof (GetOrCreateStatsLock_le fault stakingTxHashHex txType db).
    by destruct (GetOrCreateStatsLock _ _ _ _).
  - pose proof (updateOverallStats_le env Active_ToString stakingTxHashHex
      {| active_tvl := int64_of_uint64 amount;
         total_tvl := int64_of_uint64 amount;
         active_delegations := 1; total_delegations := 1 |} db) as H.
    unfold IncrementOverallStats. by destruct (updateOverallStats _ _ _ _ _).
  - pose proof (updateOverallStats_le env Unbonded_ToString stakingTxHashHex
      {| active_tvl := int64_neg (int64_of_uint64 amount); total_tvl := 0;
         active_delegations := -1; total_delegations := 0 |} db) as H.
    unfold SubtractOverallStats. by destruct (updateOverallStats _ _ _ _ _).
  - pose proof (updateFinalityProviderStats_le env Active_ToString
      stakingTxHashHex fpPkHex
      {| active_tvl := int64_of_uint64 amount;
         total_tvl := int64_of_uint64 amount;
         active_delegations := 1; total_delegations := 1 |} db) as H.
    unfold IncrementFinalityProviderStats.
    by destruct (updateFinalityProviderStats _ _ _ _ _ _).
  - pose proof (updateFinalityProviderStats_le env Unbonded_ToString
      stakingTxHashHex fpPkHex
      {| active_tvl := int64_neg (int64_of_uint64 amount); total_tvl := 0;
         active_delegations := -1; total_delegations := 0 |} db) as H.
    unfold SubtractFinalityProviderStats.
    by destruct (updateFinalityProviderStats _ _ _ _ _ _).
Qed.

Lemma execAll_locks_le cs db :
  locks_le (StatsLockCollection db) (StatsLockCollection (execAll cs db).2).
Proof.
  revert db. induction cs as [|c cs IH]; intros db; simpl.
  - apply locks_le_refl.
  - pose proof (exec_locks_le c db) as Hc.
    destruct (exec c db) as [ok db1]. specialize (IH db1).
    destruct (execAll cs db1) as [oks db2]. simpl in *.
    by eapply locks_le_trans.
Qed.

(** C4.  A lock record is created with every boolean false, and only when it
    is absent: [GetOrCreateStatsLock] leaves the database alone when the
    record exists.  Over any sequence of calls of the package, a record stays
    and no boolean of it goes back to false; a flip happens only from false
    to true, and an attempt on a boolean that is already true matches no
    document, returns the not-found error and changes nothing. *)
Theorem stats_lock_monotone fault ioErr stakingTxHashHex state fieldName cs db :
  let id := constructStatsLockId stakingTxHashHex state in
  let created := GetOrCreateStatsLock fault stakingTxHashHex state db in
  let flipped :=
    updateStatsLockByFieldName ioErr stakingTxHashHex state fieldName db in
  (StatsLockCollection db !! id = None → (∀ e, fault ≠ CommandFails e) →
     StatsLockCollection created.2 !! id
     = Some (NewStatsLockDocument id false false false)) ∧
  (is_Some (StatsLockCollection db !! id) → created.2 = db) ∧
  (∀ id', id' ≠ id →
     StatsLockCollection created.2 !! id' = StatsLockCollection db !! id') ∧
  locks_le (StatsLockCollection db) (StatsLockCollection (execAll cs db).2) ∧
  locks_le (StatsLockCollection db) (StatsLockCollection flipped.2) ∧
  (flipped.1 = Done () →
     lock_state fieldName stakingTxHashHex state db = Some false ∧
     lock_state fieldName stakingTxHashHex state flipped.2 = Some true) ∧
  (lock_state fieldName stakingTxHashHex state db = Some true →
     flipped.2 = db ∧
     (ioErr = None →
      flipped.1 = Fail (NotFoundError stakingTxHashHex
                          "document already processed or does not exist"))).
Proof.
  intros id created flipped. split_and!.
  - intros Hnone Hfault. subst created. unfold GetOrCreateStatsLock.
    fold id. rewrite Hnone.
    destruct fault; simpl; try by rewrite lookup_insert_eq.
    by destruct (Hfault e).
  - intros [d Hd]. subst created. unfold GetOrCreateStatsLock.
    fold id. rewrite Hd. by destruct fault.
  - intros id' Hne. subst created. unfold GetOrCreateStatsLock. fold id.
    destruct (StatsLockCollection db !! id) eqn:Hd;
      destruct fault; simpl; try done; by rewrite lookup_insert_ne.
  - apply execAll_locks_le.
  - apply updateStatsLockByFieldName_le.
  - subst flipped. unfold updateStatsLockByFieldName, lock_state. fold id.
    repeat case_match; simplify_eq/=; try done.
    intros _. rewrite lookup_insert_eq. simpl.
    split; [done|]. by eapply lock_field_set.
  - subst flipped. unfold updateStatsLockByFieldName, lock_state. fold id.
    intros Hl. destruct (StatsLockCollection db !! id); simpl in Hl; [|done].
    rewrite Hl. destruct ioErr; simpl; split; try done.
Qed.

End lock_registry.

(** ** Reading the overall stats back *)

Section overall_totals.

Import db.

Lemma remove_dups_NoDup {A} `{EqDecision A} (l : list A) :
  NoDup l → remove_dups l = l.
Proof.
  induction 1 as [|x l Hx _ IH]; simpl; [done|].
  destruct (decide_rel elem_of x l); [done|]. by rewrite IH.
Qed.

Lemma overallShardsId_NoDup db : NoDup (overallShardsId db).
Proof.
  unfold overallShardsId. apply NoDup_fmap_2_strong; [|apply NoDup_seqZ].
  intros x y _ _. apply Sprint_inj.
Qed.

Lemma overallShardsId_elem db n :
  0 ≤ n < int_of_uint64 (LogicalShardCount (cfg db)) →
  Sprint n ∈ overallShardsId db.
Proof.
  intros Hn. unfold overallShardsId. apply list_elem_of_fmap.
  exists n. split; [done|]. apply elem_of_seqZ. lia.
Qed.

Lemma sumZ_app l1 l2 : sumZ (l1 ++ l2) = sumZ l1 + sumZ l2.
Proof. induction l1 as [|x l1 IH]; simpl; [done|]. rewrite IH. lia. Qed.

(** Replacing one shard changes the sum over distinct shard keys by the
    difference at that shard. *)
Lemma sumZ_insert (f : Stats → Z) ids id new (coll : gmap string Stats) :
  NoDup ids → id ∈ ids →
  sumZ ((λ i, f (shardStats (<[id := new]> coll) i)) <$> ids)
  = sumZ ((λ i, f (shardStats coll i)) <$> ids)
    + f new - f (shardStats coll id).
Proof.
  assert (Hout : ∀ l, id ∉ l →
    sumZ ((λ i, f (shardStats (<[id := new]> coll) i)) <$> l)
    = sumZ ((λ i, f (shardStats coll i)) <$> l)).
  { induction l as [|x l IH]; csimpl; [done|]. intros Hx.
    apply not_elem_of_cons in Hx as [Hne Hx]. rewrite IH by done.
    unfold shardStats at 1. by rewrite lookup_insert_ne. }
  induction 1 as [|x l Hx Hnd IH]; csimpl; [by intros ?%elem_of_nil|].
  intros [->|Hin]%elem_of_cons.
  - rewrite Hout by done. unfold shardStats at 1.
    rewrite lookup_insert_eq. simpl. lia.
  - rewrite IH by done. unfold shardStats at 1.
    rewrite lookup_insert_ne by (intros ->; done). fold (shardStats coll x).
    lia.
Qed.

Lemma foldl_addCounters_Id acc docs : Id (foldl addCounters acc docs) = Id acc.
Proof.
  revert acc. induction docs as [|d docs IH]; intros acc; simpl; [done|].
  by rewrite IH.
Qed.

(** The loop of [result.X += stats.X] computes the sum, reduced to [int64]. *)
Lemma foldl_addCounters (g : StatsDocument → Z) acc docs :
  (∀ r s, g (addCounters r s) = int64_add (g r) (g s)) →
  wrap_int64 (g (foldl addCounters acc docs))
  = wrap_int64 (g acc + sumZ (g <$> docs)).
Proof.
  intros Hg. revert acc. induction docs as [|d docs IH]; intros acc; csimpl.
  - f_equal. lia.
  - rewrite IH, Hg. unfold int64_add. rewrite wrap_int64_add_l.
    f_equal. lia.
Qed.

Lemma foldl_addCounters_in_range (g : StatsDocument → Z) acc docs :
  (∀ r s, g (addCounters r s) = int64_add (g r) (g s)) →
  in_int64 (g acc) → in_int64 (g (foldl addCounters acc docs)).
Proof.
  intros Hg. revert acc. induction docs as [|d docs IH]; intros acc; csimpl.
  - done.
  - intros _. apply IH. rewrite Hg. apply wrap_int64_range.
Qed.

Lemma foldl_addCounters_sum (g : StatsDocument → Z) acc docs :
  (∀ r s, g (addCounters r s) = int64_add (g r) (g s)) →
  in_int64 (g acc) →
  g (foldl addCounters acc docs) = wrap_int64 (g acc + sumZ (g <$> docs)).
Proof.
  intros Hg Hacc. rewrite <-foldl_addCounters by done.
  symmetry. apply wrap_int64_id. by apply foldl_addCounters_in_range.
Qed.

(** The documents a query fetches, summed, are the stored shards summed. *)
Lemma sumZ_fetched (f : Stats → Z) (g : StatsDocument → Z) ids
    (coll : gmap string Stats) :
  (∀ id s, g (decodeStats id s) = f s) → f zeroStats = 0 →
  sumZ (g <$> omap (λ id, decodeStats id <$> coll !! id) ids)
  = sumZ ((λ id, f (shardStats coll id)) <$> ids).
Proof.
  intros Hg H0. induction ids as [|id ids IH]; csimpl; [done|].
  unfold shardStats at 1. destruct (coll !! id) as [s|]; csimpl.
  - by rewrite Hg, IH.
  - rewrite H0, IH. lia.
Qed.

Lemma in_int64_0 : in_int64 0.
Proof. unfold in_int64, int64_min, int64_max. lia. Qed.

(** [GetOverallStats], when the driver does not fail and there is a shard to
    ask for, returns the four logical totals reduced to [int64]. *)
Lemma GetOverallStats_totals env db :
  findErr env = None → allErr env = None →
  1 ≤ int_of_uint64 (LogicalShardCount (cfg db)) →
  GetOverallStats env db
  = Done {| Id := "";
            ActiveTvl := wrap_int64 (overallTotal active_tvl db);
            TotalTvl := wrap_int64 (overallTotal total_tvl db);
            ActiveDelegations :=
              wrap_int64 (overallTotal active_delegations db);
            TotalDelegations :=
              wrap_int64 (overallTotal total_delegations db) |}.
Proof.
  intros Hf Ha Hc. unfold GetOverallStats, Find_in. rewrite Hf, Ha.
  pose proof (overallShardsId_elem db 0 ltac:(lia)) as H0.
  destruct (overallShardsId db) as [|id0 ids] eqn:Hids;
    [by apply elem_of_nil in H0|].
  rewrite <-Hids. clear H0 Hids id0 ids.
  rewrite remove_dups_NoDup by apply overallShardsId_NoDup.
  f_equal.
  set (docs := omap _ _).
  pose proof (foldl_addCounters_Id zeroDocument docs) as HId.
  pose proof (foldl_addCounters_sum ActiveTvl zeroDocument docs
                ltac:(done) in_int64_0) as H1.
  pose proof (foldl_addCounters_sum TotalTvl zeroDocument docs
                ltac:(done) in_int64_0) as H2.
  pose proof (foldl_addCounters_sum ActiveDelegations zeroDocument docs
                ltac:(done) in_int64_0) as H3.
  pose proof (foldl_addCounters_sum TotalDelegations zeroDocument docs
                ltac:(done) in_int64_0) as H4.
  destruct (foldl addCounters zeroDocument docs). simpl in *.
  subst docs. unfold overallTotal.
  rewrite (sumZ_fetched active_tvl ActiveTvl) in H1 by done.
  rewrite (sumZ_fetched total_tvl TotalTvl) in H2 by done.
  rewrite (sumZ_fetched active_delegations ActiveDelegations) in H3 by done.
  rewrite (sumZ_fetched total_delegations TotalDelegations) in H4 by done.
  by subst.
Qed.

End overall_totals.

(** ** What one update does to the overall counters *)

Section overall_updates.

Import db.

Lemma applyInc_Some upd old new :
  applyInc upd old = Some new →
  active_tvl new = active_tvl old + active_tvl upd ∧
  total_tvl new = total_tvl old + total_tvl upd ∧
  active_delegations new = active_delegations old + active_delegations upd ∧
  total_delegations new = total_delegations old + total_delegations upd ∧
  stats_in_range new.
Proof. unfold applyInc. case_decide; [|done]. by intros [= <-]. Qed.

Lemma int64_neg_of_uint64 amount :
  0 ≤ amount ≤ 2 ^ 63 → int64_neg (int64_of_uint64 amount) = - amount.
Proof.
  intros Ha. unfold int64_neg, int64_of_uint64.
  destruct (decide (amount = 2 ^ 63)) as [->|Hne]; [done|].
  rewrite (wrap_int64_id amount)
    by (unfold in_int64, int64_min, int64_max; lia).
  apply wrap_int64_id. unfold in_int64, int64_min, int64_max. lia.
Qed.

Lemma int64_of_uint64_small amount :
  0 ≤ amount ≤ int64_max → int64_of_uint64 amount = amount.
Proof.
  intros Ha. apply wrap_int64_id. unfold in_int64, int64_min, int64_max in *.
  lia.
Qed.

(** A successful [updateOverallStats] adds the increments to the logical
    totals, whichever shard was drawn. *)
Lemma updateOverallStats_totals env state hash upd db db' :
  updateOverallStats env state hash upd db = (Done (), db') →
  cfg db' = cfg db ∧
  1 ≤ int_of_uint64 (LogicalShardCount (cfg db)) ∧
  overallTotal active_tvl db' = overallTotal active_tvl db + active_tvl upd ∧
  overallTotal total_tvl db' = overallTotal total_tvl db + total_tvl upd ∧
  overallTotal active_delegations db'
  = overallTotal active_delegations db + active_delegations upd ∧
  overallTotal total_delegations db'
  = overallTotal total_delegations db + total_delegations upd.
Proof.
  intros E.
  destruct (updateOverallStats_cases _ _ _ _ _ _ _ E)
    as [[Hr _]|(_ & _ & _ & _ & _ & n & Hn & Hcfg & _ & Happ)]; [done|].
  destruct Happ as (d & new & _ & _ & _ & Hinc & Hc).
  apply Intn_range in Hn. apply applyInc_Some in Hinc as (H1 & H2 & H3 & H4 & _).
  split; [done|]. split; [lia|].
  unfold overallTotal, overallShardsId. rewrite Hc, Hcfg.
  fold (overallShardsId db).
  rewrite !sumZ_insert
    by (apply overallShardsId_NoDup || by apply overallShardsId_elem).
  rewrite H1, H2, H3, H4. lia.
Qed.

Lemma execAll_app cs1 cs2 db :
  execAll (cs1 ++ cs2) db
  = ((execAll cs1 db).1 && (execAll cs2 (execAll cs1 db).2).1,
     (execAll cs2 (execAll cs1 db).2).2).
Proof.
  revert db. induction cs1 as [|c cs1 IH]; intros db; simpl.
  - by destruct (execAll cs2 db).
  - destruct (exec c db) as [ok db1]. rewrite IH.
    destruct (execAll cs1 db1) as [ok1 db2]. simpl.
    destruct (execAll cs2 db2) as [ok2 db3]. simpl.
    by rewrite andb_assoc.
Qed.

Lemma increments_totals v incs db db' :
  execAll (incrementCalls v incs) db = (true, db') →
  cfg db' = cfg db ∧
  (incs ≠ [] → 1 ≤ int_of_uint64 (LogicalShardCount (cfg db))) ∧
  overallTotal active_tvl db'
  = overallTotal active_tvl db + Z.of_nat (length incs) * int64_of_uint64 v ∧
  overallTotal total_tvl db'
  = overallTotal total_tvl db + Z.of_nat (length incs) * int64_of_uint64 v ∧
  overallTotal active_delegations db'
  = overallTotal active_delegations db + Z.of_nat (length incs) ∧
  overallTotal total_delegations db'
  = overallTotal total_delegations db + Z.of_nat (length incs).
Proof.
  revert db. induction incs as [|[env h] incs IH]; intros db; csimpl.
  - intros [= <-]. split_and!; try done; lia.
  - unfold IncrementOverallStats.
    destruct (updateOverallStats _ _ _ _ db) as [r db1] eqn:E1.
    destruct (execAll _ db1) as [oks db2] eqn:E2.
    intros [= Hok <-]. apply andb_true_iff in Hok as [Hr ->].
    destruct r; try done. destruct a.
    apply updateOverallStats_totals in E1 as (Hc & Hn & H1 & H2 & H3 & H4).
    apply IH in E2 as (Hc' & _ & H1' & H2' & H3' & H4'). simpl in *.
    split_and!; try done; try congruence; lia.
Qed.

Lemma subtractions_totals v decs db db' :
  execAll (subtractCalls v decs) db = (true, db') →
  cfg db' = cfg db ∧
  overallTotal active_tvl db'
  = overallTotal active_tvl db
    + Z.of_nat (length decs) * int64_neg (int64_of_uint64 v) ∧
  overallTotal total_tvl db' = overallTotal total_tvl db ∧
  overallTotal active_delegations db'
  = overallTotal active_delegations db - Z.of_nat (length decs) ∧
  overallTotal total_delegations db' = overallTotal total_delegations db.
Proof.
  revert db. induction decs as [|[env h] decs IH]; intros db; csimpl.
  - intros [= <-]. split_and!; try done; lia.
  - unfold SubtractOverallStats.
    destruct (updateOverallStats _ _ _ _ db) as [r db1] eqn:E1.
    destruct (execAll _ db1) as [oks db2] eqn:E2.
    intros [= Hok <-]. apply andb_true_iff in Hok as [Hr ->].
    destruct r; try done. destruct a.
    apply updateOverallStats_totals in E1 as (Hc & Hn & H1 & H2 & H3 & H4).
    apply IH in E2 as (Hc' & H1' & H2' & H3' & H4'). simpl in *.
    split_and!; try done; try congruence; lia.
Qed.

Lemma overallTotal_empty f db :
  OverallStatsCollection db = ∅ → f zeroStats = 0 → overallTotal f db = 0.
Proof.
  intros He H0. unfold overallTotal. rewrite He.
  induction (overallShardsId db) as [|id ids IH]; csimpl; [done|].
  unfold shardStats at 1. rewrite lookup_empty. simpl. rewrite H0, IH. done.
Qed.

End overall_updates.

(** ** The overall totals after increments and subtractions *)

Section overall_claims.

Import db.

(** C7 (as amended).  One call of [SubtractOverallStats] never changes
    [total_tvl] or [total_delegations] of any shard.  A call that does not
    return nil changes nothing.  A call that returns nil changes only the
    shard drawn: its [active_delegations] goes down by 1 and its [active_tvl]
    changes by [-int64(amount)], which is [-amount] for an amount of at most
    2^63. *)
Theorem subtract_overall_frame env stakingTxHashHex amount db :
  let res := SubtractOverallStats env stakingTxHashHex amount db in
  let coll := OverallStatsCollection db in
  let coll' := OverallStatsCollection res.2 in
  (∀ id, total_tvl (shardStats coll' id) = total_tvl (shardStats coll id) ∧
         total_delegations (shardStats coll' id)
         = total_delegations (shardStats coll id)) ∧
  (res.1 ≠ Done () → res.2 = db) ∧
  (res.1 = Done () →
     ∃ n, Intn (rnd env) (int_of_uint64 (LogicalShardCount (cfg db))) = Some n ∧
          (∀ id, id ≠ Sprint n → coll' !! id = coll !! id) ∧
          active_delegations (shardStats coll' (Sprint n))
          = active_delegations (shardStats coll (Sprint n)) - 1 ∧
          active_tvl (shardStats coll' (Sprint n))
          = active_tvl (shardStats coll (Sprint n))
            + int64_neg (int64_of_uint64 amount) ∧
          (0 ≤ amount ≤ 2 ^ 63 →
           active_tvl (shardStats coll' (Sprint n))
           = active_tvl (shardStats coll (Sprint n)) - amount)).
Proof.
  intros res coll coll'. subst res coll coll'. unfold SubtractOverallStats.
  destruct (updateOverallStats _ _ _ _ db) as [r db'] eqn:E. simpl.
  destruct (updateOverallStats_cases _ _ _ _ _ _ _ E)
    as [[Hr ->]|(-> & _ & _ & _ & _ & n & Hn & _ & _ & Happ)].
  { split_and!; done. }
  destruct Happ as (d & new & _ & _ & _ & Hinc & ->).
  apply applyInc_Some in Hinc as (H1 & H2 & H3 & H4 & _). simpl in *.
  assert (Hnew : shardStats (<[Sprint n := new]> (OverallStatsCollection db))
                   (Sprint n) = new).
  { unfold shardStats. by rewrite lookup_insert_eq. }
  split_and!.
  - intros id. destruct (decide (id = Sprint n)) as [->|Hne].
    + rewrite Hnew, H2, H4. split; lia.
    + unfold shardStats. by rewrite lookup_insert_ne.
  - done.
  - intros _. exists n. rewrite Hnew. split_and!.
    + done.
    + intros id Hne. by rewrite lookup_insert_ne.
    + lia.
    + lia.
    + intros Ha. rewrite H1, int64_neg_of_uint64 by done. lia.
Qed.

(** C1 (as amended).  From an empty overall-stats collection, [N] calls of
    [IncrementOverallStats] followed by [M ≤ N] calls of
    [SubtractOverallStats], all with amount [v] and all returning nil, leave
    totals that [GetOverallStats] reads back as [(N-M)*v], [N*v], [N-M] and
    [N], whatever shard each call drew, provided [N] and [N*v] fit an
    [int64]. *)
Theorem overall_stats_totals v incs decs db db' env :
  let N := Z.of_nat (length incs) in
  let M := Z.of_nat (length decs) in
  OverallStatsCollection db = ∅ →
  1 ≤ int_of_uint64 (LogicalShardCount (cfg db)) →
  0 ≤ v → M ≤ N → N ≤ int64_max → N * v ≤ int64_max →
  execAll (incrementCalls v incs ++ subtractCalls v decs) db = (true, db') →
  findErr env = None → allErr env = None →
  GetOverallStats env db'
  = Done {| Id := ""; ActiveTvl := (N - M) * v; TotalTvl := N * v;
            ActiveDelegations := N - M; TotalDelegations := N |}.
Proof.
  intros N M Hempty Hcount Hv HMN HN HNv Hexec Hfind Hall.
  rewrite execAll_app in Hexec.
  destruct (execAll (incrementCalls v incs) db) as [ok1 db1] eqn:E1.
  simpl in Hexec.
  destruct (execAll (subtractCalls v decs) db1) as [ok2 db2] eqn:E2.
  simpl in Hexec. injection Hexec as Hok <-.
  apply andb_true_iff in Hok as [-> ->].
  apply increments_totals in E1 as (Hc1 & _ & A1 & A2 & A3 & A4).
  apply subtractions_totals in E2 as (Hc2 & B1 & B2 & B3 & B4).
  rewrite GetOverallStats_totals by (done || congruence).
  rewrite B1, B2, B3, B4, A1, A2, A3, A4.
  rewrite !overallTotal_empty by done. fold N M.
  assert (0 ≤ N ∧ 0 ≤ M) as [HN0 HM0] by lia.
  clear A1 A2 A3 A4 B1 B2 B3 B4 Hcount Hc1 Hc2. clearbody N M.
  destruct (decide (N = 0)) as [->|HNpos].
  - assert (M = 0) as -> by lia. simpl.
    by rewrite !wrap_int64_small by (unfold int64_max; lia).
  - pose proof (Z.mul_le_mono_nonneg_r 1 N v Hv ltac:(lia)) as Hle.
    pose proof (Z.mul_le_mono_nonneg_r M N v Hv HMN) as Hle'.
    pose proof (Z.mul_nonneg_nonneg M v HM0 Hv) as Hpos.
    assert (v ≤ N * v) as Hle1 by lia.
    assert (v ≤ int64_max) as Hvmax by lia.
    rewrite (int64_neg_of_uint64 v) by (unfold int64_max in *; lia).
    rewrite (int64_of_uint64_small v) by lia.
    rewrite !wrap_int64_small by lia. do 2 f_equal; lia.
Qed.

End overall_claims.

(** ** Reading the stats of many finality providers *)

Section provider_reads.

Import db.

Lemma shard_id_pk_inj pk1 pk2 i j :
  Contains pk1 ":" = false → Contains pk2 ":" = false →
  pk1 +:+ ":" +:+ Sprint i = pk2 +:+ ":" +:+ Sprint j → pk1 = pk2.
Proof.
  intros H1 H2 Heq.
  pose proof (extract_generated pk1 i H1) as E1.
  pose proof (extract_generated pk2 j H2) as E2.
  rewrite Heq in E1. congruence.
Qed.

Lemma providerShardsId_NoDup pk db : NoDup (providerShardsId pk db).
Proof.
  unfold providerShardsId. apply NoDup_fmap_2_strong; [|apply NoDup_seqZ].
  intros x y _ _. apply shard_id_inj.
Qed.

Lemma getAllSharded_NoDup pkHex db :
  NoDup pkHex → colon_free pkHex →
  NoDup (getAllShardedFinalityProviderId pkHex db).
Proof.
  intros Hnd Hcf. unfold getAllShardedFinalityProviderId.
  apply NoDup_bind; [|intros; apply providerShardsId_NoDup|done].
  intros pk1 pk2 id Hpk1 Hpk2
    (i & -> & _)%list_elem_of_fmap (j & Hj & _)%list_elem_of_fmap.
  unfold colon_free in Hcf. rewrite Forall_forall in Hcf.
  eapply shard_id_pk_inj; eauto.
Qed.

Lemma omap_bind {A B C} (f : B → option C) (g : A → list B) (l : list A) :
  omap f (l ≫= g) = l ≫= (λ x, omap f (g x)).
Proof.
  induction l as [|x l IH]; csimpl; [done|]. by rewrite omap_app, IH.
Qed.

(** With distinct colon-free providers, a batch fetches the stored shards of
    each of its providers, provider by provider. *)
Lemma Find_in_batch env batch db :
  findErr env = None → allErr env = None →
  1 ≤ int_of_uint64 (LogicalShardCount (cfg db)) →
  batch ≠ [] → NoDup batch → colon_free batch →
  Find_in env (getAllShardedFinalityProviderId batch db)
    (FinalityProviderStatsCollection db)
  = Done (batch ≫= λ pk, shardDocs pk db).
Proof.
  intros Hf Ha Hc Hne Hnd Hcf. unfold Find_in. rewrite Hf, Ha.
  rewrite remove_dups_NoDup by by apply getAllSharded_NoDup.
  unfold getAllShardedFinalityProviderId at 2. rewrite omap_bind.
  destruct (getAllShardedFinalityProviderId batch db) eqn:E; [|done].
  exfalso. destruct batch as [|pk batch]; [done|].
  unfold getAllShardedFinalityProviderId in E. csimpl in E.
  apply app_eq_nil in E as [E _]. apply fmap_nil_inv in E.
  assert (0 ∈ seqZ 0 (int_of_uint64 (LogicalShardCount (cfg db)))) as H0
    by (apply elem_of_seqZ; lia).
  rewrite E in H0. by apply elem_of_nil in H0.
Qed.

Lemma shardDocs_key pk db fp :
  Contains pk ":" = false → fp ∈ shardDocs pk db →
  extractFinalityProviderPkHexFromStatsId (Id fp) = Done pk.
Proof.
  intros Hpk (id & Hid & Hfp)%list_elem_of_omap.
  apply list_elem_of_fmap in Hid as (i & -> & _).
  destruct (FinalityProviderStatsCollection db !! _); simplify_eq/=.
  by apply extract_generated.
Qed.

Lemma accumulate_app entry fps1 fps2 :
  accumulate entry (fps1 ++ fps2) = accumulate (accumulate entry fps1) fps2.
Proof. unfold accumulate. by rewrite foldl_app. Qed.

(** The inner loop, when every id has the right format: each entry of the
    map accumulates the documents of its provider, in order. *)
Lemma sumShards_lookup fps m :
  Forall (λ fp, returned (extractFinalityProviderPkHexFromStatsId (Id fp)) = true)
    fps →
  ∃ m', sumShards fps m = Done m' ∧
        ∀ k, m' !! k = accumulate (m !! k) (filter (λ fp, keyOf fp = k) fps).
Proof.
  intros Hfps. revert m. induction Hfps as [|fp fps Hfp _ IH]; intros m.
  - exists m. split; [done|]. intros k. done.
  - simpl.
    destruct (extractFinalityProviderPkHexFromStatsId (Id fp)) as [k0| | |]
      eqn:E; try done.
    assert (keyOf fp = k0) as Hk by (unfold keyOf; by rewrite E).
    assert (Hstep : ∀ new (m' : gmap string StatsDocument),
      (∀ k, m' !! k = accumulate (<[k0 := new]> m !! k)
                        (filter (λ fp, keyOf fp = k) fps)) →
      accumulate (m !! k0) [fp] = Some new →
      ∀ k, m' !! k = accumulate (m !! k)
                       (filter (λ fp, keyOf fp = k) (fp :: fps))).
    { intros new m' Hm' Hnew k. rewrite Hm', filter_cons.
      destruct (decide (k0 = k)) as [<-|Hne].
      - rewrite decide_True by done. rewrite lookup_insert_eq.
        change (fp :: ?l) with ([fp] ++ l).
        by rewrite accumulate_app, Hnew.
      - rewrite decide_False by congruence. by rewrite lookup_insert_ne. }
    destruct (m !! k0) as [existingFp|] eqn:Hm.
    + destruct (IH (<[k0 := addCounters existingFp fp]> m)) as (m' & -> & Hm').
      exists m'. split; [done|]. by eapply Hstep.
    + destruct (IH (<[k0 := {| Id := ""; ActiveTvl := ActiveTvl fp;
                           TotalTvl := TotalTvl fp;
                           ActiveDelegations := ActiveDelegations fp;
                           TotalDelegations := TotalDelegations fp |}]> m))
        as (m' & -> & Hm').
      exists m'. split; [done|]. by eapply Hstep.
Qed.

Lemma filter_shardDocs pk k db :
  Contains pk ":" = false →
  filter (λ fp, keyOf fp = k) (shardDocs pk db)
  = if decide (pk = k) then shardDocs pk db else [].
Proof.
  intros Hpk.
  assert (Hall : Forall (λ fp, keyOf fp = pk) (shardDocs pk db)).
  { apply Forall_forall. intros fp Hfp. unfold keyOf.
    by rewrite (shardDocs_key pk db fp). }
  induction Hall as [|fp fps Hfp _ IH]; [by case_decide|].
  rewrite filter_cons, IH. rewrite Hfp. by repeat case_decide.
Qed.

Lemma filter_fetched pkHex k db :
  NoDup pkHex → colon_free pkHex →
  filter (λ fp, keyOf fp = k) (pkHex ≫= λ pk, shardDocs pk db)
  = if decide (k ∈ pkHex) then shardDocs k db else [].
Proof.
  intros Hnd Hcf. induction Hnd as [|pk pkHex Hpk Hnd IH].
  - destruct (decide (k ∈ [])) as [Hin|_]; [by apply elem_of_nil in Hin|done].
  - apply Forall_cons in Hcf as [Hc Hcf]. rewrite bind_cons.
    rewrite filter_app, filter_shardDocs, IH by done.
    destruct (decide (pk = k)) as [->|Hne].
    + destruct (decide (k ∈ pkHex)); [done|].
      destruct (decide (k ∈ k :: pkHex)) as [_|Hn]; [by rewrite app_nil_r|].
      destruct Hn. apply list_elem_of_here.
    + simpl. destruct (decide (k ∈ pkHex)) as [Hin|Hnin];
        destruct (decide (k ∈ pk :: pkHex)) as [Hin'|Hnin']; try done.
      * destruct Hnin'. by apply list_elem_of_further.
      * apply elem_of_cons in Hin' as [->|?]; done.
Qed.

Lemma batchLoop_done fuel env bs pkHex db i m :
  Z.of_nat (length pkHex) ≤ i →
  batchLoop (S fuel) env bs pkHex db i m = Done m.
Proof. intros Hi. simpl. by rewrite decide_False by lia. Qed.

(** One turn of the batch loop, for a batch size of at least 1: the batch is
    the next [batchSize] keys, or what is left of them. *)
Lemma batchLoop_step fuel env bs pkHex db i m :
  1 ≤ bs → 0 ≤ i < Z.of_nat (length pkHex) →
  batchLoop (S fuel) env bs pkHex db i m
  = match Find_in (env i)
            (getAllShardedFinalityProviderId
               (take (Z.to_nat bs) (drop (Z.to_nat i) pkHex)) db)
            (FinalityProviderStatsCollection db) with
    | Done fps =>
        match sumShards fps m with
        | Done m1 => batchLoop fuel env bs pkHex db (i + bs) m1
        | r => r
        end
    | Fail e => Fail e
    | Panic => Panic
    | OutOfFuel => OutOfFuel
    end.
Proof.
  intros Hbs Hi. simpl. rewrite decide_True by lia.
  assert (Hbatch : ∀ end_,
    end_ = (if decide (i + bs > Z.of_nat (length pkHex))
            then Z.of_nat (length pkHex) else i + bs) →
    ¬ end_ < i ∧
    take (Z.to_nat (end_ - i)) (drop (Z.to_nat i) pkHex)
    = take (Z.to_nat bs) (drop (Z.to_nat i) pkHex)).
  { intros end_ ->. case_decide.
    - split; [lia|]. rewrite !take_ge; [done|rewrite length_drop; lia..].
    - split; [lia|]. do 2 f_equal. lia. }
  destruct (Hbatch _ eq_refl) as [Hend ->].
  by rewrite decide_False by done.
Qed.

Lemma accumulate_Some e fps :
  accumulate (Some e) fps = Some (foldl addCounters e fps).
Proof.
  revert e. induction fps as [|fp fps IH]; intros e; [done|].
  unfold accumulate in *. simpl. by rewrite IH.
Qed.

(** The batch loop, when no read fails and the keys are distinct and
    colon-free: every entry accumulates the stored shards of its provider. *)
Lemma batchLoop_spec env bs pkHex db :
  no_read_faults env →
  1 ≤ int_of_uint64 (LogicalShardCount (cfg db)) →
  1 ≤ bs → NoDup pkHex → colon_free pkHex →
  ∀ fuel i m,
    0 ≤ i → (length (drop (Z.to_nat i) pkHex) < fuel)%nat →
    ∃ m', batchLoop fuel env bs pkHex db i m = Done m' ∧
          ∀ k, m' !! k
               = accumulate (m !! k)
                   (filter (λ fp, keyOf fp = k)
                      (drop (Z.to_nat i) pkHex ≫= λ pk, shardDocs pk db)).
Proof.
  intros Henv Hc Hbs Hnd Hcf fuel.
  induction fuel as [|fuel IH]; intros i m Hi Hfuel; [lia|].
  destruct (decide (i < Z.of_nat (length pkHex))) as [Hlt|Hge].
  - rewrite batchLoop_step by lia.
    set (rest := drop (Z.to_nat i) pkHex) in *.
    set (batch := take (Z.to_nat bs) rest).
    assert (length rest ≠ 0%nat) as Hrest
      by (subst rest; rewrite length_drop; lia).
    assert (batch ≠ []) as Hbatch.
    { subst batch. destruct rest; [done|].
      destruct (Z.to_nat bs) eqn:E; [lia|done]. }
    assert (NoDup batch) as Hnd'.
    { eapply sublist_NoDup; [exact Hnd|].
      etrans; [apply sublist_take|apply sublist_drop]. }
    assert (colon_free batch) as Hcf'
      by (by apply Forall_take, Forall_drop).
    destruct (Henv i) as [Hf Ha].
    rewrite Find_in_batch by done.
    destruct (sumShards_lookup (batch ≫= λ pk, shardDocs pk db) m)
      as (m1 & -> & Hm1).
    { apply Forall_forall. intros fp (pk & Hfp & Hpk)%list_elem_of_bind.
      unfold colon_free in Hcf'. rewrite Forall_forall in Hcf'.
      by rewrite (shardDocs_key pk db fp) by auto. }
    assert (drop (Z.to_nat (i + bs)) pkHex = drop (Z.to_nat bs) rest) as Hdrop.
    { subst rest. rewrite drop_drop. f_equal. lia. }
    destruct (IH (i + bs) m1) as (m' & -> & Hm'); [lia| |].
    { rewrite Hdrop, length_drop. lia. }
    exists m'. split; [done|]. intros k.
    rewrite Hm', Hm1, Hdrop, <-accumulate_app, <-filter_app, <-bind_app.
    subst batch. by rewrite take_drop.
  - rewrite batchLoop_done by lia. exists m. split; [done|]. intros k.
    by rewrite drop_ge by lia.
Qed.

Lemma shardDocs_nil pk db :
  shardDocs pk db = [] ↔ providerHasShard pk db = false.
Proof.
  unfold providerHasShard, shardDocs.
  rewrite bool_decide_eq_false, <-Forall_Exists_neg.
  induction (providerShardsId pk db) as [|id ids IH]; csimpl.
  - split; [by constructor|done].
  - rewrite Forall_cons, <-IH.
    destruct (FinalityProviderStatsCollection db !! id) eqn:E; simpl.
    + split; [done|]. intros [Hn _]. destruct Hn. by eexists.
    + split; [intros ->; split; [by intros [??]|done]|by intros [_ ->]].
Qed.

Lemma shardDocs_in_range (f : Stats → Z) (g : StatsDocument → Z) pk db :
  (∀ id s, g (decodeStats id s) = f s) →
  (∀ s, stats_in_range s → in_int64 (f s)) →
  collection_in_range (FinalityProviderStatsCollection db) →
  Forall (λ fp, in_int64 (g fp)) (shardDocs pk db).
Proof.
  intros Hg Hf Hr. apply Forall_forall.
  intros fp (id & _ & Hfp)%list_elem_of_omap.
  destruct (FinalityProviderStatsCollection db !! id) as [s|] eqn:E;
    simplify_eq/=.
  rewrite Hg. apply Hf. by eapply (Hr id s).
Qed.

(** Accumulating the stored shards of a provider gives the four sums as
    [int64]s, when the stored counters are 64-bit integers. *)
Lemma accumulate_summed pk db :
  collection_in_range (FinalityProviderStatsCollection db) →
  accumulate None (shardDocs pk db) = providerSummed pk db.
Proof.
  intros Hr. unfold providerSummed.
  pose proof (shardDocs_nil pk db) as Hnil.
  pose proof (shardDocs_in_range active_tvl ActiveTvl pk db
    ltac:(done) ltac:(by intros ? (?&?&?&?)) Hr) as R1.
  pose proof (shardDocs_in_range total_tvl TotalTvl pk db
    ltac:(done) ltac:(by intros ? (?&?&?&?)) Hr) as R2.
  pose proof (shardDocs_in_range active_delegations ActiveDelegations pk db
    ltac:(done) ltac:(by intros ? (?&?&?&?)) Hr) as R3.
  pose proof (shardDocs_in_range total_delegations TotalDelegations pk db
    ltac:(done) ltac:(by intros ? (?&?&?&?)) Hr) as R4.
  unfold providerTotal. fold (providerShardsId pk db).
  rewrite <-(sumZ_fetched active_tvl ActiveTvl) by done.
  rewrite <-(sumZ_fetched total_tvl TotalTvl) by done.
  rewrite <-(sumZ_fetched active_delegations ActiveDelegations) by done.
  rewrite <-(sumZ_fetched total_delegations TotalDelegations) by done.
  fold (shardDocs pk db).
  destruct (shardDocs pk db) as [|fp fps].
  - by rewrite (proj1 Hnil).
  - destruct Hnil as [_ Hn].
    destruct (providerHasShard pk db); [|by specialize (Hn eq_refl)].
    apply Forall_cons in R1 as [R1 _]. apply Forall_cons in R2 as [R2 _].
    apply Forall_cons in R3 as [R3 _]. apply Forall_cons in R4 as [R4 _].
    change (accumulate None (fp :: fps))
      with (accumulate
              (Some {| Id := ""; ActiveTvl := ActiveTvl fp;
                       TotalTvl := TotalTvl fp;
                       ActiveDelegations := ActiveDelegations fp;
                       TotalDelegations := TotalDelegations fp |}) fps).
    rewrite accumulate_Some. f_equal.
    set (acc := {| Id := "" |}).
    pose proof (foldl_addCounters_Id acc fps) as HId.
    pose proof (foldl_addCounters_sum ActiveTvl acc fps ltac:(done) R1) as H1.
    pose proof (foldl_addCounters_sum TotalTvl acc fps ltac:(done) R2) as H2.
    pose proof (foldl_addCounters_sum ActiveDelegations acc fps
                  ltac:(done) R3) as H3.
    pose proof (foldl_addCounters_sum TotalDelegations acc fps
                  ltac:(done) R4) as H4.
    destruct (foldl addCounters acc fps). simpl in *. by subst.
Qed.

(** The whole read, when no read fails, the keys are distinct and
    colon-free and the batch size is at least 1. *)
Lemma FindFinalityProviderStatsByPkHex_spec env pkHex db :
  no_read_faults env →
  1 ≤ int_of_uint64 (LogicalShardCount (cfg db)) →
  1 ≤ int_of_uint64 (DbBatchSizeLimit (cfg db)) →
  NoDup pkHex → colon_free pkHex →
  collection_in_range (FinalityProviderStatsCollection db) →
  ∃ m, FindFinalityProviderStatsByPkHex env pkHex db = Done m ∧
       ∀ k, m !! k = if decide (k ∈ pkHex) then providerSummed k db else None.
Proof.
  intros Henv Hc Hbs Hnd Hcf Hr. unfold FindFinalityProviderStatsByPkHex.
  destruct (batchLoop_spec env _ pkHex db Henv Hc Hbs Hnd Hcf
              (S (length pkHex)) 0 ∅) as (m & -> & Hm);
    [lia|rewrite length_drop; lia|].
  exists m. split; [done|]. intros k. rewrite Hm.
  change (drop (Z.to_nat 0) pkHex) with pkHex.
  rewrite filter_fetched by done. rewrite lookup_empty.
  case_decide; [by apply accumulate_summed|done].
Qed.

Lemma extract_returns id :
  extractFinalityProviderPkHexFromStatsId id ≠ Panic ∧
  extractFinalityProviderPkHexFromStatsId id ≠ OutOfFuel.
Proof. unfold extractFinalityProviderPkHexFromStatsId. by case_decide. Qed.

(** The inner loop returns a map or an error, and it returns a map only if
    every id it met has the right format. *)
Lemma sumShards_cases fps m :
  (∃ m', sumShards fps m = Done m' ∧
         Forall (λ fp, returned (extractFinalityProviderPkHexFromStatsId (Id fp))
                       = true) fps) ∨
  (∃ e, sumShards fps m = Fail e).
Proof.
  revert m. induction fps as [|fp fps IH]; intros m; simpl.
  - left. by exists m.
  - destruct (extract_returns (Id fp)) as [Hp Ho].
    destruct (extractFinalityProviderPkHexFromStatsId (Id fp)) as [k|e| |]
      eqn:E; [|right; by eexists|done..].
    assert (returned (extractFinalityProviderPkHexFromStatsId (Id fp)) = true)
      as Hfp by by rewrite E.
    destruct (m !! k) as [existingFp|].
    + destruct (IH (<[k := addCounters existingFp fp]> m))
        as [(m' & -> & Hall)|[e ->]]; [left|right]; eauto.
    + match goal with |- context [ sumShards fps ?m1 ] =>
        destruct (IH m1) as [(m' & -> & Hall)|[e ->]] end;
        [left|right]; eauto.
Qed.

(** A stored shard document whose id has the wrong format makes the read
    fail, once its provider is asked for. *)
Lemma batchLoop_bad_id env bs pkHex db pk id :
  1 ≤ bs → id ∈ providerShardsId pk db →
  is_Some (FinalityProviderStatsCollection db !! id) →
  returned (extractFinalityProviderPkHexFromStatsId id) = false →
  ∀ fuel i m,
    0 ≤ i → (length (drop (Z.to_nat i) pkHex) < fuel)%nat →
    pk ∈ drop (Z.to_nat i) pkHex →
    ∃ e, batchLoop fuel env bs pkHex db i m = Fail e.
Proof.
  intros Hbs Hid [s Hs] Hbad fuel.
  induction fuel as [|fuel IH]; intros i m Hi Hfuel Hpk; [lia|].
  assert (i < Z.of_nat (length pkHex)) as Hlt.
  { destruct (decide (i < Z.of_nat (length pkHex))); [done|].
    rewrite drop_ge in Hpk by lia. by apply elem_of_nil in Hpk. }
  rewrite batchLoop_step by lia.
  set (rest := drop (Z.to_nat i) pkHex) in *.
  set (batch := take (Z.to_nat bs) rest).
  unfold Find_in.
  destruct (findErr (env i)); [by eexists|].
  destruct (getAllShardedFinalityProviderId batch db) as [|id0 ids] eqn:Eids;
    [by eexists|].
  destruct (allErr (env i)); [by eexists|].
  rewrite <-Eids. clear Eids id0 ids.
  match goal with |- context [ sumShards ?fps m ] =>
    destruct (sumShards_cases fps m) as [(m1 & -> & Hall)|[e ->]] end;
    [|by eexists].
  assert (drop (Z.to_nat (i + bs)) pkHex = drop (Z.to_nat bs) rest) as Hdrop.
  { subst rest. rewrite drop_drop. f_equal. lia. }
  rewrite <-(take_drop (Z.to_nat bs) rest) in Hpk.
  apply elem_of_app in Hpk as [Hpk|Hpk].
  - exfalso. rewrite Forall_forall in Hall.
    specialize (Hall (decodeStats id s)). simpl in Hall.
    rewrite Hbad in Hall. enough (false = true) by done. apply Hall.
    apply list_elem_of_omap. exists id. split; [|by rewrite Hs].
    apply elem_of_remove_dups. unfold getAllShardedFinalityProviderId.
    apply list_elem_of_bind. exists pk. split; [done|done].
  - apply IH; [lia| |by rewrite Hdrop].
    rewrite Hdrop, length_drop.
    assert (length rest ≠ 0%nat) by (subst rest; rewrite length_drop; lia).
    lia.
Qed.

End provider_reads.

(** ** The claims on the per-provider read *)

Section provider_claims.

Import db.

(** C8 (as amended).  For a list of distinct provider keys without colons,
    when no read fails, at least one shard is configured and the stored
    counters are 64-bit integers: with a batch size of at least 1,
    [FindFinalityProviderStatsByPkHex] returns a map in which each requested
    provider that has a stored shard maps to the sums of the four counters
    over its shard keys [pk:0 .. pk:LogicalShardCount-1] (as [int64]s), a
    requested provider without a stored shard has no entry, and nothing else
    has one; the same map is returned under every other batch size of at
    least 1. *)
Theorem provider_stats_by_pk env pkHex db :
  no_read_faults env →
  1 ≤ int_of_uint64 (LogicalShardCount (cfg db)) →
  1 ≤ int_of_uint64 (DbBatchSizeLimit (cfg db)) →
  NoDup pkHex → colon_free pkHex →
  collection_in_range (FinalityProviderStatsCollection db) →
  ∃ m, FindFinalityProviderStatsByPkHex env pkHex db = Done m ∧
       (∀ pk, pk ∈ pkHex → m !! pk = providerSummed pk db) ∧
       (∀ pk, pk ∉ pkHex → m !! pk = None) ∧
       (∀ limit env',
          1 ≤ int_of_uint64 limit → no_read_faults env' →
          FindFinalityProviderStatsByPkHex env' pkHex
            (with_DbBatchSizeLimit db limit) = Done m).
Proof.
  intros Henv Hc Hbs Hnd Hcf Hr.
  destruct (FindFinalityProviderStatsByPkHex_spec env pkHex db)
    as (m & Hm & Hlook); try done.
  exists m. split_and!; [done|..].
  - intros pk Hpk. by rewrite Hlook, decide_True.
  - intros pk Hpk. by rewrite Hlook, decide_False.
  - intros limit env' Hlimit Henv'.
    destruct (FindFinalityProviderStatsByPkHex_spec env' pkHex
                (with_DbBatchSizeLimit db limit))
      as (m2 & -> & Hlook2); try done.
    f_equal. apply map_eq. intros k. by rewrite Hlook, Hlook2.
Qed.

(** A read of keys none of whose shard documents is stored returns the map
    as it is. *)
Lemma batchLoop_nothing_stored env bs pkHex db :
  1 ≤ bs → no_read_faults env →
  1 ≤ int_of_uint64 (LogicalShardCount (cfg db)) →
  (∀ id, id ∈ getAllShardedFinalityProviderId pkHex db →
         FinalityProviderStatsCollection db !! id = None) →
  ∀ fuel i m,
    0 ≤ i → (length (drop (Z.to_nat i) pkHex) < fuel)%nat →
    batchLoop fuel env bs pkHex db i m = Done m.
Proof.
  intros Hbs Henv Hc Hnone fuel.
  induction fuel as [|fuel IH]; intros i m Hi Hfuel; [lia|].
  destruct (decide (i < Z.of_nat (length pkHex))) as [Hlt|Hge];
    [|by rewrite batchLoop_done by lia].
  rewrite batchLoop_step by lia.
  set (batch := take (Z.to_nat bs) (drop (Z.to_nat i) pkHex)).
  assert (Find_in (env i) (getAllShardedFinalityProviderId batch db)
            (FinalityProviderStatsCollection db) = Done []) as ->.
  { unfold Find_in. destruct (Henv i) as [-> ->].
    destruct (getAllShardedFinalityProviderId batch db) as [|id ids] eqn:E.
    - exfalso. subst batch.
      destruct (drop (Z.to_nat i) pkHex) as [|pk rest] eqn:Ed.
      + apply (f_equal length) in Ed. rewrite length_drop in Ed. simpl in Ed.
        lia.
      + destruct (Z.to_nat bs) as [|k] eqn:Ek; [lia|]. simpl in E.
        unfold getAllShardedFinalityProviderId in E. csimpl in E.
        apply app_eq_nil in E as [E _]. apply fmap_nil_inv in E.
        assert (0 ∈ seqZ 0 (int_of_uint64 (LogicalShardCount (cfg db))))
          as H0 by (apply elem_of_seqZ; lia).
        rewrite E in H0. by apply elem_of_nil in H0.
    - f_equal. rewrite <-E. clear E.
      assert (∀ id', id' ∈ remove_dups
                (getAllShardedFinalityProviderId batch db) →
              FinalityProviderStatsCollection db !! id' = None) as Habs.
      { intros id' Hid'. rewrite elem_of_remove_dups in Hid'. apply Hnone.
        unfold getAllShardedFinalityProviderId in *.
        apply list_elem_of_bind in Hid' as (pk & Hid' & Hpk).
        apply list_elem_of_bind. exists pk. split; [done|].
        eapply elem_of_sublist; [exact Hpk|].
        etrans; [apply sublist_take|apply sublist_drop]. }
      revert Habs.
      generalize (remove_dups (getAllShardedFinalityProviderId batch db)).
      intros l. induction l as [|x l IHl]; intros Habs; csimpl; [done|].
      rewrite Habs by apply list_elem_of_here. simpl.
      apply IHl. intros id' Hid'. apply Habs. by apply list_elem_of_further. }
  simpl. apply IH; [lia|]. rewrite !length_drop in *. lia.
Qed.
(** C10.  The id generated for a provider key without a colon and any shard
    index extracts back to that key, and so does every id
    [generateFinalityProviderStatsId] builds for it; for a key that holds a
    colon the extraction fails with the invalid-format error, and
    [FindFinalityProviderStatsByPkHex] fails as soon as such a key is asked
    for and one of its shard documents is stored; while no shard document of
    the keys asked for is stored, the read does not fail and returns the
    empty map. *)
Theorem shard_id_round_trip pk i :
  (Contains pk ":" = false →
     extractFinalityProviderPkHexFromStatsId (pk +:+ ":" +:+ Sprint i)
     = Done pk ∧
     ∀ rnd db id,
       generateFinalityProviderStatsId rnd pk db = Some id →
       id ∈ getAllShardedFinalityProviderId [pk] db ∧
       extractFinalityProviderPkHexFromStatsId id = Done pk) ∧
  (Contains pk ":" = true →
     extractFinalityProviderPkHexFromStatsId (pk +:+ ":" +:+ Sprint i)
     = Fail (InvalidIdFormatError (pk +:+ ":" +:+ Sprint i)) ∧
     (∀ env pkHex db,
        pk ∈ pkHex →
        1 ≤ int_of_uint64 (DbBatchSizeLimit (cfg db)) →
        0 ≤ i < int_of_uint64 (LogicalShardCount (cfg db)) →
        is_Some (FinalityProviderStatsCollection db
                   !! (pk +:+ ":" +:+ Sprint i)) →
        ∃ e, FindFinalityProviderStatsByPkHex env pkHex db = Fail e) ∧
     (∀ env pkHex db,
        pk ∈ pkHex →
        no_read_faults env →
        1 ≤ int_of_uint64 (DbBatchSizeLimit (cfg db)) →
        1 ≤ int_of_uint64 (LogicalShardCount (cfg db)) →
        (∀ id, id ∈ getAllShardedFinalityProviderId pkHex db →
               FinalityProviderStatsCollection db !! id = None) →
        FindFinalityProviderStatsByPkHex env pkHex db = Done ∅)).
Proof.
  split.
  - intros Hpk. split; [by apply extract_generated|].
    intros rnd db id Hid. unfold generateFinalityProviderStatsId in Hid.
    apply fmap_Some in Hid as (n & Hn & ->). apply Intn_range in Hn.
    split; [|by apply extract_generated].
    unfold getAllShardedFinalityProviderId. apply list_elem_of_bind.
    exists pk. split; [|apply list_elem_of_here]. apply list_elem_of_fmap. exists n. split; [done|].
    apply elem_of_seqZ. lia.
  - intros Hpk. split; [by apply extract_colon_in_pk|]. split.
    + intros env pkHex db Hin Hbs Hi Hstored.
      unfold FindFinalityProviderStatsByPkHex.
      eapply (batchLoop_bad_id env _ pkHex db pk); try done.
      * unfold providerShardsId. apply list_elem_of_fmap. exists i.
        split; [done|]. apply elem_of_seqZ. lia.
      * by rewrite extract_colon_in_pk.
      * rewrite length_drop. lia.
    + intros env pkHex db _ Henv Hbs Hc Hnone.
      unfold FindFinalityProviderStatsByPkHex.
      apply batchLoop_nothing_stored; try done.
      rewrite length_drop. lia.
Qed.

End provider_claims.

(** ** The delegation service and its handler *)

Section service_claims.

Import v1model v1dbclient types.

Context {S E : Type} `{!V1DBClient S E} `{!ErrorClass E}.
Context {Request Result : Type}.
Variable ParseTimestampToIsoFormat : Z → string.
Variable ParseTxHashQuery : Request → string → string + Error E.
Variable NewResult : v1service.DelegationPublic → Result.

(** Closes the cases of a classification: a result read off an equation,
    or an equivalence whose two sides are both true or both absurd. *)
Ltac svc_solve :=
  try done;
  try (intros ? [= <-]; done || congruence);
  try (by intros ->);
  try (by intros [??]);
  try (split;
       [ first [ by intros (? & ? & _)
               | by intros (? & [= <-] & ? & _)
               | intros _; by eexists ]
       | first [ by intros (? & ? & _)
               | intros (? & [= <-] & ?); congruence
               | intros _; by eexists ] ]).

(** For any storage client, [SaveActiveStakingDelegation] returns nil
    when the client reports no error or a duplicate-key error, and returns
    the internal-service error for every other error of the client, and for
    no other reason; the store is left as the client left it. *)
Lemma save_active_classifies s a :
  let stored := v1dbclient.SaveActiveStakingDelegation s a in
  let res :=
    v1service.SaveActiveStakingDelegation s (arg_txHashHex a)
      (arg_stakerPkHex a) (arg_finalityProviderPkHex a) (arg_value a)
      (arg_startHeight a) (arg_stakingTimestamp a) (arg_timeLock a)
      (arg_stakingOutputIndex a) (arg_stakingTxHex a) (arg_isOverflow a) in
  res.2 = stored.2 ∧
  (∀ err, stored.1 = Some err → IsDuplicateKeyError err = true →
          res.1 = None) ∧
  (stored.1 = None → res.1 = None) ∧
  (∀ err, stored.1 = Some err → IsDuplicateKeyError err = false →
          res.1 = Some (NewInternalServiceError err)) ∧
  (∀ e, res.1 = Some e →
        ∃ err, stored.1 = Some err ∧ IsDuplicateKeyError err = false ∧
               e = NewInternalServiceError err).
Proof.
  intros stored res. subst stored res.
  unfold v1service.SaveActiveStakingDelegation. destruct a; simpl.
  destruct (v1dbclient.SaveActiveStakingDelegation _ _) as [[err|] s']; simpl.
  - destruct (IsDuplicateKeyError err) eqn:Hd; simpl;
      split_and!; try done; intros; simplify_eq; try congruence.
    eexists. by split_and!.
  - by split_and!.
Qed.

(** C6.  [DelegationsByStakerPk] returns the 400 BadRequest error exactly
    when the client reports an invalid pagination token, and the
    internal-service error for every other error of the client; an error
    comes with the nil slice and the empty token, never with data; on
    success it returns the page, converted, and the continuation token, with
    a slice that is not nil even when the page is empty. *)
Theorem delegations_by_staker_pk s stakerPk state pageToken :
  let filter :=
    if decide (state ≠ "")
    then {| AfterTimestamp := 0; States := [state] |}
    else emptyFilter in
  let found := FindDelegationsByStakerPk s stakerPk filter pageToken in
  let res :=
    v1service.DelegationsByStakerPk ParseTimestampToIsoFormat s stakerPk state
      pageToken in
  ((∃ e, res.2 = Some e ∧ StatusCode e = StatusBadRequest ∧
         Code e = BadRequest) ↔
   (∃ err, found = inr err ∧ IsInvalidPaginationTokenError err = true)) ∧
  (∀ err, found = inr err → IsInvalidPaginationTokenError err = true →
          res = (None, "", Some (NewError StatusBadRequest BadRequest err))) ∧
  (∀ err, found = inr err → IsInvalidPaginationTokenError err = false →
          res = (None, "", Some (NewInternalServiceError err))) ∧
  (∀ resultMap, found = inl resultMap →
          res = (Some (v1service.FromDelegationDocument
                         ParseTimestampToIsoFormat <$> Data resultMap),
                 PaginationToken resultMap, None)) ∧
  (is_Some res.2 → res.1 = (None, "")) ∧
  (res.2 = None → is_Some res.1.1).
Proof.
  intros filter found res. subst res found filter.
  unfold v1service.DelegationsByStakerPk.
  destruct (FindDelegationsByStakerPk s stakerPk _ pageToken)
    as [resultMap|err]; simpl.
  - split_and!; svc_solve.
  - destruct (IsInvalidPaginationTokenError err) eqn:Hinv; simpl;
      split_and!; svc_solve.
Qed.

(** C9.  [GetDelegation] returns the document the client finds, the 404
    NotFound error exactly when the client reports not-found, and the
    internal-service error for every other error of the client; the handler
    [GetDelegationByTxHash] passes the error on as it is, and on success
    returns the public form of the document. *)
Theorem get_delegation s txHashHex request :
  let found := FindDelegationByTxHashHex s txHashHex in
  let res := v1service.GetDelegation s txHashHex in
  (∀ delegation, found = inl delegation → res = inl delegation) ∧
  ((∃ e, res = inr e ∧ StatusCode e = StatusNotFound ∧ Code e = NotFound) ↔
   (∃ err, found = inr err ∧ IsNotFoundError err = true)) ∧
  (∀ err, found = inr err → IsNotFoundError err = true →
          res = inr (NewErrorWithMsg StatusNotFound NotFound
                       "staking delegation not found, please retry")) ∧
  (∀ err, found = inr err → IsNotFoundError err = false →
          res = inr (NewInternalServiceError err)) ∧
  (ParseTxHashQuery request "staking_tx_hash_hex" = inl txHashHex →
   v1handlers.GetDelegationByTxHash ParseTimestampToIsoFormat ParseTxHashQuery
     NewResult s request
   = match res with
     | inl delegation =>
         inl (NewResult
                (v1service.FromDelegationDocument ParseTimestampToIsoFormat
                   delegation))
     | inr e => inr e
     end).
Proof.
  intros found res.
  split_and!;
    [| | | |intros Hp; unfold v1handlers.GetDelegationByTxHash;
            by rewrite Hp].
  all: subst res found; unfold v1service.GetDelegation;
    destruct (FindDelegationByTxHashHex s txHashHex) as [d|err]; simpl;
    [|destruct (IsNotFoundError err) eqn:Hnf]; svc_solve.
Qed.

End service_claims.

Section store_claims.

Import v1model v1dbclient types memstore.

(** C5.  The service on top of the store: a creation for a hash that is
    already stored returns nil and leaves the store, and so the stored
    document, as it is; whatever the store held, delivering the same
    creation a second time returns nil and changes nothing.  For any client,
    nil is returned for a duplicate-key error, and the internal-service
    error is returned only for the other errors of the client. *)
Theorem save_active_is_idempotent (s : gmap string DelegationDocument) a :
  let save (s : gmap string DelegationDocument) :=
    v1service.SaveActiveStakingDelegation s (arg_txHashHex a)
      (arg_stakerPkHex a) (arg_finalityProviderPkHex a) (arg_value a)
      (arg_startHeight a) (arg_stakingTimestamp a) (arg_timeLock a)
      (arg_stakingOutputIndex a) (arg_stakingTxHex a) (arg_isOverflow a) in
  (is_Some (s !! arg_txHashHex a) → save s = (None, s)) ∧
  (save s).1 = None ∧
  save (save s).2 = (None, (save s).2) ∧
  (∀ (S E : Type) (client : V1DBClient S E) (cls : ErrorClass E) (st : S),
     let stored := v1dbclient.SaveActiveStakingDelegation st a in
     let res :=
       v1service.SaveActiveStakingDelegation st (arg_txHashHex a)
         (arg_stakerPkHex a) (arg_finalityProviderPkHex a) (arg_value a)
         (arg_startHeight a) (arg_stakingTimestamp a) (arg_timeLock a)
         (arg_stakingOutputIndex a) (arg_stakingTxHex a) (arg_isOverflow a) in
     res.2 = stored.2 ∧
     (∀ err, stored.1 = Some err → IsDuplicateKeyError err = true →
             res.1 = None) ∧
     (∀ e, res.1 = Some e →
           ∃ err, stored.1 = Some err ∧ IsDuplicateKeyError err = false ∧
                  e = NewInternalServiceError err)).
Proof.
  intros save.
  assert (Hdup : ∀ s : gmap string DelegationDocument,
            is_Some (s !! arg_txHashHex a) → save s = (None, s)).
  { intros s0 [d Hd]. subst save. simpl.
    unfold v1service.SaveActiveStakingDelegation. destruct a; simpl in *.
    unfold createActive. simpl. by rewrite Hd. }
  assert (Hfirst : (save s).1 = None ∧ is_Some ((save s).2 !! arg_txHashHex a)).
  { destruct (s !! arg_txHashHex a) as [d|] eqn:Hd.
    - rewrite Hdup by eauto. simpl. eauto.
    - subst save. simpl.
      unfold v1service.SaveActiveStakingDelegation. destruct a; simpl in *.
      unfold createActive. simpl. rewrite Hd. simpl.
      rewrite lookup_insert_eq. eauto. }
  split_and!.
  - apply Hdup.
  - apply Hfirst.
  - apply Hdup, Hfirst.
  - intros S E client cls st.
    destruct (save_active_classifies st a) as (H1 & H2 & _ & _ & H5).
    by split_and!.
Qed.

End store_claims.

(** ** Withdraw events that arrive out of order *)

Section processor_claims.

Import processor.

Lemma withdraw_when_withdrawn n d :
  State d = Withdrawn →
  processAll (replicate n Withdraw) d = (d, replicate n Ack, 0%nat).
Proof.
  intros Hd. induction n as [|n IH]; simpl; [done|].
  rewrite Hd, IH. by rewrite decide_True.
Qed.

(** C3.  A Withdraw event processed while the document is Active or
    UnbondingRequested leaves the document as it is and asks for
    redelivery.  Once the document is Unbonded, any number of Withdraw
    events, the first delivery and its redeliveries, move it to Withdrawn,
    change it exactly once and are all acknowledged.  A Withdraw event on a
    Withdrawn document changes nothing and is acknowledged.  In the order of
    the test (Withdraw, Timelock-expired, Withdraw again, and once more) the
    document is changed twice, by the expiry and by the first Withdraw after
    it. *)
Theorem withdraw_out_of_order d n :
  (State d = Active ∨ State d = UnbondingRequested →
     processEvent Withdraw d = (d, Redeliver)) ∧
  (State d = Unbonded →
     processAll (replicate (S n) Withdraw) d
     = (setState d Withdrawn, replicate (S n) Ack, 1%nat)) ∧
  (State d = Withdrawn → processEvent Withdraw d = (d, Ack)) ∧
  (State d = Active →
     processAll [Withdraw; TimelockExpired ActiveTxType; Withdraw; Withdraw] d
     = (setState d Withdrawn, [Redeliver; Ack; Ack; Ack], 2%nat)).
Proof.
  split_and!.
  - intros [Hd|Hd]; simpl; by rewrite Hd.
  - intros Hd. simpl. rewrite Hd.
    rewrite withdraw_when_withdrawn by done.
    rewrite decide_False; [done|]. intros Heq.
    apply (f_equal State) in Heq. simpl in Heq. congruence.
  - intros Hd. simpl. by rewrite Hd.
  - intros Hd. destruct d as [h v u st]. simpl in *. subst st. simpl.
    by repeat (case_decide; simplify_eq/=).
Qed.

End processor_claims.

(** ** The claims at concrete inputs *)

Section concrete.

Import db examples.

(** C1 fails for a value of 2^63: one increment returns nil, and the total
    read back is -2^63, not 2^63. *)
Lemma overall_stats_totals_counterexample :
  let v := 2 ^ 63 in
  let run :=
    execAll (incrementCalls v [(noFaults 0, "tx1")] ++ subtractCalls v [])
      lockedDb in
  in_uint64 v ∧
  OverallStatsCollection lockedDb = ∅ ∧
  run.1 = true ∧
  GetOverallStats noReadFaults run.2
  = Done {| Id := ""; ActiveTvl := - 2 ^ 63; TotalTvl := - 2 ^ 63;
            ActiveDelegations := 1; TotalDelegations := 1 |} ∧
  GetOverallStats noReadFaults run.2
  ≠ Done {| Id := ""; ActiveTvl := (1 - 0) * v; TotalTvl := 1 * v;
            ActiveDelegations := 1 - 0; TotalDelegations := 1 |}.
Proof.
  assert (H :
    GetOverallStats noReadFaults
      (execAll (incrementCalls (2 ^ 63) [(noFaults 0, "tx1")]
                ++ subtractCalls (2 ^ 63) []) lockedDb).2
    = Done {| Id := ""; ActiveTvl := - 2 ^ 63; TotalTvl := - 2 ^ 63;
              ActiveDelegations := 1; TotalDelegations := 1 |})
    by (vm_compute; reflexivity).
  intros v run. subst v run. split_and!.
  - unfold in_uint64, uint64_max. lia.
  - reflexivity.
  - vm_compute. reflexivity.
  - exact H.
  - rewrite H. intros [= Habs].
Qed.

(** C7 fails for an amount of 2^64-1: the call returns nil and the active
    TVL of the shard goes from 0 to 1, not down by the amount. *)
Lemma subtract_overall_counterexample :
  let amount := 2 ^ 64 - 1 in
  let res := SubtractOverallStats (noFaults 0) "tx1" amount lockedDb in
  in_uint64 amount ∧
  res.1 = Done () ∧
  active_tvl (shardStats (OverallStatsCollection lockedDb) "0") = 0 ∧
  active_tvl (shardStats (OverallStatsCollection res.2) "0") = 1 ∧
  active_tvl (shardStats (OverallStatsCollection res.2) "0")
  ≠ active_tvl (shardStats (OverallStatsCollection lockedDb) "0") - amount.
Proof.
  intros amount res. subst amount res. split_and!.
  - unfold in_uint64, uint64_max. lia.
  - vm_compute. reflexivity.
  - vm_compute. reflexivity.
  - vm_compute. reflexivity.
  - vm_compute. intros [=].
Qed.

(** C8 fails for a list that names a provider twice: with a batch size of 1
    its shard is added twice, with a batch size of 2 once. *)
Lemma provider_stats_counterexample :
  let summed (active total : Z) (count : Z) : StatsDocument :=
    {| Id := ""; ActiveTvl := active; TotalTvl := total;
       ActiveDelegations := count; TotalDelegations := count |} in
  FindFinalityProviderStatsByPkHex noBatchFaults ["a"; "a"] (providerDb 1)
  = Done {[ "a" := summed 10 10 2 ]} ∧
  FindFinalityProviderStatsByPkHex noBatchFaults ["a"; "a"] (providerDb 2)
  = Done {[ "a" := summed 5 5 1 ]} ∧
  providerSummed "a" (providerDb 1) = Some (summed 5 5 1) ∧
  FindFinalityProviderStatsByPkHex noBatchFaults ["a"; "a"] (providerDb 1)
  ≠ FindFinalityProviderStatsByPkHex noBatchFaults ["a"; "a"] (providerDb 2).
Proof.
  intros summed. subst summed. split_and!.
  - vm_compute. reflexivity.
  - vm_compute. reflexivity.
  - vm_compute. reflexivity.
  - vm_compute. intros [=].
Qed.


(** C10 fails for a key with a colon of which no shard document is stored:
    the read returns the empty map. *)
Lemma shard_id_round_trip_counterexample :
  Contains "a:b" ":" = true ∧
  FindFinalityProviderStatsByPkHex noBatchFaults ["a:b"] (providerDb 1)
  = Done ∅ ∧
  FindFinalityProviderStatsByPkHex noBatchFaults ["a"; "a:b"] (providerDb 1)
  = Done {[ "a" := {| Id := ""; ActiveTvl := 5; TotalTvl := 5;
                      ActiveDelegations := 1; TotalDelegations := 1 |} ]}.
Proof.
  split_and!.
  - reflexivity.
  - vm_compute. reflexivity.
  - vm_compute. reflexivity.
Qed.

(** Two increments and one subtraction of 10000, on whichever shards. *)
Lemma overall_stats_totals_witness :
  GetOverallStats noReadFaults
    (execAll (incrementCalls 10000 [(noFaults 0, "tx1"); (noFaults 1, "tx2")]
              ++ subtractCalls 10000 [(noFaults 5, "tx1")]) lockedDb).2
  = Done {| Id := ""; ActiveTvl := 10000; TotalTvl := 20000;
            ActiveDelegations := 1; TotalDelegations := 2 |}.
Proof.
  apply (overall_stats_totals 10000
           [(noFaults 0, "tx1"); (noFaults 1, "tx2")] [(noFaults 5, "tx1")]
           lockedDb _ noReadFaults).
  - reflexivity.
  - vm_compute. discriminate.
  - lia.
  - simpl. lia.
  - vm_compute. discriminate.
  - vm_compute. discriminate.
  - vm_compute. reflexivity.
  - reflexivity.
  - reflexivity.
Defined.


Lemma withdraw_out_of_order_witness :
  processor.processAll
    [processor.Withdraw; processor.TimelockExpired processor.ActiveTxType;
     processor.Withdraw; processor.Withdraw] activeDocument
  = (processor.setState activeDocument processor.Withdrawn,
     [processor.Redeliver; processor.Ack; processor.Ack; processor.Ack],
     2%nat).
Proof.
  apply (proj2 (proj2 (proj2 (withdraw_out_of_order activeDocument 0)))).
  reflexivity.
Defined.

Lemma stats_lock_monotone_witness :
  StatsLockCollection
    (GetOrCreateStatsLock NoFault "tx3" Active_ToString lockedDb).2
    !! "tx3:active"
  = Some (NewStatsLockDocument "tx3:active" false false false) ∧
  (GetOrCreateStatsLock NoFault "tx1" Active_ToString lockedDb).2 = lockedDb.
Proof.
  split.
  - apply (stats_lock_monotone NoFault None "tx3" Active_ToString
             "overall_stats" [] lockedDb).
    + vm_compute. reflexivity.
    + intros e. discriminate.
  - apply (stats_lock_monotone NoFault None "tx1" Active_ToString
             "overall_stats" [] lockedDb).
    eexists. vm_compute. reflexivity.
Defined.

Lemma save_active_is_idempotent_witness :
  v1service.SaveActiveStakingDelegation oneDelegation "tx1" "staker" "a"
    10000 100 1700000000 200 1 "00" false
  = (None, oneDelegation).
Proof.
  apply (proj1 (save_active_is_idempotent oneDelegation (activeArgs "tx1"))).
  eexists. vm_compute. reflexivity.
Defined.

Lemma delegations_by_staker_pk_witness :
  v1service.DelegationsByStakerPk Sprint oneDelegation "staker" "" "bogus"
  = (None, "",
     Some (types.NewError types.StatusBadRequest types.BadRequest
             (InvalidPaginationTokenError "invalid pagination token"))).
Proof.
  apply (delegations_by_staker_pk Sprint oneDelegation "staker" "" "bogus");
    reflexivity.
Defined.

Lemma subtract_overall_frame_witness :
  ∃ n, Intn 1 2 = Some n ∧
       active_tvl
         (shardStats
            (OverallStatsCollection
               (SubtractOverallStats (noFaults 1) "tx1" 10000 lockedDb).2)
            (Sprint n))
       = active_tvl (shardStats (OverallStatsCollection lockedDb) (Sprint n))
         - 10000.
Proof.
  destruct (subtract_overall_frame (noFaults 1) "tx1" 10000 lockedDb)
    as (_ & _ & Hdone).
  destruct (Hdone ltac:(vm_compute; reflexivity)) as (n & Hn & _ & _ & _ & Ha).
  exists n. split; [exact Hn|]. apply Ha. lia.
Defined.

Lemma provider_stats_by_pk_witness :
  ∃ m, FindFinalityProviderStatsByPkHex noBatchFaults ["a"] (providerDb 1)
       = Done m ∧
       m !! "a" = providerSummed "a" (providerDb 1).
Proof.
  destruct (provider_stats_by_pk noBatchFaults ["a"] (providerDb 1))
    as (m & Hm & Hin & _).
  - intros i. split; reflexivity.
  - vm_compute. discriminate.
  - vm_compute. discriminate.
  - apply NoDup_singleton.
  - repeat constructor.
  - apply map_Forall_singleton. vm_compute. repeat split; discriminate.
  - exists m. split; [exact Hm|]. apply Hin. apply list_elem_of_here.
Defined.

Lemma get_delegation_witness :
  v1service.GetDelegation (∅ : gmap string v1model.DelegationDocument) "tx9"
  = inr (types.NewErrorWithMsg types.StatusNotFound types.NotFound
           "staking delegation not found, please retry").
Proof.
  destruct (get_delegation (Request := string) Sprint (λ r _, inl r) id
              (∅ : gmap string v1model.DelegationDocument) "tx9" "tx9")
    as (_ & _ & Hnf & _).
  apply (Hnf (NotFoundError "tx9" "delegation not found")); reflexivity.
Defined.

Lemma shard_id_round_trip_witness :
  extractFinalityProviderPkHexFromStatsId "a:0" = Done "a" ∧
  (∃ e, FindFinalityProviderStatsByPkHex noBatchFaults ["a:b"] colonDb
        = Fail e) ∧
  FindFinalityProviderStatsByPkHex noBatchFaults ["a:b"] (emptyDb 2 1)
  = Done ∅.
Proof.
  split; [|split].
  - apply (proj1 (shard_id_round_trip "a" 0)). reflexivity.
  - apply (proj1 (proj2 (proj2 (shard_id_round_trip "a:b" 0) eq_refl))).
    + apply list_elem_of_here.
    + vm_compute. discriminate.
    + vm_compute. split; [discriminate|reflexivity].
    + eexists. vm_compute. reflexivity.
  - apply (proj2 (proj2 (proj2 (shard_id_round_trip "a:b" 0) eq_refl))).
    + apply list_elem_of_here.
    + intros j. split; reflexivity.
    + vm_compute. discriminate.
    + vm_compute. discriminate.
    + intros id _. reflexivity.
Defined.

End concrete.

(** * Further properties of the code *)

(** ** Lock keys and lock families *)

Section lock_keys.

Import db.

Lemma Contains_app_sep a b sep : Contains (a +:+ String sep b) sep = true.
Proof.
  induction a as [|c a IH]; simpl; [by rewrite decide_True|].
  by case_decide.
Qed.

Lemma string_app_assoc (a b c : string) : (a +:+ b) +:+ c = a +:+ (b +:+ c).
Proof.
  induction a as [|x a IH]; [done|].
  change (String x ((a +:+ b) +:+ c) = String x (a +:+ b +:+ c)).
  by rewrite IH.
Qed.

(** Two strings joined by a colon are told apart by what follows the last
    colon. *)
Lemma colon_suffix_inj a b x y :
  Contains x ":" = false → Contains y ":" = false →
  a +:+ String ":" x = b +:+ String ":" y → a = b ∧ x = y.
Proof.
  intros Hx Hy. revert b. induction a as [|c a IH]; intros [|c' b]; simpl.
  - by intros [= ->].
  - intros [= <- ->]. by rewrite Contains_app_sep in Hx.
  - intros [= -> <-]. by rewrite Contains_app_sep in Hy.
  - intros [= -> H]. destruct (IH _ H) as [-> ->]. done.
Qed.

(** And by what precedes the first colon. *)
Lemma colon_prefix_inj a b x y :
  Contains a ":" = false → Contains b ":" = false →
  a +:+ String ":" x = b +:+ String ":" y → a = b ∧ x = y.
Proof.
  revert b. induction a as [|c a IH]; intros [|c' b]; simpl.
  - by intros _ _ [= ->].
  - intros _ Hb [= <- _]. by rewrite decide_True in Hb.
  - intros Ha _ [= -> _]. by rewrite decide_True in Ha.
  - destruct (decide (c = ":"%char)); [done|].
    destruct (decide (c' = ":"%char)); [done|].
    intros Ha Hb [= -> Heq]. destruct (IH _ Ha Hb Heq) as [-> ->]. done.
Qed.

Lemma lock_field_set_other f f' d :
  f' ≠ f → lock_field f' (set_lock_field f d) = lock_field f' d.
Proof.
  intros Hne. unfold lock_field, set_lock_field.
  repeat case_decide; simplify_eq/=; done.
Qed.

Lemma applied_lock_frame fieldName lockId shardId upd locks locks' coll coll'
    f' h' s' :
  applied fieldName lockId shardId upd locks locks' coll coll' →
  f' ≠ fieldName ∨ constructStatsLockId h' s' ≠ lockId →
  locks' !! constructStatsLockId h' s' ≫= lock_field f'
  = locks !! constructStatsLockId h' s' ≫= lock_field f'.
Proof.
  intros (d & new & Hd & _ & -> & _) Hne.
  destruct (decide (constructStatsLockId h' s' = lockId)) as [Heq|Hid].
  - rewrite Heq, lookup_insert_eq, Hd. simpl.
    destruct Hne as [Hf|Hf]; [by apply lock_field_set_other|done].
  - by rewrite lookup_insert_ne.
Qed.

(** X1.  The lock key [stakingTxHash:state] identifies the pair of a
    transaction and a state when the transaction hashes hold no colon (they
    are hex strings); in general it does not, as the colon of the key can
    be read at either place. *)
Theorem constructStatsLockId_inj h1 s1 h2 s2 :
  (Contains h1 ":" = false → Contains h2 ":" = false →
   constructStatsLockId h1 s1 = constructStatsLockId h2 s2 →
   h1 = h2 ∧ s1 = s2) ∧
  constructStatsLockId (h1 +:+ ":" +:+ s1) s2
  = constructStatsLockId h1 (s1 +:+ ":" +:+ s2).
Proof.
  split.
  - intros H1 H2 Heq. by apply (colon_prefix_inj h1 h2 s1 s2).
  - unfold constructStatsLockId. by rewrite !string_app_assoc.
Qed.

(** X2.  A stats update touches one boolean of one lock record: after
    [updateOverallStats] or [updateFinalityProviderStats], whatever it
    returned, the boolean of every other stats family and the booleans of
    every other lock key read as before.  So the two families are applied
    independently for the same transaction. *)
Theorem stats_update_lock_frame env state h pk upd db f' h' s' :
  (f' ≠ "overall_stats" ∨
   constructStatsLockId h' s' ≠ constructStatsLockId h state →
   lock_state f' h' s' (updateOverallStats env state h upd db).2
   = lock_state f' h' s' db) ∧
  (f' ≠ "finality_provider_stats" ∨
   constructStatsLockId h' s' ≠ constructStatsLockId h state →
   lock_state f' h' s' (updateFinalityProviderStats env state h pk upd db).2
   = lock_state f' h' s' db).
Proof.
  split; intros Hne; unfold lock_state.
  - destruct (updateOverallStats env state h upd db) as [r db'] eqn:E.
    destruct (updateOverallStats_cases _ _ _ _ _ _ _ E)
      as [[_ ->]|(_ & _ & _ & _ & _ & n & _ & _ & _ & Happ)]; [done|].
    simpl. by eapply applied_lock_frame.
  - destruct (updateFinalityProviderStats env state h pk upd db)
      as [r db'] eqn:E.
    destruct (updateFinalityProviderStats_cases _ _ _ _ _ _ _ _ E)
      as [[_ ->]|(_ & _ & _ & _ & _ & n & _ & _ & _ & Happ)]; [done|].
    simpl. by eapply applied_lock_frame.
Qed.

End lock_keys.

(** ** A stats update is applied at most once *)

Section exactly_once.

Import db.

Lemma lock_state_true_le f h s db db' :
  locks_le (StatsLockCollection db) (StatsLockCollection db') →
  lock_state f h s db = Some true → lock_state f h s db' = Some true.
Proof.
  unfold lock_state. intros Hle Hs.
  destruct (StatsLockCollection db !! constructStatsLockId h s) as [d|] eqn:Hd;
    [|done].
  destruct (Hle _ _ Hd) as (d' & -> & _ & H1 & H2 & H3). simpl in *.
  unfold lock_field in *. repeat case_decide; simplify_eq/=; f_equal; auto.
Qed.

Lemma applied_lock_true fieldName h state shardId upd db db' coll coll' :
  applied fieldName (constructStatsLockId h state) shardId upd
    (StatsLockCollection db) (StatsLockCollection db') coll coll' →
  lock_state fieldName h state db = Some false ∧
  lock_state fieldName h state db' = Some true.
Proof.
  intros (d & new & Hd & Hf & Hl & _). unfold lock_state.
  rewrite Hd, Hl, lookup_insert_eq. simpl. split; [done|].
  by eapply lock_field_set.
Qed.

Lemma updateOverallStats_done_lock env state h upd db :
  (updateOverallStats env state h upd db).1 = Done () →
  lock_state "overall_stats" h state db = Some false ∧
  lock_state "overall_stats" h state (updateOverallStats env state h upd db).2
  = Some true.
Proof.
  destruct (updateOverallStats env state h upd db) as [r db'] eqn:E.
  destruct (updateOverallStats_cases _ _ _ _ _ _ _ E)
    as [[Hr _]|(_ & _ & _ & _ & _ & n & _ & _ & _ & Happ)]; [done|].
  intros _. by eapply applied_lock_true.
Qed.

Lemma updateFinalityProviderStats_done_lock env state h pk upd db :
  (updateFinalityProviderStats env state h pk upd db).1 = Done () →
  lock_state "finality_provider_stats" h state db = Some false ∧
  lock_state "finality_provider_stats" h state
    (updateFinalityProviderStats env state h pk upd db).2 = Some true.
Proof.
  destruct (updateFinalityProviderStats env state h pk upd db)
    as [r db'] eqn:E.
  destruct (updateFinalityProviderStats_cases _ _ _ _ _ _ _ _ E)
    as [[Hr _]|(_ & _ & _ & _ & _ & n & _ & _ & _ & Happ)]; [done|].
  intros _. by eapply applied_lock_true.
Qed.

(** X3.  Once a stats update of a transaction and state has returned nil,
    no later update of the same family for that transaction and state
    returns nil or changes the database, whatever calls of the package ran
    in between, with whatever amounts, shards and driver failures. *)
Theorem stats_update_at_most_once env1 state h pk1 upd1 db cs env2 pk2 upd2 :
  ((updateOverallStats env1 state h upd1 db).1 = Done () →
   let later := (execAll cs (updateOverallStats env1 state h upd1 db).2).2 in
   (updateOverallStats env2 state h upd2 later).1 ≠ Done () ∧
   (updateOverallStats env2 state h upd2 later).2 = later) ∧
  ((updateFinalityProviderStats env1 state h pk1 upd1 db).1 = Done () →
   let later :=
     (execAll cs (updateFinalityProviderStats env1 state h pk1 upd1 db).2).2 in
   (updateFinalityProviderStats env2 state h pk2 upd2 later).1 ≠ Done () ∧
   (updateFinalityProviderStats env2 state h pk2 upd2 later).2 = later).
Proof.
  split; intros Hdone later.
  - apply updateOverallStats_done_lock in Hdone as [_ Htrue].
    apply (lock_state_true_le _ _ _ _ later) in Htrue;
      [|apply execAll_locks_le].
    pose proof (updateOverallStats_done_lock env2 state h upd2 later) as Hl.
    destruct (updateOverallStats env2 state h upd2 later) as [r db'] eqn:E.
    destruct (updateOverallStats_cases _ _ _ _ _ _ _ E)
      as [[Hr ->]|(-> & _)]; [done|].
    destruct (Hl eq_refl) as [Hfalse _]. congruence.
  - apply updateFinalityProviderStats_done_lock in Hdone as [_ Htrue].
    apply (lock_state_true_le _ _ _ _ later) in Htrue;
      [|apply execAll_locks_le].
    pose proof (updateFinalityProviderStats_done_lock env2 state h pk2 upd2
                  later) as Hl.
    destruct (updateFinalityProviderStats env2 state h pk2 upd2 later)
      as [r db'] eqn:E.
    destruct (updateFinalityProviderStats_cases _ _ _ _ _ _ _ _ E)
      as [[Hr ->]|(-> & _)]; [done|].
    destruct (Hl eq_refl) as [Hfalse _]. congruence.
Qed.

(** X4.  [GetOrCreateStatsLock] reads back what the updates wrote: without a
    driver failure it returns the stored record of the key, creating it
    first if need be; a second call returns the same record and leaves the
    database as it is; and after an update of the overall stats returned
    nil, the record it returns has [OverallStats] set. *)
Theorem get_or_create_reads_back env state h upd db :
  let first := GetOrCreateStatsLock NoFault h state db in
  let id := constructStatsLockId h state in
  (∃ d, first.1 = Done d ∧ StatsLockCollection first.2 !! id = Some d ∧
        GetOrCreateStatsLock NoFault h state first.2 = (Done d, first.2)) ∧
  ((updateOverallStats env state h upd db).1 = Done () →
   ∃ d, GetOrCreateStatsLock NoFault h state
          (updateOverallStats env state h upd db).2
        = (Done d, (updateOverallStats env state h upd db).2) ∧
        OverallStats d = true).
Proof.
  intros first id. split.
  - subst first. unfold GetOrCreateStatsLock. fold id.
    destruct (StatsLockCollection db !! id) as [d|] eqn:Hd; simpl.
    + exists d. by rewrite Hd.
    + eexists. split; [done|]. rewrite lookup_insert_eq. done.
  - intros Hdone. apply updateOverallStats_done_lock in Hdone as [_ Htrue].
    unfold lock_state in Htrue. fold id in Htrue.
    unfold GetOrCreateStatsLock. fold id.
    destruct (StatsLockCollection _ !! id) as [d|]; [|done].
    exists d. split; [done|]. simpl in Htrue. unfold lock_field in Htrue.
    rewrite decide_True in Htrue by done. congruence.
Qed.

End exactly_once.

(** ** Changing the number of logical shards *)

Section shard_count.

Import db.

Lemma exec_cfg c db : cfg (exec c db).2 = cfg db.
Proof.
  destruct c; simpl.
  - destruct (GetOrCreateStatsLock _ _ _ db) as [r db'] eqn:E. simpl.
    unfold GetOrCreateStatsLock in E. repeat case_match; by simplify_eq.
  - unfold IncrementOverallStats.
    destruct (updateOverallStats _ _ _ _ db) as [r db'] eqn:E.
    by destruct (updateOverallStats_cases _ _ _ _ _ _ _ E)
      as [[_ ->]|(_ & _ & _ & _ & _ & n & _ & ? & _)].
  - unfold SubtractOverallStats.
    destruct (updateOverallStats _ _ _ _ db) as [r db'] eqn:E.
    by destruct (updateOverallStats_cases _ _ _ _ _ _ _ E)
      as [[_ ->]|(_ & _ & _ & _ & _ & n & _ & ? & _)].
  - unfold IncrementFinalityProviderStats.
    destruct (updateFinalityProviderStats _ _ _ _ _ db) as [r db'] eqn:E.
    by destruct (updateFinalityProviderStats_cases _ _ _ _ _ _ _ _ E)
      as [[_ ->]|(_ & _ & _ & _ & _ & n & _ & ? & _)].
  - unfold SubtractFinalityProviderStats.
    destruct (updateFinalityProviderStats _ _ _ _ _ db) as [r db'] eqn:E.
    by destruct (updateFinalityProviderStats_cases _ _ _ _ _ _ _ _ E)
      as [[_ ->]|(_ & _ & _ & _ & _ & n & _ & ? & _)].
Qed.

Lemma execAll_cfg cs db : cfg (execAll cs db).2 = cfg db.
Proof.
  revert db. induction cs as [|c cs IH]; intros db; simpl; [done|].
  pose proof (exec_cfg c db) as Hc. destruct (exec c db) as [ok db1].
  specialize (IH db1). destruct (execAll cs db1) as [oks db2]. simpl in *.
  congruence.
Qed.

(** The keys of the overall stats are shard numbers below the shard count. *)
Lemma updateOverallStats_keys env state h upd db :
  (∀ id, is_Some (OverallStatsCollection db !! id) → id ∈ overallShardsId db) →
  ∀ id, is_Some (OverallStatsCollection
                   (updateOverallStats env state h upd db).2 !! id) →
        id ∈ overallShardsId db.
Proof.
  intros Hin id.
  destruct (updateOverallStats env state h upd db) as [r db'] eqn:E.
  destruct (updateOverallStats_cases _ _ _ _ _ _ _ E)
    as [[_ ->]|(_ & _ & _ & _ & _ & n & Hn & _ & _ & Happ)]; [by auto|].
  destruct Happ as (d & new & _ & _ & _ & _ & Hc). simpl. rewrite Hc.
  destruct (decide (id = Sprint n)) as [->|Hne].
  - intros _. apply overallShardsId_elem. by eapply Intn_range.
  - rewrite lookup_insert_ne by done. auto.
Qed.

Lemma exec_overall_keys c db :
  (∀ id, is_Some (OverallStatsCollection db !! id) → id ∈ overallShardsId db) →
  ∀ id, is_Some (OverallStatsCollection (exec c db).2 !! id) →
        id ∈ overallShardsId db.
Proof.
  intros Hin. destruct c; simpl.
  - destruct (GetOrCreateStatsLock _ _ _ db) as [r db'] eqn:E. simpl.
    unfold GetOrCreateStatsLock in E. repeat case_match; by simplify_eq.
  - pose proof (updateOverallStats_keys env Active_ToString stakingTxHashHex
      {| active_tvl := int64_of_uint64 amount;
         total_tvl := int64_of_uint64 amount;
         active_delegations := 1; total_delegations := 1 |} db Hin) as H.
    unfold IncrementOverallStats. by destruct (updateOverallStats _ _ _ _ _).
  - pose proof (updateOverallStats_keys env Unbonded_ToString stakingTxHashHex
      {| active_tvl := int64_neg (int64_of_uint64 amount); total_tvl := 0;
         active_delegations := -1; total_delegations := 0 |} db Hin) as H.
    unfold SubtractOverallStats. by destruct (updateOverallStats _ _ _ _ _).
  - unfold IncrementFinalityProviderStats.
    destruct (updateFinalityProviderStats _ _ _ _ _ db) as [r db'] eqn:E.
    destruct (updateFinalityProviderStats_cases _ _ _ _ _ _ _ _ E)
      as [[_ ->]|(_ & _ & _ & _ & _ & n & _ & _ & Ho & _)]; simpl;
      [done|by rewrite Ho].
  - unfold SubtractFinalityProviderStats.
    destruct (updateFinalityProviderStats _ _ _ _ _ db) as [r db'] eqn:E.
    destruct (updateFinalityProviderStats_cases _ _ _ _ _ _ _ _ E)
      as [[_ ->]|(_ & _ & _ & _ & _ & n & _ & _ & Ho & _)]; simpl;
      [done|by rewrite Ho].
Qed.

Lemma execAll_overall_keys cs db :
  (∀ id, is_Some (OverallStatsCollection db !! id) → id ∈ overallShardsId db) →
  ∀ id, is_Some (OverallStatsCollection (execAll cs db).2 !! id) →
        id ∈ overallShardsId db.
Proof.
  revert db. induction cs as [|c cs IH]; intros db Hin; simpl; [done|].
  pose proof (exec_overall_keys c db Hin) as Hc.
  pose proof (exec_cfg c db) as Hcfg.
  destruct (exec c db) as [ok db1]. simpl in *.
  assert (overallShardsId db1 = overallShardsId db) as Hids
    by (unfold overallShardsId; by rewrite Hcfg).
  specialize (IH db1). rewrite Hids in IH. specialize (IH Hc).
  by destruct (execAll cs db1) as [oks db2].
Qed.

Lemma omap_stats_ext (coll coll' : gmap string Stats) (ids : list string) :
  (∀ id, id ∈ ids → coll' !! id = coll !! id) →
  omap (λ id, decodeStats id <$> coll' !! id) ids
  = omap (λ id, decodeStats id <$> coll !! id) ids.
Proof.
  induction ids as [|id ids IH]; intros Heq; csimpl; [done|].
  rewrite Heq by apply list_elem_of_here.
  rewrite IH; [done|]. intros id' Hid'. apply Heq. by apply list_elem_of_further.
Qed.

Lemma omap_stats_absent (coll : gmap string Stats) (ids : list string) :
  (∀ id, id ∈ ids → coll !! id = None) →
  omap (λ id, decodeStats id <$> coll !! id) ids = [].
Proof.
  induction ids as [|id ids IH]; intros Hnone; csimpl; [done|].
  rewrite Hnone by apply list_elem_of_here. simpl.
  apply IH. intros id' Hid'. apply Hnone. by apply list_elem_of_further.
Qed.

Lemma shardsId_NoDup n : NoDup (Sprint <$> seqZ 0 n).
Proof.
  apply NoDup_fmap_2_strong; [|apply NoDup_seqZ].
  intros x y _ _. apply Sprint_inj.
Qed.

(** What [GetOverallStats] does, in terms of the documents it fetches. *)
Lemma GetOverallStats_fetch env db :
  1 ≤ int_of_uint64 (LogicalShardCount (cfg db)) →
  GetOverallStats env db
  = match findErr env, allErr env with
    | Some e, _ => Fail e
    | None, Some e => Fail e
    | None, None =>
        Done (foldl addCounters zeroDocument
                (omap (λ id, decodeStats id <$> OverallStatsCollection db !! id)
                   (overallShardsId db)))
    end.
Proof.
  intros Hc. unfold GetOverallStats, Find_in.
  destruct (findErr env); [done|].
  pose proof (overallShardsId_elem db 0 ltac:(lia)) as H0.
  destruct (overallShardsId db) as [|id0 ids] eqn:Hids;
    [by apply elem_of_nil in H0|].
  rewrite <-Hids. destruct (allErr env); [done|].
  by rewrite remove_dups_NoDup by apply overallShardsId_NoDup.
Qed.

(** X5.  The number of logical shards may grow: after any calls of the
    package on a database whose overall stats started empty,
    [GetOverallStats] returns the same under every larger shard count as
    under the one the calls ran with. *)
Theorem shard_count_may_grow cs db0 count' env :
  OverallStatsCollection db0 = ∅ →
  1 ≤ int_of_uint64 (LogicalShardCount (cfg db0)) →
  int_of_uint64 (LogicalShardCount (cfg db0)) ≤ int_of_uint64 count' →
  let db := (execAll cs db0).2 in
  GetOverallStats env (with_LogicalShardCount db count')
  = GetOverallStats env db.
Proof.
  intros Hempty Hc Hgrow db.
  assert (cfg db = cfg db0) as Hcfg by apply execAll_cfg.
  assert (Hkeys : ∀ id, is_Some (OverallStatsCollection db !! id) →
                        id ∈ overallShardsId db0).
  { apply execAll_overall_keys. intros id. rewrite Hempty, lookup_empty.
    by intros [??]. }
  rewrite !GetOverallStats_fetch by (simpl; rewrite ?Hcfg; lia).
  destruct (findErr env); [done|]. destruct (allErr env); [done|].
  do 2 f_equal. unfold overallShardsId. simpl. rewrite Hcfg.
  set (n := int_of_uint64 (LogicalShardCount (cfg db0))) in *.
  set (n' := int_of_uint64 count') in *.
  replace n' with (n + (n' - n)) by lia.
  rewrite seqZ_app by lia. rewrite fmap_app, omap_app.
  rewrite (omap_stats_absent _ (Sprint <$> seqZ (0 + n) (n' - n)));
    [by rewrite app_nil_r|].
  intros id (k & -> & Hk)%list_elem_of_fmap. apply elem_of_seqZ in Hk.
  destruct (OverallStatsCollection db !! Sprint k) as [s|] eqn:Hs; [|done].
  exfalso. pose proof (Hkeys (Sprint k) ltac:(by eexists)) as Hin.
  apply list_elem_of_fmap in Hin as (j & Hj%Sprint_inj & Hjn%elem_of_seqZ).
  fold n in Hjn. lia.
Qed.

(** X6.  The number of logical shards must not shrink: an update that drew
    the shard [n] is not seen by a read under a shard count of at most
    [n]; that read returns what it returned before the update. *)
Theorem shard_count_reduced_hides_update env state h upd db count' renv :
  (updateOverallStats env state h upd db).1 = Done () →
  int_of_uint64 count'
  ≤ rnd env mod int_of_uint64 (LogicalShardCount (cfg db)) →
  GetOverallStats renv
    (with_LogicalShardCount (updateOverallStats env state h upd db).2 count')
  = GetOverallStats renv (with_LogicalShardCount db count').
Proof.
  destruct (updateOverallStats env state h upd db) as [r db'] eqn:E.
  destruct (updateOverallStats_cases _ _ _ _ _ _ _ E)
    as [[Hr _]|(_ & _ & _ & _ & _ & n & Hn & _ & _ & Happ)]; [done|].
  intros _ Hcount. simpl.
  destruct Happ as (d & new & _ & _ & _ & _ & Hc).
  assert (n = rnd env mod int_of_uint64 (LogicalShardCount (cfg db))) as Hdraw.
  { unfold Intn in Hn. case_decide; by simplify_eq. }
  unfold GetOverallStats, Find_in, overallShardsId. simpl.
  destruct (findErr renv); [done|].
  destruct (Sprint <$> seqZ 0 (int_of_uint64 count')) as [|id0 ids] eqn:Hids;
    [done|].
  rewrite <-Hids. destruct (allErr renv); [done|].
  rewrite remove_dups_NoDup by apply shardsId_NoDup.
  do 2 f_equal. rewrite Hc. apply omap_stats_ext.
  intros id (k & -> & Hk%elem_of_seqZ)%list_elem_of_fmap.
  rewrite lookup_insert_ne; [done|]. intros ?%Sprint_inj. lia.
Qed.

End shard_count.

(** ** Providers do not interfere *)

Section provider_frame.

Import db.

Lemma provider_shard_id_inj pk pk' i j :
  pk +:+ ":" +:+ Sprint i = pk' +:+ ":" +:+ Sprint j → pk = pk' ∧ i = j.
Proof.
  intros H.
  apply (colon_suffix_inj pk pk' (Sprint i) (Sprint j)) in H as [-> H];
    try apply Sprint_no_colon.
  split; [done|]. by apply Sprint_inj.
Qed.

(** The read depends on the stored documents only through the shard keys of
    the providers asked for. *)
Lemma Find_in_ext env ids (coll coll' : gmap string Stats) :
  (∀ id, id ∈ ids → coll' !! id = coll !! id) →
  Find_in env ids coll' = Find_in env ids coll.
Proof.
  intros Heq. unfold Find_in. destruct (findErr env); [done|].
  assert (omap (λ id, decodeStats id <$> coll' !! id) (remove_dups ids)
          = omap (λ id, decodeStats id <$> coll !! id) (remove_dups ids))
    as Ho.
  { apply omap_stats_ext. intros id Hid. apply Heq.
    by apply elem_of_remove_dups. }
  destruct ids as [|id0 ids]; [done|]. destruct (allErr env); [done|].
  by rewrite Ho.
Qed.

Lemma batchLoop_ext fuel env bs pkHex db db' i m :
  cfg db' = cfg db →
  (∀ pk id, pk ∈ pkHex → id ∈ providerShardsId pk db →
            FinalityProviderStatsCollection db' !! id
            = FinalityProviderStatsCollection db !! id) →
  batchLoop fuel env bs pkHex db' i m = batchLoop fuel env bs pkHex db i m.
Proof.
  intros Hcfg Heq. revert i m. induction fuel as [|fuel IH]; intros i m;
    [done|].
  simpl. case_decide; [|done]. case_decide; [done|].
  match goal with |- context [ take ?a (drop ?b pkHex) ] =>
    set (batch := take a (drop b pkHex)) end.
  assert (getAllShardedFinalityProviderId batch db'
          = getAllShardedFinalityProviderId batch db) as ->
    by (unfold getAllShardedFinalityProviderId; by rewrite Hcfg).
  rewrite (Find_in_ext _ _ (FinalityProviderStatsCollection db)).
  - destruct (Find_in _ _ _); try done.
    destruct (sumShards _ _); try done.
  - intros id (pk & Hid & Hpk)%list_elem_of_bind.
    apply (Heq pk); [|done].
    subst batch. by eapply subseteq_drop, subseteq_take.
Qed.

Lemma updateFinalityProviderStats_frame env state h pk upd db pk' id :
  pk' ≠ pk → id ∈ providerShardsId pk' db →
  FinalityProviderStatsCollection
    (updateFinalityProviderStats env state h pk upd db).2 !! id
  = FinalityProviderStatsCollection db !! id.
Proof.
  intros Hne (j & -> & _)%list_elem_of_fmap.
  destruct (updateFinalityProviderStats env state h pk upd db)
    as [r db'] eqn:E.
  destruct (updateFinalityProviderStats_cases _ _ _ _ _ _ _ _ E)
    as [[_ ->]|(_ & _ & _ & _ & _ & n & _ & _ & _ & Happ)]; [done|].
  destruct Happ as (d & new & _ & _ & _ & _ & Hc). simpl. rewrite Hc.
  rewrite lookup_insert_ne; [done|].
  intros [? _]%provider_shard_id_inj. done.
Qed.

Lemma updateFinalityProviderStats_cfg env state h pk upd db :
  cfg (updateFinalityProviderStats env state h pk upd db).2 = cfg db.
Proof.
  destruct (updateFinalityProviderStats env state h pk upd db)
    as [r db'] eqn:E.
  by destruct (updateFinalityProviderStats_cases _ _ _ _ _ _ _ _ E)
    as [[_ ->]|(_ & _ & _ & _ & _ & n & _ & ? & _)].
Qed.

(** X7.  The stats of the providers are kept apart: an update of the
    provider [pk], whatever it returns, changes nothing a read of other
    providers returns ([FindFinalityProviderStatsByPkHex] of any list
    without [pk], under any environment), and leaves the overall stats
    alone; an update of the overall stats leaves every provider's stats
    alone. *)
Theorem provider_updates_do_not_interfere env state h pk upd db renv pkHex :
  let db' := (updateFinalityProviderStats env state h pk upd db).2 in
  (pk ∉ pkHex →
   FindFinalityProviderStatsByPkHex renv pkHex db'
   = FindFinalityProviderStatsByPkHex renv pkHex db) ∧
  OverallStatsCollection db' = OverallStatsCollection db ∧
  FinalityProviderStatsCollection (updateOverallStats env state h upd db).2
  = FinalityProviderStatsCollection db.
Proof.
  intros db'. split_and!.
  - intros Hpk. unfold FindFinalityProviderStatsByPkHex.
    assert (cfg db' = cfg db) as Hcfg
      by apply updateFinalityProviderStats_cfg.
    rewrite Hcfg. apply batchLoop_ext; [done|].
    intros pk' id Hpk' Hid.
    apply (updateFinalityProviderStats_frame _ _ _ _ _ _ pk'); [|done].
    by intros ->.
  - subst db'.
    destruct (updateFinalityProviderStats env state h pk upd db)
      as [r db1] eqn:E.
    by destruct (updateFinalityProviderStats_cases _ _ _ _ _ _ _ _ E)
      as [[_ ->]|(_ & _ & _ & _ & _ & n & _ & _ & ? & _)].
  - destruct (updateOverallStats env state h upd db) as [r db1] eqn:E.
    by destruct (updateOverallStats_cases _ _ _ _ _ _ _ E)
      as [[_ ->]|(_ & _ & _ & _ & _ & n & _ & _ & ? & _)].
Qed.

End provider_frame.

(** ** The stats of a provider after any calls *)

Section provider_totals.

Import db.

Lemma additive_active_tvl : additive active_tvl.
Proof. split; [done|]. intros ??? (?&?&?&?&?)%applyInc_Some. done. Qed.
Lemma additive_total_tvl : additive total_tvl.
Proof. split; [done|]. intros ??? (?&?&?&?&?)%applyInc_Some. done. Qed.
Lemma additive_active_delegations : additive active_delegations.
Proof. split; [done|]. intros ??? (?&?&?&?&?)%applyInc_Some. done. Qed.
Lemma additive_total_delegations : additive total_delegations.
Proof. split; [done|]. intros ??? (?&?&?&?&?)%applyInc_Some. done. Qed.

Lemma sumZ_shards_ext (f : Stats → Z) (coll coll' : gmap string Stats)
    (ids : list string) :
  (∀ id, id ∈ ids → coll' !! id = coll !! id) →
  sumZ ((λ id, f (shardStats coll' id)) <$> ids)
  = sumZ ((λ id, f (shardStats coll id)) <$> ids).
Proof.
  induction ids as [|id ids IH]; intros Heq; csimpl; [done|].
  unfold shardStats at 1 3. rewrite Heq by apply list_elem_of_here.
  rewrite IH; [done|]. intros id' Hid'. apply Heq.
  by apply list_elem_of_further.
Qed.

Lemma providerHasShard_true pk db :
  providerHasShard pk db = true ↔
  ∃ id, id ∈ providerShardsId pk db ∧
        is_Some (FinalityProviderStatsCollection db !! id).
Proof.
  unfold providerHasShard. rewrite bool_decide_eq_true, Exists_exists. done.
Qed.

(** A successful update of the provider [pk0] adds its increments to the
    logical totals of [pk0] and to those of no other provider, and leaves a
    stored shard of [pk0] behind. *)
Lemma updateFinalityProviderStats_total f env state h pk0 upd db db' pk :
  additive f →
  updateFinalityProviderStats env state h pk0 upd db = (Done (), db') →
  cfg db' = cfg db ∧
  1 ≤ int_of_uint64 (LogicalShardCount (cfg db)) ∧
  providerHasShard pk0 db' = true ∧
  providerTotal f pk db'
  = providerTotal f pk db + (if decide (pk0 = pk) then f upd else 0).
Proof.
  intros [_ Hadd] E.
  destruct (updateFinalityProviderStats_cases _ _ _ _ _ _ _ _ E)
    as [[Hr _]|(_ & _ & _ & _ & _ & n & Hn & Hcfg & _ & Happ)]; [done|].
  destruct Happ as (d & new & _ & _ & _ & Hinc & Hc).
  apply Intn_range in Hn.
  assert (pk0 +:+ ":" +:+ Sprint n ∈ providerShardsId pk0 db) as Hin.
  { unfold providerShardsId. apply list_elem_of_fmap. exists n.
    split; [done|]. apply elem_of_seqZ. lia. }
  split_and!; [done|lia|..].
  - apply providerHasShard_true. exists (pk0 +:+ ":" +:+ Sprint n).
    unfold providerShardsId in *. rewrite Hcfg, Hc, lookup_insert_eq.
    split; [done|by eexists].
  - unfold providerTotal, providerShardsId. rewrite Hc, Hcfg.
    fold (providerShardsId pk db). case_decide as Hpk.
    + subst pk0.
      rewrite sumZ_insert by (apply providerShardsId_NoDup || done).
      rewrite (Hadd _ _ _ Hinc). lia.
    + rewrite Z.add_0_r. apply sumZ_shards_ext.
      intros id (j & -> & _)%list_elem_of_fmap.
      rewrite lookup_insert_ne; [done|].
      intros [? _]%provider_shard_id_inj. done.
Qed.

Lemma updateOverallStats_provider_frame env state h upd db db' r :
  updateOverallStats env state h upd db = (r, db') →
  cfg db' = cfg db ∧
  FinalityProviderStatsCollection db' = FinalityProviderStatsCollection db.
Proof.
  intros E.
  by destruct (updateOverallStats_cases _ _ _ _ _ _ _ E)
    as [[_ ->]|(_ & _ & _ & _ & _ & n & _ & ? & ? & _)].
Qed.

Lemma providerTotal_ext f pk db db' :
  cfg db' = cfg db →
  FinalityProviderStatsCollection db' = FinalityProviderStatsCollection db →
  providerTotal f pk db' = providerTotal f pk db.
Proof.
  intros Hc He. unfold providerTotal, providerShardsId. by rewrite Hc, He.
Qed.

Lemma providerHasShard_ext pk db db' :
  cfg db' = cfg db →
  FinalityProviderStatsCollection db' = FinalityProviderStatsCollection db →
  providerHasShard pk db' = providerHasShard pk db.
Proof.
  intros Hc He. unfold providerHasShard, providerShardsId. by rewrite Hc, He.
Qed.

(** A stored shard stays stored. *)
Lemma updateFinalityProviderStats_keeps_shards env state h pk0 upd db pk :
  providerHasShard pk db = true →
  providerHasShard pk (updateFinalityProviderStats env state h pk0 upd db).2
  = true.
Proof.
  rewrite !providerHasShard_true. intros (id & Hid & Hs).
  destruct (updateFinalityProviderStats env state h pk0 upd db)
    as [r db'] eqn:E.
  destruct (updateFinalityProviderStats_cases _ _ _ _ _ _ _ _ E)
    as [[_ ->]|(_ & _ & _ & _ & _ & n & _ & Hcfg & _ & Happ)]; [by eauto|].
  destruct Happ as (d & new & _ & _ & _ & _ & Hc). simpl.
  exists id. unfold providerShardsId in *. rewrite Hcfg, Hc.
  split; [done|]. destruct (decide (id = pk0 +:+ ":" +:+ Sprint n)) as [->|?].
  - rewrite lookup_insert_eq. by eexists.
  - by rewrite lookup_insert_ne.
Qed.

Lemma updateFinalityProviderStats_in_range env state h pk0 upd db :
  collection_in_range (FinalityProviderStatsCollection db) →
  collection_in_range
    (FinalityProviderStatsCollection
       (updateFinalityProviderStats env state h pk0 upd db).2).
Proof.
  intros Hr.
  destruct (updateFinalityProviderStats env state h pk0 upd db)
    as [r db'] eqn:E.
  destruct (updateFinalityProviderStats_cases _ _ _ _ _ _ _ _ E)
    as [[_ ->]|(_ & _ & _ & _ & _ & n & _ & _ & _ & Happ)]; [done|].
  destruct Happ as (d & new & _ & _ & _ & Hinc & Hc). simpl. rewrite Hc.
  apply map_Forall_insert_2; [|done].
  by apply applyInc_Some in Hinc as (_ & _ & _ & _ & ?).
Qed.

(** One call: what it does to the totals of [pk] when it returns nil, and
    what it keeps in any case. *)
Lemma exec_provider f c db pk :
  additive f →
  let db' := (exec c db).2 in
  cfg db' = cfg db ∧
  (collection_in_range (FinalityProviderStatsCollection db) →
   collection_in_range (FinalityProviderStatsCollection db')) ∧
  (providerHasShard pk db = true → providerHasShard pk db' = true) ∧
  ((exec c db).1 = true →
   providerTotal f pk db' = providerTotal f pk db + f (providerDelta pk c) ∧
   (updatesProvider pk c = true →
    providerHasShard pk db' = true ∧
    1 ≤ int_of_uint64 (LogicalShardCount (cfg db)))).
Proof.
  intros Hf db'. subst db'. pose proof (exec_cfg c db) as Hcfg.
  split; [done|]. destruct Hf as [H0 Hadd]. destruct c; simpl in *.
  - destruct (GetOrCreateStatsLock fault stakingTxHashHex txType db)
      as [r db'] eqn:E. simpl in *.
    assert (FinalityProviderStatsCollection db'
            = FinalityProviderStatsCollection db) as He.
    { unfold GetOrCreateStatsLock in E. repeat case_match; by simplify_eq. }
    rewrite (providerTotal_ext f pk db db'), (providerHasShard_ext pk db db'),
      He, H0 by done.
    split_and!; try done. intros _. split; [lia|done].
  - unfold IncrementOverallStats in *.
    destruct (updateOverallStats _ _ _ _ db) as [r db'] eqn:E. simpl in *.
    destruct (updateOverallStats_provider_frame _ _ _ _ _ _ _ E) as [_ He].
    rewrite (providerTotal_ext f pk db db'), (providerHasShard_ext pk db db'),
      He, H0 by done.
    split_and!; try done. intros _. split; [lia|done].
  - unfold SubtractOverallStats in *.
    destruct (updateOverallStats _ _ _ _ db) as [r db'] eqn:E. simpl in *.
    destruct (updateOverallStats_provider_frame _ _ _ _ _ _ _ E) as [_ He].
    rewrite (providerTotal_ext f pk db db'), (providerHasShard_ext pk db db'),
      He, H0 by done.
    split_and!; try done. intros _. split; [lia|done].
  - unfold IncrementFinalityProviderStats in *.
    pose proof (updateFinalityProviderStats_in_range env Active_ToString
      stakingTxHashHex fpPkHex
      {| active_tvl := int64_of_uint64 amount;
         total_tvl := int64_of_uint64 amount;
         active_delegations := 1; total_delegations := 1 |} db) as Hr.
    pose proof (updateFinalityProviderStats_keeps_shards env Active_ToString
      stakingTxHashHex fpPkHex
      {| active_tvl := int64_of_uint64 amount;
         total_tvl := int64_of_uint64 amount;
         active_delegations := 1; total_delegations := 1 |} db pk) as Hk.
    destruct (updateFinalityProviderStats _ _ _ _ _ db) as [r db'] eqn:E.
    simpl in *. split_and!; try done. intros Hok.
    destruct r as [[]| | |]; try done.
    destruct (updateFinalityProviderStats_total f _ _ _ _ _ _ _ pk
                (conj H0 Hadd) E) as (_ & Hn & Hs & Ht).
    rewrite Ht. split.
    + case_decide; [done|]. by rewrite H0.
    + intros ->%bool_decide_eq_true. done.
  - unfold SubtractFinalityProviderStats in *.
    pose proof (updateFinalityProviderStats_in_range env Unbonded_ToString
      stakingTxHashHex fpPkHex
      {| active_tvl := int64_neg (int64_of_uint64 amount); total_tvl := 0;
         active_delegations := -1; total_delegations := 0 |} db) as Hr.
    pose proof (updateFinalityProviderStats_keeps_shards env Unbonded_ToString
      stakingTxHashHex fpPkHex
      {| active_tvl := int64_neg (int64_of_uint64 amount); total_tvl := 0;
         active_delegations := -1; total_delegations := 0 |} db pk) as Hk.
    destruct (updateFinalityProviderStats _ _ _ _ _ db) as [r db'] eqn:E.
    simpl in *. split_and!; try done. intros Hok.
    destruct r as [[]| | |]; try done.
    destruct (updateFinalityProviderStats_total f _ _ _ _ _ _ _ pk
                (conj H0 Hadd) E) as (_ & Hn & Hs & Ht).
    rewrite Ht. split.
    + case_decide; [done|]. by rewrite H0.
    + intros ->%bool_decide_eq_true. done.
Qed.

Lemma execAll_provider f cs db pk :
  additive f →
  let db' := (execAll cs db).2 in
  cfg db' = cfg db ∧
  (collection_in_range (FinalityProviderStatsCollection db) →
   collection_in_range (FinalityProviderStatsCollection db')) ∧
  (providerHasShard pk db = true → providerHasShard pk db' = true) ∧
  ((execAll cs db).1 = true →
   providerTotal f pk db' = providerTotal f pk db + providerNet f pk cs ∧
   (existsb (updatesProvider pk) cs = true →
    providerHasShard pk db' = true ∧
    1 ≤ int_of_uint64 (LogicalShardCount (cfg db)))).
Proof.
  intros Hf. revert db. induction cs as [|c cs IH]; intros db; simpl.
  - split_and!; try done. intros _. unfold providerNet. simpl.
    split; [lia|done].
  - destruct (exec_provider f c db pk Hf) as (Hc1 & Hr1 & Hs1 & Hok1).
    destruct (exec c db) as [ok db1]. simpl in *.
    destruct (IH db1) as (Hc2 & Hr2 & Hs2 & Hok2).
    destruct (execAll cs db1) as [oks db2]. simpl in *.
    split_and!; [congruence|intros ?; by apply Hr2, Hr1
                |intros ?; by apply Hs2, Hs1|].
    intros [-> ->]%andb_true_iff.
    destruct (Hok1 eq_refl) as [Ht1 Hu1]. destruct (Hok2 eq_refl) as [Ht2 Hu2].
    split.
    + rewrite Ht2, Ht1. unfold providerNet. csimpl. lia.
    + intros [Hu|Hu]%orb_true_iff.
      * destruct (Hu1 Hu) as [Hs Hn]. split; [by apply Hs2|done].
      * destruct (Hu2 Hu) as [Hs Hn]. split; [done|]. by rewrite <-Hc1.
Qed.

Lemma providerTotal_empty f pk db :
  FinalityProviderStatsCollection db = ∅ → f zeroStats = 0 →
  providerTotal f pk db = 0.
Proof.
  intros He H0. unfold providerTotal. rewrite He.
  induction (providerShardsId pk db) as [|id ids IH]; csimpl; [done|].
  unfold shardStats at 1. rewrite lookup_empty. simpl. rewrite H0, IH. done.
Qed.

(** X8.  From an empty provider-stats collection and after any calls of the
    package that all returned nil, among them an update of the provider
    [pk] (a key without a colon), a read of [pk] that meets no driver
    failure returns exactly one entry: the net amounts the increments and
    subtractions of [pk] added to each counter, as [int64]s, whatever
    shards were drawn and whatever the calls did for other providers or
    for the overall stats. *)
Theorem provider_stats_after_calls cs db db' pk env :
  FinalityProviderStatsCollection db = ∅ →
  execAll cs db = (true, db') →
  existsb (updatesProvider pk) cs = true →
  Contains pk ":" = false →
  no_read_faults env →
  1 ≤ int_of_uint64 (DbBatchSizeLimit (cfg db)) →
  FindFinalityProviderStatsByPkHex env [pk] db'
  = Done {[ pk :=
              {| Id := "";
                 ActiveTvl := wrap_int64 (providerNet active_tvl pk cs);
                 TotalTvl := wrap_int64 (providerNet total_tvl pk cs);
                 ActiveDelegations :=
                   wrap_int64 (providerNet active_delegations pk cs);
                 TotalDelegations :=
                   wrap_int64 (providerNet total_delegations pk cs) |} ]}.
Proof.
  intros Hempty Hexec Hupd Hpk Henv Hbs.
  destruct (execAll_provider active_tvl cs db pk additive_active_tvl)
    as (Hcfg & Hr & _ & H1).
  destruct (execAll_provider total_tvl cs db pk additive_total_tvl)
    as (_ & _ & _ & H2).
  destruct (execAll_provider active_delegations cs db pk
              additive_active_delegations) as (_ & _ & _ & H3).
  destruct (execAll_provider total_delegations cs db pk
              additive_total_delegations) as (_ & _ & _ & H4).
  rewrite Hexec in *. simpl in *.
  destruct (H1 eq_refl) as [T1 Hs]. destruct (Hs Hupd) as [Hshard Hcount].
  destruct (H2 eq_refl) as [T2 _]. destruct (H3 eq_refl) as [T3 _].
  destruct (H4 eq_refl) as [T4 _].
  rewrite (providerTotal_empty _ pk db) in T1 by done.
  rewrite (providerTotal_empty _ pk db) in T2 by done.
  rewrite (providerTotal_empty _ pk db) in T3 by done.
  rewrite (providerTotal_empty _ pk db) in T4 by done.
  destruct (FindFinalityProviderStatsByPkHex_spec env [pk] db')
    as (m & -> & Hm); try done; try (rewrite Hcfg; done).
  - apply NoDup_singleton.
  - by repeat constructor.
  - apply Hr. rewrite Hempty. apply map_Forall_empty.
  - f_equal. apply map_eq. intros k. rewrite Hm.
    destruct (decide (k = pk)) as [->|Hne].
    + rewrite decide_True by apply list_elem_of_here.
      rewrite lookup_singleton_eq. unfold providerSummed.
      rewrite Hshard, T1, T2, T3, T4. done.
    + rewrite decide_False by (by intros ?%list_elem_of_singleton).
      by rewrite lookup_singleton_ne.
Qed.

End provider_totals.

(** ** What the read of the providers returns in any case *)

Section provider_read_any.

Import db.

Lemma extract_shard_id pk j k :
  extractFinalityProviderPkHexFromStatsId (pk +:+ ":" +:+ Sprint j) = Done k →
  k = pk ∧ Contains pk ":" = false.
Proof.
  destruct (Contains pk ":") eqn:Hpk.
  - by rewrite extract_colon_in_pk.
  - rewrite extract_generated by done. by intros [= ->].
Qed.

Lemma Find_in_Done env ids (coll : gmap string Stats) fps :
  Find_in env ids coll = Done fps →
  ∀ fp, fp ∈ fps →
        ∃ id s, id ∈ ids ∧ coll !! id = Some s ∧ fp = decodeStats id s.
Proof.
  unfold Find_in. destruct (findErr env); [done|].
  destruct ids as [|id0 ids'] eqn:Hids; [done|]. rewrite <-Hids.
  destruct (allErr env); [done|]. intros [= <-] fp Hfp.
  apply list_elem_of_omap in Hfp as (id & Hid & Hs).
  rewrite elem_of_remove_dups in Hid.
  destruct (coll !! id) as [s|] eqn:Hst; [|done].
  injection Hs as <-. by exists id, s.
Qed.

Lemma sumShards_dom fps m m' k :
  sumShards fps m = Done m' → is_Some (m' !! k) →
  is_Some (m !! k) ∨
  ∃ fp, fp ∈ fps ∧ extractFinalityProviderPkHexFromStatsId (Id fp) = Done k.
Proof.
  revert m. induction fps as [|fp fps IH]; intros m; simpl.
  - intros [= ->]. by left.
  - destruct (extractFinalityProviderPkHexFromStatsId (Id fp)) as [k0| | |]
      eqn:E; try done.
    assert (Hstep : ∀ new, sumShards fps (<[k0 := new]> m) = Done m' →
      is_Some (m' !! k) →
      is_Some (m !! k) ∨
      ∃ fp0, fp0 ∈ fp :: fps ∧
             extractFinalityProviderPkHexFromStatsId (Id fp0) = Done k).
    { intros new Hs Hk. destruct (IH _ Hs Hk) as [Hin|(fp0 & Hfp0 & Hx)].
      - destruct (decide (k0 = k)) as [<-|Hne].
        + right. exists fp. split; [apply list_elem_of_here|done].
        + rewrite lookup_insert_ne in Hin by done. by left.
      - right. exists fp0. split; [by apply list_elem_of_further|done]. }
    destruct (m !! k0); apply Hstep.
Qed.

Lemma batchLoop_dom env bs pkHex db :
  1 ≤ bs →
  ∀ fuel i m m' k,
    0 ≤ i → batchLoop fuel env bs pkHex db i m = Done m' →
    is_Some (m' !! k) →
    is_Some (m !! k) ∨
    (k ∈ pkHex ∧ Contains k ":" = false ∧ providerHasShard k db = true).
Proof.
  intros Hbs fuel. induction fuel as [|fuel IH]; intros i m m' k Hi; [done|].
  destruct (decide (i < Z.of_nat (length pkHex))) as [Hlt|Hge].
  - rewrite batchLoop_step by lia.
    set (batch := take (Z.to_nat bs) (drop (Z.to_nat i) pkHex)).
    destruct (Find_in _ _ _) as [fps| | |] eqn:Ef; try done.
    destruct (sumShards fps m) as [m1| | |] eqn:Es; try done.
    intros Hloop Hk.
    destruct (IH (i + bs) m1 m' k ltac:(lia) Hloop Hk) as [Hk1|?];
      [|by right].
    destruct (sumShards_dom _ _ _ _ Es Hk1) as [?|(fp & Hfp & Hx)]; [by left|].
    right. destruct (Find_in_Done _ _ _ _ Ef _ Hfp) as (id & st & Hid & Hst & ->).
    simpl in Hx.
    apply list_elem_of_bind in Hid as (pk & Hid & Hpk).
    pose proof Hid as Hid'.
    apply list_elem_of_fmap in Hid as (j & -> & _).
    apply extract_shard_id in Hx as [-> Hc]. split_and!; [|done|].
    + subst batch. by eapply subseteq_drop, subseteq_take.
    + apply providerHasShard_true. eexists. split; [exact Hid'|by eexists].
  - rewrite batchLoop_done by lia. intros [= ->] ?. by left.
Qed.

Lemma batchLoop_returns env bs pkHex db :
  1 ≤ bs →
  ∀ fuel i m,
    0 ≤ i → (length (drop (Z.to_nat i) pkHex) < fuel)%nat →
    batchLoop fuel env bs pkHex db i m ≠ Panic ∧
    batchLoop fuel env bs pkHex db i m ≠ OutOfFuel.
Proof.
  intros Hbs fuel. induction fuel as [|fuel IH]; intros i m Hi Hfuel; [lia|].
  destruct (decide (i < Z.of_nat (length pkHex))) as [Hlt|Hge].
  - rewrite batchLoop_step by lia.
    destruct (Find_in _ _ _) as [fps| | |] eqn:Ef; try done.
    + destruct (sumShards_cases fps m) as [(m1 & -> & _)|[e ->]]; [|done].
      apply IH; [lia|]. rewrite length_drop in *. lia.
    + unfold Find_in in Ef. by repeat case_match.
    + unfold Find_in in Ef. by repeat case_match.
  - by rewrite batchLoop_done by lia.
Qed.

(** X9.  Whatever the list, the environment and the stored documents, a
    read with a batch size of at least 1 that returns a map reports only
    providers that were asked for, whose key holds no colon and of which a
    shard is stored. *)
Theorem provider_read_reports_requested env pkHex db m k :
  1 ≤ int_of_uint64 (DbBatchSizeLimit (cfg db)) →
  FindFinalityProviderStatsByPkHex env pkHex db = Done m →
  is_Some (m !! k) →
  k ∈ pkHex ∧ Contains k ":" = false ∧ providerHasShard k db = true.
Proof.
  intros Hbs Hm Hk. unfold FindFinalityProviderStatsByPkHex in Hm.
  destruct (batchLoop_dom env _ pkHex db Hbs _ 0 ∅ m k ltac:(lia) Hm Hk)
    as [Hin|?]; [|done].
  rewrite lookup_empty in Hin. by destruct Hin.
Qed.

(** X10.  The read at its edges: for an empty list it returns the empty map
    without asking the database, under any configuration; with a batch size
    of at least 1 it returns a map or an error, it neither panics nor runs
    forever; with a batch size limit that is negative as an [int] and a
    list that is not empty, it panics on its first slice. *)
Theorem provider_read_edges env pkHex db :
  (pkHex = [] → FindFinalityProviderStatsByPkHex env pkHex db = Done ∅) ∧
  (1 ≤ int_of_uint64 (DbBatchSizeLimit (cfg db)) →
   FindFinalityProviderStatsByPkHex env pkHex db ≠ Panic ∧
   FindFinalityProviderStatsByPkHex env pkHex db ≠ OutOfFuel) ∧
  (int_of_uint64 (DbBatchSizeLimit (cfg db)) < 0 → pkHex ≠ [] →
   FindFinalityProviderStatsByPkHex env pkHex db = Panic).
Proof.
  split_and!.
  - by intros ->.
  - intros Hbs. unfold FindFinalityProviderStatsByPkHex.
    apply batchLoop_returns; [done|lia|]. rewrite length_drop. lia.
  - intros Hbs Hne. unfold FindFinalityProviderStatsByPkHex.
    destruct pkHex as [|pk pkHex]; [done|]. cbn [batchLoop].
    set (bs := int_of_uint64 (DbBatchSizeLimit (cfg db))) in *.
    rewrite decide_True by (cbn [length]; lia).
    destruct (decide (0 + bs > Z.of_nat (length (pk :: pkHex)))) as [Hgt|_];
      [cbn [length] in Hgt; lia|].
    by rewrite decide_True by lia.
Qed.

End provider_read_any.

(** ** More on the delegation service *)

Section service_more.

Import v1model v1dbclient types.

Context {S E : Type} `{!V1DBClient S E} `{!ErrorClass E}.
Context {Request Result : Type}.
Variable ParseTimestampToIsoFormat : Z → string.
Variable ParseTxHashQuery : Request → string → string + Error E.
Variable NewResult : v1service.DelegationPublic → Result.

(** X11.  [IsDelegationPresent], for any result of the client's lookup:
    presence is reported exactly for a document that is not nil; absence
    without an error exactly for a not-found error and for a nil document
    that comes without an error; an error exactly for an error that is not
    not-found, as an internal-service error; presence never comes with an
    error.  For a client that returns a document whenever it returns no
    error, [IsDelegationPresent] and [GetDelegation] agree: presence exactly
    when [GetDelegation] returns a document, absence without an error
    exactly when it returns its 404, an error exactly when it returns an
    error that is not its 404, and then the same error. *)
Theorem is_delegation_present_agrees
    (findDelegation : S → string → option DelegationDocument + E)
    s txHashHex :
  let found := findDelegation s txHashHex in
  let present := v1service.IsDelegationPresent findDelegation s txHashHex in
  let got := v1service.GetDelegation s txHashHex in
  (present = (true, None) ↔ ∃ delegation, found = inl (Some delegation)) ∧
  (present = (false, None) ↔
   found = inl None ∨ ∃ err, found = inr err ∧ IsNotFoundError err = true) ∧
  (∀ e, present = (false, Some e) ↔
        ∃ err, found = inr err ∧ IsNotFoundError err = false ∧
               e = NewInternalServiceError err) ∧
  (present.1 = true → present.2 = None) ∧
  (found = sum_map Some id (FindDelegationByTxHashHex s txHashHex) →
   (present = (true, None) ↔ ∃ delegation, got = inl delegation) ∧
   (present = (false, None) ↔
    ∃ e, got = inr e ∧ StatusCode e = StatusNotFound) ∧
   (∀ e, present = (false, Some e) ↔
         got = inr e ∧ StatusCode e ≠ StatusNotFound)).
Proof.
  intros found present got. subst found present got.
  unfold v1service.IsDelegationPresent, v1service.GetDelegation.
  split_and!.
  - destruct (findDelegation s txHashHex) as [[d|]|err].
    + split; [by eexists|done].
    + split; [done|by intros [? ?]].
    + split; [by destruct (IsNotFoundError err)|by intros [? ?]].
  - destruct (findDelegation s txHashHex) as [[d|]|err].
    + split; [done|]. by intros [?|(err & ? & _)].
    + split; [by left|done].
    + destruct (IsNotFoundError err) eqn:Hnf.
      * split; [right; by eexists|done].
      * split; [done|]. intros [?|(err' & [= <-] & Hnf')]; congruence.
  - intros e. destruct (findDelegation s txHashHex) as [[d|]|err].
    + split; [done|by intros (err & ? & _)].
    + split; [done|by intros (err & ? & _)].
    + destruct (IsNotFoundError err) eqn:Hnf.
      * split; [done|]. intros (err' & [= <-] & Hnf' & _). congruence.
      * split; [intros [= <-]; by eexists|].
        by intros (err' & [= <-] & _ & ->).
  - destruct (findDelegation s txHashHex) as [[d|]|err]; [done..|].
    by destruct (IsNotFoundError err).
  - intros ->.
    destruct (FindDelegationByTxHashHex s txHashHex) as [d|err]; simpl.
    + split_and!; [| |intros e].
      * split; [by eexists|done].
      * split; [done|by intros (e & ? & _)].
      * split; [done|by intros [? _]].
    + destruct (IsNotFoundError err) eqn:Hnf; simpl.
      * split_and!; [| |intros e].
        -- split; [done|by intros [? ?]].
        -- split; [by eexists|done].
        -- split; [done|]. intros [[= <-] Hs]. by destruct Hs.
      * split_and!; [| |intros e].
        -- split; [done|by intros [? ?]].
        -- split; [done|]. by intros (e & [= <-] & Hs).
        -- split; [by intros [= <-]|by intros [[= <-] _]].
Qed.

(** X12.  The handler [GetDelegationByTxHash] reads the store only after
    the query parameter parsed: when the parse fails it returns the parse
    error, whatever the store holds; and it returns a result exactly when
    the parse gave a hash and the store has a document for that hash, the
    result being the public form of that document. *)
Theorem handler_result s request :
  let handle (s : S) :=
    v1handlers.GetDelegationByTxHash ParseTimestampToIsoFormat
      ParseTxHashQuery NewResult s request in
  (∀ err, ParseTxHashQuery request "staking_tx_hash_hex" = inr err →
          ∀ s', handle s' = inr err) ∧
  (∀ result,
     handle s = inl result ↔
     ∃ stakingTxHash delegation,
       ParseTxHashQuery request "staking_tx_hash_hex" = inl stakingTxHash ∧
       FindDelegationByTxHashHex s stakingTxHash = inl delegation ∧
       result
       = NewResult
           (v1service.FromDelegationDocument ParseTimestampToIsoFormat
              delegation)).
Proof.
  intros handle. subst handle.
  unfold v1handlers.GetDelegationByTxHash, v1service.GetDelegation. split.
  - intros err ->. done.
  - intros result.
    destruct (ParseTxHashQuery request "staking_tx_hash_hex") as [h|err].
    + destruct (FindDelegationByTxHashHex s h) as [d|err] eqn:Hf.
      * split; [intros [= <-]; by eexists _, _|].
        intros (h' & d' & [= <-] & Hd & ->). congruence.
      * split; [by destruct (IsNotFoundError err)|].
        intros (h' & d' & [= <-] & Hd & _). congruence.
    + split; [done|]. by intros (h' & d' & ? & _).
Qed.

(** X13.  [DelegationsByStakerPk] converts the page document by document:
    on success the list has one entry per document of the page, in the same
    order, each with the hash, the keys, the value, the state and the
    overflow flag of its document; the entry carries an unbonding
    transaction exactly when the document has one whose hex is not
    empty. *)
Theorem delegations_page_is_converted s stakerPk state pageToken page token
    (i : nat) d :
  v1service.DelegationsByStakerPk ParseTimestampToIsoFormat s stakerPk state
    pageToken = (Some page, token, None) →
  ∃ resultMap,
    FindDelegationsByStakerPk s stakerPk
      (if decide (state ≠ "")
       then {| AfterTimestamp := 0; States := [state] |}
       else emptyFilter) pageToken = inl resultMap ∧
    length page = length (Data resultMap) ∧
    token = PaginationToken resultMap ∧
    (Data resultMap !! i = Some d →
     ∃ p, page !! i = Some p ∧
          v1service.pub_StakingTxHashHex p = StakingTxHashHex d ∧
          v1service.pub_StakerPkHex p = StakerPkHex d ∧
          v1service.pub_FinalityProviderPkHex p = FinalityProviderPkHex d ∧
          v1service.pub_StakingValue p = StakingValue d ∧
          v1service.pub_State p = State d ∧
          v1service.pub_IsOverflow p = IsOverflow d ∧
          (is_Some (v1service.pub_UnbondingTx p) ↔
           ∃ u, UnbondingTx d = Some u ∧ TxHex u ≠ "")).
Proof.
  unfold v1service.DelegationsByStakerPk.
  destruct (FindDelegationsByStakerPk s stakerPk _ pageToken)
    as [resultMap|err]; [|by destruct (IsInvalidPaginationTokenError err)].
  intros [= <- <-]. exists resultMap. split_and!; try done.
  - by rewrite length_fmap.
  - intros Hd. eexists. rewrite list_lookup_fmap, Hd. simpl.
    split_and!; try done. simpl.
    destruct (UnbondingTx d) as [u|]; simpl.
    + case_decide.
      * split; [intros _; by exists u|by eexists].
      * split; [by intros [??]|]. intros (u' & [= <-] & ?). done.
    + split; [by intros [??]|by intros (u & ? & _)].
Qed.

End service_more.

(** ** The test data generators *)

Section generators.

Import testutils.

Lemma get_Contains s (k : nat) c :
  String.get k s = Some c → Contains s c = true.
Proof.
  revert k. induction s as [|c' s IH]; intros k; simpl; [done|].
  destruct k as [|k].
  - intros [= ->]. by rewrite decide_True.
  - intros Hk. case_decide; [done|]. by eapply IH.
Qed.

Lemma get_lt s (k : nat) :
  (k < String.length s)%nat → is_Some (String.get k s).
Proof.
  revert k. induction s as [|c' s IH]; intros k; simpl; [lia|].
  destruct k as [|k]; [by eexists|]. intros Hk. apply IH. lia.
Qed.

Lemma Int_range raw : 0 ≤ Int raw < 2 ^ 63.
Proof. unfold Int. apply Z.mod_pos_bound. lia. Qed.

(** A letter is drawn at every position, whatever the randomness. *)
Lemma index_letters raw :
  ∃ c, index letters (Z.rem (Int raw) (Z.of_nat (String.length letters)))
       = Some c ∧
       Contains letters c = true.
Proof.
  pose proof (Int_range raw) as Hr.
  set (num := Z.rem (Int raw) (Z.of_nat (String.length letters))).
  assert (0 ≤ num < Z.of_nat (String.length letters)) as Hnum.
  { subst num. rewrite Z.rem_mod_nonneg by (simpl; lia).
    apply Z.mod_pos_bound. simpl. lia. }
  unfold index. rewrite decide_False by lia.
  assert (Z.to_nat num < String.length letters)%nat as Hlt by lia.
  destruct (get_lt letters (Z.to_nat num) Hlt) as [c Hc].
  exists c. split; [done|]. by eapply get_Contains.
Qed.

Lemma fillString_spec ints i count :
  ∃ s, fillString ints i count = Some s ∧
       String.length s = count ∧
       Forall (λ c, Contains letters c = true) (String.list_ascii_of_string s).
Proof.
  revert i. induction count as [|count IH]; intros i.
  - exists EmptyString. by split_and!.
  - cbn [fillString].
    destruct (index_letters (ints i)) as (c & -> & Hc).
    destruct (IH (S i)) as (rest & -> & Hlen & Hall).
    exists (String c rest). split_and!; [done|by rewrite <-Hlen|].
    simpl. by constructor.
Qed.

Lemma Contains_chars s c :
  Contains s c = true ↔ c ∈ String.list_ascii_of_string s.
Proof.
  induction s as [|c' s IH]; simpl.
  - split; [done|by intros ?%elem_of_nil].
  - rewrite elem_of_cons, <-IH. case_decide.
    + split; [intros _; by left|done].
    + split; [by right|intros [?|?]; [congruence|done]].
Qed.

(** X14.  [RandomPositiveInt(r, max)] panics for a [max] that is not
    positive; for a positive [max] it returns a value from 1 to [max], and
    every such value is returned for some randomness. *)
Theorem RandomPositiveInt_range raw max :
  in_int64 max →
  (max ≤ 0 → RandomPositiveInt raw max = None) ∧
  (1 ≤ max → ∃ n, RandomPositiveInt raw max = Some n ∧ 1 ≤ n ≤ max) ∧
  (∀ n, 1 ≤ n ≤ max → RandomPositiveInt (n - 1) max = Some n).
Proof.
  intros Hmax. unfold RandomPositiveInt, Intn, int64_add.
  unfold in_int64, int64_min, int64_max in Hmax. split_and!.
  - intros Hle. by rewrite decide_True.
  - intros Hpos. rewrite decide_False by lia. simpl.
    assert (0 < max) as Hpos' by lia.
    pose proof (Z.mod_pos_bound raw max Hpos') as Hr.
    eexists. split; [done|]. rewrite wrap_int64_small; [lia|].
    unfold int64_max. lia.
  - intros n Hn. rewrite decide_False by lia. simpl.
    rewrite Z.mod_small by lia. f_equal. rewrite wrap_int64_small; [lia|].
    unfold int64_max. lia.
Qed.

(** X15.  [RandomString(r, n)] panics for a negative [n]; otherwise it
    returns a string of exactly [n] characters, all of them letters or
    digits of [letters], whatever the randomness; in particular the string
    holds no colon. *)
Theorem RandomString_alphanumeric ints n :
  (n < 0 → RandomString ints n = None) ∧
  (0 ≤ n →
   ∃ s, RandomString ints n = Some s ∧
        Z.of_nat (String.length s) = n ∧
        Forall (λ c, Contains letters c = true) (String.list_ascii_of_string s) ∧
        Contains s ":" = false).
Proof.
  unfold RandomString. split.
  - intros Hn. by rewrite decide_True.
  - intros Hn. rewrite decide_False by lia.
    destruct (fillString_spec ints 0 (Z.to_nat n)) as (s & -> & Hlen & Hall).
    exists s. split_and!; [done|lia|done|].
    destruct (Contains s ":") eqn:Hc; [|done].
    apply Contains_chars in Hc. rewrite Forall_forall in Hall.
    by specialize (Hall _ Hc).
Qed.

(** X16.  [GenerateRandomTimestamp(after, before)], for timestamps whose
    differences fit an [int64]: with both bounds 0 it returns the clock;
    with both bounds set it returns a timestamp from [after] up to but not
    including [before], and panics when [before] is not later than
    [after]; with only [after] set the clock takes the place of [before];
    with only [before] set it returns a timestamp within the six months
    that end at [before], [before] included. *)
Theorem GenerateRandomTimestamp_bounds timeNow raw after before :
  in_int64 timeNow → in_int64 after → in_int64 before →
  let res := GenerateRandomTimestamp timeNow raw after before in
  (after = 0 → before = 0 → res = Some timeNow) ∧
  (after ≠ 0 → before ≠ 0 → in_int64 (before - after) →
   (after < before → ∃ t, res = Some t ∧ after ≤ t < before) ∧
   (before ≤ after → res = None)) ∧
  (after ≠ 0 → before = 0 → in_int64 (timeNow - after) →
   (after < timeNow → ∃ t, res = Some t ∧ after ≤ t < timeNow) ∧
   (timeNow ≤ after → res = None)) ∧
  (after = 0 → before ≠ 0 → in_int64 (before - 15552000) →
   ∃ t, res = Some t ∧ before - 15552000 < t ≤ before).
Proof.
  intros Hnow Hafter Hbefore res. subst res.
  unfold GenerateRandomTimestamp, Intn, int64_add, int64_sub.
  unfold in_int64, int64_min, int64_max in *. split_and!.
  - intros -> ->. by rewrite decide_True.
  - intros Ha Hb Hd. rewrite decide_False by (by intros [? ?]).
    rewrite decide_False by done. rewrite decide_False by done.
    rewrite (wrap_int64_id (before - after))
      by (unfold in_int64, int64_min, int64_max; lia).
    split.
    + intros Hlt. rewrite decide_False by lia. simpl.
      assert (0 < before - after) as Hpos by lia.
      pose proof (Z.mod_pos_bound raw (before - after) Hpos) as Hr.
      eexists. split; [done|].
      rewrite wrap_int64_id
        by (unfold in_int64, int64_min, int64_max; lia). lia.
    + intros Hle. by rewrite decide_True by lia.
  - intros Ha -> Hd. rewrite decide_False by (by intros [? ?]).
    rewrite decide_True by done.
    rewrite (wrap_int64_id (timeNow - after))
      by (unfold in_int64, int64_min, int64_max; lia).
    split.
    + intros Hlt. rewrite decide_False by lia. simpl.
      assert (0 < timeNow - after) as Hpos by lia.
      pose proof (Z.mod_pos_bound raw (timeNow - after) Hpos) as Hr.
      eexists. split; [done|].
      rewrite wrap_int64_id
        by (unfold in_int64, int64_min, int64_max; lia). lia.
    + intros Hle. by rewrite decide_True by lia.
  - intros -> Hb Hd. rewrite decide_False by (by intros [? ?]).
    rewrite decide_False by done. rewrite decide_True by done.
    rewrite decide_False by lia. simpl.
    assert (0 < 6 * 30 * 24 * 60 * 60) as Hpos by lia.
    pose proof (Z.mod_pos_bound raw (6 * 30 * 24 * 60 * 60) Hpos) as Hr.
    eexists. split; [done|].
    rewrite wrap_int64_id
      by (unfold in_int64, int64_min, int64_max; lia). lia.
Qed.

End generators.

(** ** The generator of active staking events *)

Section event_generator.

Import testutils.

Lemma GeneratePks_from_length randomPk i count pks :
  GeneratePks_from randomPk i count = Returned pks → length pks = count.
Proof.
  revert i pks. induction count as [|count IH]; intros i pks; simpl.
  - by intros [= <-].
  - destruct (randomPk i) as [k|]; [|done].
    destruct (GeneratePks_from randomPk (S i) count) as [pks'| |] eqn:E;
      [|done..].
    intros [= <-]. simpl. f_equal. by eapply IH.
Qed.

Lemma GeneratePks_from_returns randomPk i count :
  (∀ j, (i ≤ j < i + count)%nat → is_Some (randomPk j)) →
  ∃ pks, GeneratePks_from randomPk i count = Returned pks.
Proof.
  revert i. induction count as [|count IH]; intros i Hkeys; simpl.
  - by eexists.
  - destruct (Hkeys i) as [k ->]; [lia|].
    destruct (IH (S i)) as [pks ->]; [intros j Hj; apply Hkeys; lia|].
    by eexists.
Qed.

Lemma pick_elem raw pks k : pick raw pks = Some k → k ∈ pks.
Proof.
  unfold pick, Intn. case_decide; [done|]. apply list_elem_of_lookup_2.
Qed.

Lemma pick_nonempty raw pks :
  pks ≠ [] → is_Some (pick raw pks).
Proof.
  intros Hne. unfold pick, Intn.
  assert (0 < length pks)%nat as Hlen by (destruct pks; [done|simpl; lia]).
  rewrite decide_False by lia.
  assert (0 < Z.of_nat (length pks)) as Hpos by lia.
  pose proof (Z.mod_pos_bound raw (Z.of_nat (length pks)) Hpos) as Hr.
  apply lookup_lt_is_Some. lia.
Qed.

Lemma uint64_of_int_small z : 0 ≤ z < 2 ^ 64 → uint64_of_int z = z.
Proof. intros Hz. unfold uint64_of_int. by rewrite Z.mod_small. Qed.

(** What one round of the loop appends. *)
Lemma generateEvent_Returned env o fpPks stakerPks i e :
  generateEvent env (Some o) fpPks stakerPks i = Returned e →
  Event e = ActiveStakingEventType ∧
  FinalityProviderPkHex e ∈ fpPks ∧
  StakerPkHex e ∈ stakerPks ∧
  1 ≤ StakingStartHeight e ≤ 100000 ∧
  0 ≤ StakingTimeLock e < 100 ∧
  0 ≤ StakingOutputIndex e < 100 ∧
  (EnforceNotOverflow o = true → IsOverflow e = false).
Proof.
  unfold generateEvent.
  destruct (pick (fpDraw env i) fpPks) as [fp|] eqn:Efp; [|done].
  destruct (pick (stakerDraw env i) stakerPks) as [st|] eqn:Est; [|done].
  destruct (txDraw env i) as [[txHash hex]|]; [|done].
  destruct (RandomPositiveInt (heightDraw env i) 100000)
    as [height|] eqn:Eh; [|done].
  destruct (GenerateRandomTimestamp _ _ _ _) as [timestamp|]; [|done].
  destruct (Intn (timeLockDraw env i) 100) as [timeLock|] eqn:Etl; [|done].
  destruct (Intn (outputIndexDraw env i) 100) as [outputIndex|] eqn:Eoi;
    [|done].
  intros [= <-]. simpl.
  unfold RandomPositiveInt, Intn, int64_add in *.
  rewrite decide_False in Eh, Etl, Eoi by lia. simpl in Eh.
  injection Eh as <-. injection Etl as <-. injection Eoi as <-.
  assert (0 < 100000) as H1 by lia. assert (0 < 100) as H2 by lia.
  pose proof (Z.mod_pos_bound (heightDraw env i) 100000 H1) as Hh.
  pose proof (Z.mod_pos_bound (timeLockDraw env i) 100 H2) as Htl.
  pose proof (Z.mod_pos_bound (outputIndexDraw env i) 100 H2) as Hoi.
  rewrite wrap_int64_id
    by (unfold in_int64, int64_min, int64_max; lia).
  rewrite !uint64_of_int_small by lia.
  split_and!; [done|by eapply pick_elem|by eapply pick_elem|lia..|].
  by intros ->.
Qed.

Lemma generateEvents_Returned env o fpPks stakerPks i count events :
  generateEvents env (Some o) fpPks stakerPks i count = Returned events →
  length events = count ∧
  Forall (λ e,
    Event e = ActiveStakingEventType ∧
    FinalityProviderPkHex e ∈ fpPks ∧
    StakerPkHex e ∈ stakerPks ∧
    1 ≤ StakingStartHeight e ≤ 100000 ∧
    0 ≤ StakingTimeLock e < 100 ∧
    0 ≤ StakingOutputIndex e < 100 ∧
    (EnforceNotOverflow o = true → IsOverflow e = false)) events.
Proof.
  revert i events. induction count as [|count IH]; intros i events; simpl.
  - by intros [= <-].
  - destruct (generateEvent env (Some o) fpPks stakerPks i)
      as [e| |] eqn:Ee; [|done..].
    destruct (generateEvents env (Some o) fpPks stakerPks (S i) count)
      as [events'| |] eqn:Es; [|done..].
    intros [= <-]. destruct (IH _ _ Es) as [Hlen Hall].
    split; [simpl; by f_equal|].
    constructor; [by eapply generateEvent_Returned|done].
Qed.

(** The transactions and the keys are drawn before the options are read. *)
Lemma generateEvents_nil_opts env fpPks stakerPks i count events :
  generateEvents env None fpPks stakerPks i count = Returned events →
  count = 0%nat.
Proof.
  destruct count as [|count]; [done|]. simpl.
  assert (∀ e, generateEvent env None fpPks stakerPks i ≠ Returned e)
    as Hno.
  { intros e. unfold generateEvent.
    destruct (pick (fpDraw env i) fpPks); [|done].
    destruct (pick (stakerDraw env i) stakerPks); [|done].
    by destruct (txDraw env i) as [[??]|]. }
  destruct (generateEvent env None fpPks stakerPks i) as [e| |] eqn:Ee;
    [|done..].
  by destruct (Hno e).
Qed.

Lemma generateEvents_returns env o fpPks stakerPks i count :
  fpPks ≠ [] → stakerPks ≠ [] →
  AfterTimestamp o = 0 →
  (∀ j, (i ≤ j < i + count)%nat → is_Some (txDraw env j)) →
  ∃ events,
    generateEvents env (Some o) fpPks stakerPks i count = Returned events.
Proof.
  intros Hfp Hst Hafter. revert i.
  induction count as [|count IH]; intros i Htx; simpl; [by eexists|].
  assert (∃ e, generateEvent env (Some o) fpPks stakerPks i = Returned e)
    as [e ->].
  { unfold generateEvent.
    destruct (pick_nonempty (fpDraw env i) fpPks Hfp) as [fp ->].
    destruct (pick_nonempty (stakerDraw env i) stakerPks Hst) as [st ->].
    destruct (Htx i) as [[txHash hex] ->]; [lia|].
    unfold RandomPositiveInt, GenerateRandomTimestamp, Intn.
    rewrite Hafter.
    rewrite !(decide_False (P := 100000 ≤ 0)) by lia. simpl.
    destruct (decide (BeforeTimestamp o = 0 ∧ 0 = 0)) as [_|Hn];
      [by eexists|].
    rewrite decide_False by (intros ?; apply Hn; done).
    by eexists. }
  destruct (IH (S i)) as [events ->]; [intros j Hj; apply Htx; lia|].
  by eexists.
Qed.

Lemma GeneratePks_from_Returned randomPk i count pks :
  GeneratePks_from randomPk i count = Returned pks ↔
  length pks = count ∧
  ∀ j, (j < count)%nat → randomPk (i + j)%nat = pks !! j.
Proof.
  revert i pks. induction count as [|count IH]; intros i pks; simpl.
  - split.
    + intros [= <-]. split; [done|]. intros j Hj. lia.
    + intros [Hlen _]. by destruct pks.
  - split.
    + destruct (randomPk i) as [k|] eqn:Ek; [|done].
      destruct (GeneratePks_from randomPk (S i) count) as [pks'| |] eqn:E;
        [|done..].
      intros [= <-]. apply IH in E as [Hlen Hkeys].
      split; [simpl; by f_equal|].
      intros [|j] Hj; simpl.
      * by rewrite Nat.add_0_r.
      * rewrite <-Hkeys by lia. f_equal. lia.
    + intros [Hlen Hkeys]. destruct pks as [|k pks]; [done|].
      simpl in Hlen. injection Hlen as Hlen.
      pose proof (Hkeys 0%nat) as H0. rewrite Nat.add_0_r in H0.
      rewrite H0 by lia. simpl.
      assert (GeneratePks_from randomPk (S i) count = Returned pks) as ->;
        [|done].
      apply IH. split; [done|]. intros j Hj.
      assert (S j < S count)%nat as Hj' by lia.
      specialize (Hkeys (S j) Hj'). simpl in Hkeys. rewrite <-Hkeys.
      f_equal. lia.
Qed.

Lemma GeneratePks_from_Exited randomPk i count :
  GeneratePks_from randomPk i count = Exited ↔
  ∃ j, (j < count)%nat ∧ randomPk (i + j)%nat = None.
Proof.
  revert i. induction count as [|count IH]; intros i; simpl.
  - split; [done|]. intros (j & Hj & _). lia.
  - split.
    + destruct (randomPk i) as [k|] eqn:Ek.
      * destruct (GeneratePks_from randomPk (S i) count) as [pks'| |] eqn:E;
          [done..|].
        intros _. apply IH in E as (j & Hj & Hnone).
        exists (S j). split; [lia|]. rewrite <-Hnone. f_equal. lia.
      * intros _. exists 0%nat. split; [lia|]. by rewrite Nat.add_0_r.
    + intros (j & Hj & Hnone).
      destruct (randomPk i) as [k|] eqn:Ek; [|done].
      assert (GeneratePks_from randomPk (S i) count = Exited) as ->; [|done].
      apply IH. destruct j as [|j].
      * rewrite Nat.add_0_r in Hnone. congruence.
      * exists j. split; [lia|]. rewrite <-Hnone. f_equal. lia.
Qed.

Lemma GeneratePks_from_no_panic randomPk i count :
  GeneratePks_from randomPk i count ≠ Panicked.
Proof.
  revert i. induction count as [|count IH]; intros i; simpl; [done|].
  destruct (randomPk i); [|done].
  specialize (IH (S i)).
  by destruct (GeneratePks_from randomPk (S i) count).
Qed.

(** X20.  [GeneratePks(numOfKeys)] returns the keys [RandomPk] gave, one
    per call and in the order of the calls, so [numOfKeys] of them (none
    for a [numOfKeys] that is not positive); it ends the process exactly
    when one of these calls fails; and it never panics. *)
Theorem GeneratePks_keys randomPk numOfKeys :
  (∀ pks,
     GeneratePks randomPk numOfKeys = Returned pks ↔
     Z.of_nat (length pks) = Z.max 0 numOfKeys ∧
     ∀ j, (Z.of_nat j < numOfKeys) → randomPk j = pks !! j) ∧
  (GeneratePks randomPk numOfKeys = Exited ↔
   ∃ j, Z.of_nat j < numOfKeys ∧ randomPk j = None) ∧
  GeneratePks randomPk numOfKeys ≠ Panicked.
Proof.
  unfold GeneratePks. split_and!.
  - intros pks. rewrite GeneratePks_from_Returned. simpl.
    split; intros [Hlen Hkeys].
    + split; [lia|]. intros j Hj. apply Hkeys. lia.
    + split; [lia|]. intros j Hj. apply Hkeys. lia.
  - rewrite GeneratePks_from_Exited. simpl.
    split; intros (j & Hj & Hnone); exists j; (split; [lia|done]).
  - apply GeneratePks_from_no_panic.
Qed.

(** X17.  [GenerateRandomActiveStakingEvents(r, nil)] never returns: the
    loop reads [opts.EnforceNotOverflow] for the first of its eleven events
    although [opts] is nil, so the call panics, unless a key or the
    transaction could not be generated and the process has ended before. *)
Theorem GenerateRandomActiveStakingEvents_nil_opts env events :
  GenerateRandomActiveStakingEvents env None ≠ Returned events.
Proof.
  unfold GenerateRandomActiveStakingEvents.
  destruct (GeneratePks (fpKeys env) 11) as [fps| |]; [|done..].
  destruct (GeneratePks (stakerKeys env) 11) as [sts| |]; [|done..].
  intros Hret. by apply generateEvents_nil_opts in Hret.
Qed.

(** X18.  The events [GenerateRandomActiveStakingEvents] returns for
    options [o]: as many as [o.NumOfEvents] when that is positive and
    eleven otherwise; each an active staking event of a finality provider
    of [o.FinalityProviders] and a staker of [o.Stakers], or where that
    list is empty of one of the eleven generated keys, with a start height
    from 1 to 100000, a time lock and an output index below 100, and not
    marked as overflow when [o.EnforceNotOverflow] is set. *)
Theorem GenerateRandomActiveStakingEvents_events env o events :
  GenerateRandomActiveStakingEvents env (Some o) = Returned events →
  ∃ generatedFps generatedStakers,
    GeneratePks (fpKeys env) 11 = Returned generatedFps ∧
    GeneratePks (stakerKeys env) 11 = Returned generatedStakers ∧
    length generatedFps = 11%nat ∧ length generatedStakers = 11%nat ∧
    Z.of_nat (length events)
      = (if decide (NumOfEvents o > 0) then NumOfEvents o else 11) ∧
    Forall (λ e,
      Event e = ActiveStakingEventType ∧
      FinalityProviderPkHex e ∈
        (if decide (FinalityProviders o = []) then generatedFps
         else FinalityProviders o) ∧
      StakerPkHex e ∈
        (if decide (Stakers o = []) then generatedStakers else Stakers o) ∧
      1 ≤ StakingStartHeight e ≤ 100000 ∧
      0 ≤ StakingTimeLock e < 100 ∧
      0 ≤ StakingOutputIndex e < 100 ∧
      (EnforceNotOverflow o = true → IsOverflow e = false)) events.
Proof.
  unfold GenerateRandomActiveStakingEvents.
  destruct (GeneratePks (fpKeys env) 11) as [fps| |] eqn:Efp; [|done..].
  destruct (GeneratePks (stakerKeys env) 11) as [sts| |] eqn:Est; [|done..].
  intros Hret. apply generateEvents_Returned in Hret as [Hlen Hall].
  exists fps, sts.
  apply GeneratePks_from_length in Efp, Est.
  split_and!; [done..| |].
  - rewrite Hlen. unfold effectiveNumOfEvents.
    case_decide; by rewrite Z2Nat.id by lia.
  - eapply Forall_impl; [exact Hall|]. simpl.
    intros e (He & Hf & Hs & Hrest).
    split; [done|]. split; [|split; [|done]].
    + destruct (FinalityProviders o) as [|k ks]; by simpl in Hf.
    + destruct (Stakers o) as [|k ks]; by simpl in Hs.
Qed.

(** X19.  [GenerateRandomActiveStakingEvents] returns when every key and
    every transaction can be generated and the options set no
    [AfterTimestamp]: no draw of the loop can then panic. *)
Theorem GenerateRandomActiveStakingEvents_returns env o :
  (∀ j, (j < 11)%nat → is_Some (fpKeys env j)) →
  (∀ j, (j < 11)%nat → is_Some (stakerKeys env j)) →
  (∀ j, is_Some (txDraw env j)) →
  AfterTimestamp o = 0 →
  ∃ events, GenerateRandomActiveStakingEvents env (Some o) = Returned events.
Proof.
  intros Hfp Hst Htx Hafter. unfold GenerateRandomActiveStakingEvents.
  destruct (GeneratePks_from_returns (fpKeys env) 0 11) as [fps Efp];
    [intros j Hj; apply Hfp; lia|].
  destruct (GeneratePks_from_returns (stakerKeys env) 0 11) as [sts Est];
    [intros j Hj; apply Hst; lia|].
  unfold GeneratePks. change (Z.to_nat 11) with 11%nat.
  rewrite Efp, Est.
  apply GeneratePks_from_length in Efp, Est.
  apply generateEvents_returns; [| |done|by intros].
  - simpl. destruct (FinalityProviders o); [|done]. by destruct fps.
  - simpl. destruct (Stakers o); [|done]. by destruct sts.
Qed.

End event_generator.

(** ** The further properties at concrete inputs *)

Section further_concrete.

Import db examples.

(** The lock keys of two transactions differ. *)
Lemma constructStatsLockId_inj_witness :
  constructStatsLockId "tx1" Active_ToString
  ≠ constructStatsLockId "tx2" Active_ToString.
Proof.
  intros Heq.
  apply (proj1 (constructStatsLockId_inj "tx1" Active_ToString
                  "tx2" Active_ToString)) in Heq as [Hh _];
    [discriminate Hh|reflexivity|reflexivity].
Defined.

(** An update of the overall stats leaves the boolean of the provider stats
    of the same lock record as it is. *)
Lemma stats_update_lock_frame_witness :
  lock_state "finality_provider_stats" "tx1" Active_ToString
    (updateOverallStats (noFaults 0) Active_ToString "tx1" activeUpdate
       lockedDb).2
  = Some false.
Proof.
  rewrite (proj1 (stats_update_lock_frame (noFaults 0) Active_ToString "tx1"
                    "a" activeUpdate lockedDb "finality_provider_stats"
                    "tx1" Active_ToString)).
  - vm_compute. reflexivity.
  - left. discriminate.
Defined.

(** The increment of [tx1] is applied once; after the increment of [tx2]
    a second one for [tx1], with another amount and shard, is turned away. *)
Lemma stats_update_at_most_once_witness :
  let later :=
    (execAll [CallIncrementOverallStats (noFaults 0) "tx2" 500]
       (updateOverallStats (noFaults 1) Active_ToString "tx1" activeUpdate
          lockedDb).2).2 in
  (updateOverallStats (noFaults 0) Active_ToString "tx1" zeroStats later).1
  ≠ Done () ∧
  (updateOverallStats (noFaults 0) Active_ToString "tx1" zeroStats later).2
  = later.
Proof.
  apply (proj1 (stats_update_at_most_once (noFaults 1) Active_ToString "tx1"
                  "a" activeUpdate lockedDb
                  [CallIncrementOverallStats (noFaults 0) "tx2" 500]
                  (noFaults 0) "a" zeroStats)).
  vm_compute. reflexivity.
Defined.

Lemma get_or_create_reads_back_witness :
  ∃ d, (GetOrCreateStatsLock NoFault "tx1" Active_ToString
          (updateOverallStats (noFaults 1) Active_ToString "tx1" activeUpdate
             lockedDb).2).1 = Done d ∧
       OverallStats d = true.
Proof.
  destruct (proj2 (get_or_create_reads_back (noFaults 1) Active_ToString
                     "tx1" activeUpdate lockedDb)) as (d & Hd & Hset).
  - vm_compute. reflexivity.
  - exists d. rewrite Hd. split; [reflexivity|exact Hset].
Defined.

(** The totals written under two shards, read under five. *)
Lemma shard_count_may_grow_witness :
  GetOverallStats noReadFaults
    (with_LogicalShardCount (execAll providerCalls (emptyDb 2 1)).2 5)
  = GetOverallStats noReadFaults (execAll providerCalls (emptyDb 2 1)).2.
Proof.
  apply (shard_count_may_grow providerCalls (emptyDb 2 1) 5 noReadFaults).
  - reflexivity.
  - vm_compute. discriminate.
  - vm_compute. discriminate.
Defined.

(** An update that drew the shard 1, read under one shard. *)
Lemma shard_count_reduced_hides_update_witness :
  GetOverallStats noReadFaults
    (with_LogicalShardCount
       (updateOverallStats (noFaults 1) Active_ToString "tx1" activeUpdate
          lockedDb).2 1)
  = GetOverallStats noReadFaults (with_LogicalShardCount lockedDb 1).
Proof.
  apply (shard_count_reduced_hides_update (noFaults 1) Active_ToString "tx1"
           activeUpdate lockedDb 1 noReadFaults).
  - vm_compute. reflexivity.
  - vm_compute. discriminate.
Defined.

(** An update of the provider [b] does not change what the read of [a]
    returns. *)
Lemma provider_updates_do_not_interfere_witness :
  FindFinalityProviderStatsByPkHex noBatchFaults ["a"]
    (updateFinalityProviderStats (noFaults 0) Active_ToString "tx1" "b"
       activeUpdate (providerDb 1)).2
  = FindFinalityProviderStatsByPkHex noBatchFaults ["a"] (providerDb 1).
Proof.
  apply (proj1 (provider_updates_do_not_interfere (noFaults 0)
                  Active_ToString "tx1" "b" activeUpdate (providerDb 1)
                  noBatchFaults ["a"])).
  intros Hin. apply list_elem_of_singleton in Hin. discriminate Hin.
Defined.

(** The provider [a] after an increment and a subtraction of 10000: no
    active stake, 10000 and one delegation in total. *)
Lemma provider_stats_after_calls_witness :
  FindFinalityProviderStatsByPkHex noBatchFaults ["a"]
    (execAll providerCalls (emptyDb 2 1)).2
  = Done {[ "a" := {| Id := ""; ActiveTvl := 0; TotalTvl := 10000;
                      ActiveDelegations := 0; TotalDelegations := 1 |} ]}.
Proof.
  apply (provider_stats_after_calls providerCalls (emptyDb 2 1)
           (execAll providerCalls (emptyDb 2 1)).2 "a" noBatchFaults).
  - reflexivity.
  - vm_compute. reflexivity.
  - vm_compute. reflexivity.
  - reflexivity.
  - intros i. split; reflexivity.
  - vm_compute. discriminate.
Defined.

Lemma provider_read_reports_requested_witness :
  "a" ∈ ["a"] ∧ Contains "a" ":" = false ∧
  providerHasShard "a" (providerDb 1) = true.
Proof.
  apply (provider_read_reports_requested noBatchFaults ["a"] (providerDb 1)
           {[ "a" := {| Id := ""; ActiveTvl := 5; TotalTvl := 5;
                        ActiveDelegations := 1; TotalDelegations := 1 |} ]}
           "a").
  - vm_compute. discriminate.
  - vm_compute. reflexivity.
  - eexists. vm_compute. reflexivity.
Defined.

(** A batch size limit of 2^63 is negative as an [int]: the read panics. *)
Lemma provider_read_edges_witness :
  FindFinalityProviderStatsByPkHex noBatchFaults ["a"] (providerDb (2 ^ 63))
  = Panic.
Proof.
  apply (proj2 (proj2 (provider_read_edges noBatchFaults ["a"]
                         (providerDb (2 ^ 63))))).
  - vm_compute. reflexivity.
  - discriminate.
Defined.

(** The store that holds [tx1], and a client that returns neither a
    document nor an error. *)
Lemma is_delegation_present_agrees_witness :
  let lookup (s : gmap string v1model.DelegationDocument) h :=
    sum_map Some id (memstore.findByHash s h) in
  v1service.IsDelegationPresent lookup oneDelegation "tx1" = (true, None) ∧
  v1service.IsDelegationPresent lookup oneDelegation "tx9" = (false, None) ∧
  v1service.IsDelegationPresent (E := db.error) (λ _ _, inl None)
    oneDelegation "tx1" = (false, None).
Proof.
  intros lookup. split_and!.
  - destruct (is_delegation_present_agrees lookup oneDelegation "tx1")
      as (_ & _ & _ & _ & Hagree).
    apply (proj1 (Hagree eq_refl)). eexists. vm_compute. reflexivity.
  - destruct (is_delegation_present_agrees lookup oneDelegation "tx9")
      as (_ & _ & _ & _ & Hagree).
    apply (proj1 (proj2 (Hagree eq_refl))).
    eexists. split; vm_compute; reflexivity.
  - apply (proj1 (proj2 (is_delegation_present_agrees (E := db.error)
                           (λ _ _, inl None) oneDelegation "tx1"))).
    left. reflexivity.
Defined.

(** A request whose query parameter does not parse: the store is not
    read. *)
Lemma handler_result_witness :
  v1handlers.GetDelegationByTxHash (Request := string) (Result := string)
    Sprint
    (λ _ _, inr (types.NewError types.StatusBadRequest types.BadRequest
                   (DriverError "invalid staking_tx_hash_hex")))
    v1service.pub_StakingTxHashHex oneDelegation "?"
  = inr (types.NewError types.StatusBadRequest types.BadRequest
           (DriverError "invalid staking_tx_hash_hex")).
Proof.
  apply (proj1 (handler_result (Request := string) (Result := string) Sprint
                  (λ _ _, inr (types.NewError types.StatusBadRequest
                                 types.BadRequest
                                 (DriverError "invalid staking_tx_hash_hex")))
                  v1service.pub_StakingTxHashHex oneDelegation "?")).
  reflexivity.
Defined.

Lemma delegations_page_is_converted_witness :
  let page :=
    [v1service.FromDelegationDocument Sprint
       (memstore.newDelegation (activeArgs "tx1"))] in
  v1service.DelegationsByStakerPk Sprint oneDelegation "staker" "" ""
  = (Some page, "", None) ∧
  ∃ p, page !! 0%nat = Some p ∧
       v1service.pub_StakingTxHashHex p = "tx1" ∧
       v1service.pub_StakingValue p = 10000 ∧
       ¬ is_Some (v1service.pub_UnbondingTx p).
Proof.
  intros page.
  assert (v1service.DelegationsByStakerPk Sprint oneDelegation "staker" "" ""
          = (Some page, "", None)) as Hpage by (vm_compute; reflexivity).
  split; [exact Hpage|].
  destruct (delegations_page_is_converted Sprint oneDelegation "staker" "" ""
              page "" 0 (memstore.newDelegation (activeArgs "tx1")) Hpage)
    as (resultMap & Hfind & _ & _ & Hat).
  assert (resultMap
          = {| v1dbclient.Data := [memstore.newDelegation (activeArgs "tx1")];
               v1dbclient.PaginationToken := "" |}) as ->.
  { vm_compute in Hfind. injection Hfind as <-. reflexivity. }
  destruct (Hat eq_refl) as (p & Hp & Hhash & _ & _ & Hvalue & _ & _ & Hunb).
  exists p. split; [exact Hp|]. split; [exact Hhash|]. split; [exact Hvalue|].
  intros Hsome. apply Hunb in Hsome as (u & Hu & _). discriminate Hu.
Defined.

Lemma RandomPositiveInt_range_witness :
  ∃ n, testutils.RandomPositiveInt 12345 100000 = Some n ∧ 1 ≤ n ≤ 100000.
Proof.
  apply (RandomPositiveInt_range 12345 100000).
  - vm_compute. split; discriminate.
  - lia.
Defined.

Lemma RandomString_alphanumeric_witness :
  ∃ s, testutils.RandomString (λ i, 7 * Z.of_nat i + 60) 10 = Some s ∧
       Z.of_nat (String.length s) = 10 ∧
       Forall (λ c, Contains testutils.letters c = true)
         (String.list_ascii_of_string s) ∧
       Contains s ":" = false.
Proof.
  apply (RandomString_alphanumeric (λ i, 7 * Z.of_nat i + 60) 10). lia.
Defined.

Lemma GenerateRandomTimestamp_bounds_witness :
  ∃ t, testutils.GenerateRandomTimestamp 1700000000 123456789
         1600000000 1650000000 = Some t ∧
       1600000000 ≤ t < 1650000000.
Proof.
  destruct (GenerateRandomTimestamp_bounds 1700000000 123456789
              1600000000 1650000000) as (_ & Hboth & _).
  - vm_compute. split; discriminate.
  - vm_compute. split; discriminate.
  - vm_compute. split; discriminate.
  - apply Hboth; [lia|lia| |lia]. vm_compute. split; discriminate.
Defined.

(** Three events of the provider [a], none marked as overflow. *)
Lemma GenerateRandomActiveStakingEvents_events_witness :
  ∃ events,
    testutils.GenerateRandomActiveStakingEvents eventEnv (Some eventOpts)
    = testutils.Returned events ∧
    length events = 3%nat ∧
    Forall (λ e, testutils.FinalityProviderPkHex e = "a" ∧
                 testutils.IsOverflow e = false) events.
Proof.
  eexists. split; [vm_compute; reflexivity|].
  destruct (GenerateRandomActiveStakingEvents_events eventEnv eventOpts _
              ltac:(vm_compute; reflexivity))
    as (fps & sts & _ & _ & _ & _ & Hlen & Hall).
  split; [simpl in Hlen |- *; lia|].
  eapply Forall_impl; [exact Hall|].
  intros e (_ & Hfp & _ & _ & _ & _ & Hover). split.
  - simpl in Hfp. apply list_elem_of_singleton in Hfp. exact Hfp.
  - apply Hover. reflexivity.
Defined.

Lemma GenerateRandomActiveStakingEvents_returns_witness :
  ∃ events,
    testutils.GenerateRandomActiveStakingEvents eventEnv (Some eventOpts)
    = testutils.Returned events.
Proof.
  apply (GenerateRandomActiveStakingEvents_returns eventEnv eventOpts).
  - intros j _. simpl. eexists. reflexivity.
  - intros j _. simpl. eexists. reflexivity.
  - intros j. simpl. eexists. reflexivity.
  - reflexivity.
Defined.

End further_concrete.
